(** * Event replay: bulk import of a pre-organised TSV event log

    A shallow embedding of [src/event-replay/event-import-preorg.ts]
    and the properties of its batch accumulator, principal linking,
    progress reporting and phase orchestration. *)

From stdpp Require Import base list strings gmap.
From Stdlib Require Import ZArith QArith Qpower Qround Lia Lqa Ascii.
From Stdlib Require Import Floats.SpecFloat.

#[local] Set Warnings "-clear-no-such-hyp".

Local Open Scope nat_scope.

(** ** The batch accumulator ([createBatchInserter]) *)

Module BatchInserter.

Section Inserter.
Context {T : Type}.

(** Modelled from the spec: [batchIterate] of [../helpers] is imported
    by the importer but its body is not part of the sources at hand.
    "Splits the buffer into successive chunks of size N": a generator
    that walks the array with a cursor and yields
    [items.slice(i, i + min(batchSize, remaining))] until the array is
    used up, so the last chunk carries what is left.  [fuel] bounds the
    number of loop iterations; [length items] iterations are enough as
    soon as [batchSize >= 1]. *)
Fixpoint batchIterateFrom (fuel batchSize : nat) (items : list T)
  : list (list T) :=
  match fuel with
  | O => []
  | S fuel' =>
      match items with
      | [] => []
      | _ :: _ =>
          take batchSize items
            :: batchIterateFrom fuel' batchSize (drop batchSize items)
      end
  end.

Definition batchIterate (items : list T) (batchSize : nat) : list (list T) :=
  batchIterateFrom (length items) batchSize items.

(** The closure state of one accumulator: the captured [entryBuffer]
    array, together with the record of every call made to [insertFn]
    (the contents of the array argument at the time of the call, in
    call order).  [insertFn] receives the buffer array itself; it is
    awaited before the buffer is truncated, so the contents it is given
    are the ones recorded here. *)
Record Inserter := mkInserter {
  entryBuffer : list T;
  inserted : list (list T)
}.

Definition createBatchInserter : Inserter :=
  {| entryBuffer := []; inserted := [] |}.

(** [await insertFn(batch)] *)
Definition insertFn (batch : list T) (st : Inserter) : Inserter :=
  {| entryBuffer := entryBuffer st; inserted := inserted st ++ [batch] |}.

(** [entryBuffer.length = 0] *)
Definition clearBuffer (st : Inserter) : Inserter :=
  {| entryBuffer := []; inserted := inserted st |}.

(** [entries.length === 1 ? entryBuffer.push(entries[0])
                          : entries.forEach(e => entryBuffer.push(e))] *)
Definition appendEntries (entries : list T) (st : Inserter) : Inserter :=
  match entries with
  | [e] => {| entryBuffer := entryBuffer st ++ [e]; inserted := inserted st |}
  | _ =>
      {| entryBuffer := foldl (fun buf e => buf ++ [e]) (entryBuffer st) entries;
         inserted := inserted st |}
  end.

Definition push (batchSize : nat) (entries : list T) (st : Inserter)
  : Inserter :=
  let st1 := appendEntries entries st in
  if length (entryBuffer st1) =? batchSize then
    clearBuffer (insertFn (entryBuffer st1) st1)
  else if batchSize <? length (entryBuffer st1) then
    clearBuffer
      (foldl (fun s batch => insertFn batch s) st1
             (batchIterate (entryBuffer st1) batchSize))
  else st1.

Definition flush (st : Inserter) : Inserter :=
  if 0 <? length (entryBuffer st) then insertFn (entryBuffer st) st
  else st.

(** A whole session: the given [push] calls in order, then one [flush]. *)
Definition pushAll (batchSize : nat) (pushes : list (list T))
    (st : Inserter) : Inserter :=
  foldl (fun s entries => push batchSize entries s) st pushes.

Definition session (batchSize : nat) (pushes : list (list T)) : Inserter :=
  flush (pushAll batchSize pushes createBatchInserter).

(** [ceil(K / N)] on naturals. *)
Definition ceilDiv (k n : nat) : nat := (k + n - 1) / n.

(** The accumulator as the specification words it: a push that makes
    the buffer exceed [N] hands over the full chunks only and keeps the
    remainder of fewer than [N] items buffered. *)
Definition push_spec (batchSize : nat) (entries : list T) (st : Inserter)
  : Inserter :=
  let buf := entryBuffer st ++ entries in
  if length buf =? batchSize then
    {| entryBuffer := []; inserted := inserted st ++ [buf] |}
  else if batchSize <? length buf then
    let full := (length buf / batchSize) * batchSize in
    {| entryBuffer := drop full buf;
       inserted := inserted st ++ batchIterate (take full buf) batchSize |}
  else {| entryBuffer := buf; inserted := inserted st |}.

(** *** Elementary facts *)

Lemma foldl_snoc_app (buf entries : list T) :
  foldl (fun b e => b ++ [e]) buf entries = buf ++ entries.
Proof.
  revert buf; induction entries as [|e es IH]; intros buf; simpl.
  - by rewrite app_nil_r.
  - rewrite IH, <- app_assoc. done.
Qed.

Lemma appendEntries_buffer entries st :
  entryBuffer (appendEntries entries st) = entryBuffer st ++ entries.
Proof.
  destruct entries as [|e [|e' es]]; simpl; try done.
  - by rewrite app_nil_r.
  - rewrite (foldl_snoc_app ((entryBuffer st ++ [e]) ++ [e']) es).
    by rewrite <- !app_assoc.
Qed.

Lemma appendEntries_inserted entries st :
  inserted (appendEntries entries st) = inserted st.
Proof. by destruct entries as [|e [|e' es]]. Qed.

Lemma foldl_insertFn_inserted batches st :
  inserted (foldl (fun s b => insertFn b s) st batches)
  = inserted st ++ batches.
Proof.
  revert st; induction batches as [|b bs IH]; intros st; simpl.
  - by rewrite app_nil_r.
  - rewrite IH. simpl. by rewrite <- app_assoc.
Qed.

(** What one [push] does, in terms of the buffer after the append. *)
Lemma push_unfold batchSize entries st :
  push batchSize entries st =
    let buf := entryBuffer st ++ entries in
    if length buf =? batchSize then
      {| entryBuffer := []; inserted := inserted st ++ [buf] |}
    else if batchSize <? length buf then
      {| entryBuffer := [];
         inserted := inserted st ++ batchIterate buf batchSize |}
    else {| entryBuffer := buf; inserted := inserted st |}.
Proof.
  unfold push. cbv zeta.
  rewrite appendEntries_buffer.
  destruct (length (entryBuffer st ++ entries) =? batchSize) eqn:E1.
  - unfold clearBuffer, insertFn. simpl.
    by rewrite appendEntries_inserted.
  - destruct (batchSize <? length (entryBuffer st ++ entries)) eqn:E2.
    + unfold clearBuffer. rewrite foldl_insertFn_inserted.
      by rewrite appendEntries_inserted.
    + destruct (appendEntries entries st) as [b i] eqn:E.
      f_equal.
      * by rewrite <- (appendEntries_buffer entries st), E.
      * by rewrite <- (appendEntries_inserted entries st), E.
Qed.

(** *** The chunks produced by [batchIterate] *)

Lemma batchIterateFrom_concat fuel batchSize (items : list T) :
  1 <= batchSize -> length items <= fuel ->
  concat (batchIterateFrom fuel batchSize items) = items.
Proof.
  intros HN. revert items.
  induction fuel as [|fuel IH]; intros items Hlen.
  - destruct items; [done | simpl in Hlen; lia].
  - destruct items as [|x xs]; [done|].
    cbn [batchIterateFrom concat].
    rewrite IH.
    + apply take_drop.
    + rewrite length_drop. simpl in *. lia.
Qed.

Lemma batchIterateFrom_sizes fuel batchSize (items : list T) :
  1 <= batchSize ->
  Forall (fun b => 1 <= length b <= batchSize)
         (batchIterateFrom fuel batchSize items).
Proof.
  intros HN. revert items.
  induction fuel as [|fuel IH]; intros items; [constructor|].
  destruct items as [|x xs]; [constructor|].
  cbn [batchIterateFrom]. constructor; [|apply IH].
  rewrite length_take. simpl. lia.
Qed.

Lemma ceilDiv_step k n : 1 <= n -> n < k -> ceilDiv k n = S (ceilDiv (k - n) n).
Proof.
  intros Hn Hk. unfold ceilDiv.
  replace (k + n - 1) with ((k - n + n - 1) + 1 * n) by lia.
  rewrite Nat.div_add by lia. lia.
Qed.

Lemma ceilDiv_small k n : 1 <= k <= n -> ceilDiv k n = 1.
Proof.
  intros Hk. unfold ceilDiv.
  replace (k + n - 1) with ((k - 1) + 1 * n) by lia.
  rewrite Nat.div_add by lia. rewrite Nat.div_small by lia. done.
Qed.

Lemma ceilDiv_zero n : 1 <= n -> ceilDiv 0 n = 0.
Proof. intros Hn. unfold ceilDiv. apply Nat.div_small. lia. Qed.

Lemma batchIterateFrom_length fuel batchSize (items : list T) :
  1 <= batchSize -> length items <= fuel ->
  length (batchIterateFrom fuel batchSize items)
  = ceilDiv (length items) batchSize.
Proof.
  intros HN. revert items.
  induction fuel as [|fuel IH]; intros items Hlen.
  - destruct items; [|simpl in Hlen; lia]. by rewrite ceilDiv_zero.
  - destruct items as [|x xs]; [by rewrite ceilDiv_zero|].
    cbn [batchIterateFrom length].
    rewrite IH by (rewrite length_drop; simpl in *; lia).
    rewrite length_drop.
    destruct (decide (length (x :: xs) <= batchSize)) as [Hs|Hs].
    + replace (length (x :: xs) - batchSize) with 0 by lia.
      rewrite ceilDiv_zero by done.
      rewrite ceilDiv_small; [done | simpl in *; lia].
    + rewrite (ceilDiv_step (length (x :: xs))) by lia. done.
Qed.

(** The [i]-th chunk is the slice [items.slice(i*N, i*N + N)]. *)
Lemma batchIterateFrom_lookup fuel batchSize (items : list T) i :
  1 <= batchSize -> length items <= fuel ->
  i * batchSize < length items ->
  batchIterateFrom fuel batchSize items !! i
  = Some (take batchSize (drop (i * batchSize) items)).
Proof.
  intros HN. revert items i.
  induction fuel as [|fuel IH]; intros items i Hlen Hi; [lia|].
  destruct items as [|x xs]; [simpl in Hi; lia|].
  cbn [batchIterateFrom].
  destruct i as [|i]; [done|].
  cbn [lookup list_lookup]. rewrite IH.
  - rewrite drop_drop. repeat f_equal; lia.
  - rewrite length_drop. simpl in *. lia.
  - rewrite length_drop. lia.
Qed.

(** *** Invariants of a session *)

(** Everything handed to the accumulator so far, in order: what was
    passed on to [insertFn], then what is still buffered. *)
Definition contents (st : Inserter) : list T :=
  concat (inserted st) ++ entryBuffer st.

Definition batchOk (batchSize : nat) (b : list T) : Prop :=
  1 <= length b <= batchSize.

Lemma push_contents batchSize entries st :
  1 <= batchSize ->
  contents (push batchSize entries st) = contents st ++ entries.
Proof.
  intros HN. rewrite push_unfold. cbv zeta. unfold contents.
  destruct (length (entryBuffer st ++ entries) =? batchSize) eqn:E1;
    [|destruct (batchSize <? length (entryBuffer st ++ entries)) eqn:E2];
    cbn [inserted entryBuffer].
  - rewrite concat_app. simpl. by rewrite !app_nil_r, app_assoc.
  - rewrite concat_app. unfold batchIterate.
    rewrite batchIterateFrom_concat by done.
    by rewrite app_nil_r, app_assoc.
  - by rewrite app_assoc.
Qed.

Lemma push_batchOk batchSize entries st :
  1 <= batchSize ->
  Forall (batchOk batchSize) (inserted st) ->
  Forall (batchOk batchSize) (inserted (push batchSize entries st)).
Proof.
  intros HN Hst. rewrite push_unfold. cbv zeta.
  destruct (length (entryBuffer st ++ entries) =? batchSize) eqn:E1;
    [|destruct (batchSize <? length (entryBuffer st ++ entries)) eqn:E2];
    cbn [inserted]; try done.
  - apply Nat.eqb_eq in E1. apply Forall_app. split; [done|].
    constructor; [|constructor]. unfold batchOk. lia.
  - apply Forall_app. split; [done|].
    unfold batchIterate. by apply batchIterateFrom_sizes.
Qed.

Lemma push_buffer_short batchSize entries st :
  1 <= batchSize ->
  length (entryBuffer (push batchSize entries st)) < batchSize.
Proof.
  intros HN. rewrite push_unfold. cbv zeta.
  destruct (length (entryBuffer st ++ entries) =? batchSize) eqn:E1;
    [|destruct (batchSize <? length (entryBuffer st ++ entries)) eqn:E2];
    cbn [entryBuffer length]; try lia.
  apply Nat.eqb_neq in E1. apply Nat.ltb_ge in E2. lia.
Qed.

Lemma pushAll_contents batchSize pushes st :
  1 <= batchSize ->
  contents (pushAll batchSize pushes st) = contents st ++ concat pushes.
Proof.
  intros HN. revert st. unfold pushAll.
  induction pushes as [|es pushes IH]; intros st; simpl.
  - by rewrite app_nil_r.
  - rewrite IH, push_contents by done. by rewrite <- app_assoc.
Qed.

Lemma pushAll_batchOk batchSize pushes st :
  1 <= batchSize ->
  Forall (batchOk batchSize) (inserted st) ->
  Forall (batchOk batchSize) (inserted (pushAll batchSize pushes st)).
Proof.
  intros HN. revert st. unfold pushAll.
  induction pushes as [|es pushes IH]; intros st Hst; simpl; [done|].
  apply IH. by apply push_batchOk.
Qed.

Lemma pushAll_buffer_short batchSize pushes st :
  1 <= batchSize ->
  length (entryBuffer st) < batchSize ->
  length (entryBuffer (pushAll batchSize pushes st)) < batchSize.
Proof.
  intros HN. revert st. unfold pushAll.
  induction pushes as [|es pushes IH]; intros st Hst; simpl; [done|].
  apply IH. by apply push_buffer_short.
Qed.

Lemma flush_inserted st :
  concat (inserted (flush st)) = contents st.
Proof.
  unfold flush, contents, insertFn.
  destruct (0 <? length (entryBuffer st)) eqn:E; cbn [inserted].
  - rewrite concat_app. simpl. by rewrite app_nil_r.
  - apply Nat.ltb_ge in E.
    destruct (entryBuffer st); [by rewrite app_nil_r | simpl in E; lia].
Qed.

Lemma flush_batchOk batchSize st :
  length (entryBuffer st) <= batchSize ->
  Forall (batchOk batchSize) (inserted st) ->
  Forall (batchOk batchSize) (inserted (flush st)).
Proof.
  intros Hb Hst. unfold flush, insertFn.
  destruct (0 <? length (entryBuffer st)) eqn:E; cbn [inserted]; [|done].
  apply Nat.ltb_lt in E. apply Forall_app. split; [done|].
  constructor; [|constructor]. unfold batchOk. lia.
Qed.

Lemma concat_length_bound batchSize (bs : list (list T)) :
  Forall (batchOk batchSize) bs ->
  length (concat bs) <= length bs * batchSize.
Proof.
  induction 1 as [|b bs [_ Hb] _ IH]; simpl; [lia|].
  rewrite length_app. lia.
Qed.

Lemma ceilDiv_le_count k n c : 1 <= n -> k <= c * n -> ceilDiv k n <= c.
Proof.
  intros Hn Hk. unfold ceilDiv.
  enough ((k + n - 1) / n < S c) by lia.
  apply Nat.Div0.div_lt_upper_bound. lia.
Qed.

(** *** Sessions in which every batch but the last is full *)

Definition allFull (batchSize : nat) (st : Inserter) : Prop :=
  Forall (fun b => length b = batchSize) (inserted st)
  /\ length (entryBuffer st) < batchSize.

Lemma push_small_allFull batchSize entries st :
  1 <= batchSize -> length entries <= 1 ->
  allFull batchSize st -> allFull batchSize (push batchSize entries st).
Proof.
  intros HN Hes [Hfull Hbuf]. rewrite push_unfold. cbv zeta.
  destruct (length (entryBuffer st ++ entries) =? batchSize) eqn:E1;
    [|destruct (batchSize <? length (entryBuffer st ++ entries)) eqn:E2].
  - apply Nat.eqb_eq in E1. split; cbn [inserted entryBuffer length]; [|lia].
    apply Forall_app. split; [done|]. by repeat constructor.
  - apply Nat.ltb_lt in E2. apply Nat.eqb_neq in E1.
    rewrite length_app in *. lia.
  - apply Nat.ltb_ge in E2. apply Nat.eqb_neq in E1.
    split; cbn [inserted entryBuffer]; [done | lia].
Qed.

Lemma pushAll_small_allFull batchSize pushes st :
  1 <= batchSize -> Forall (fun es => length es <= 1) pushes ->
  allFull batchSize st -> allFull batchSize (pushAll batchSize pushes st).
Proof.
  intros HN Hps. revert st. unfold pushAll.
  induction Hps as [|es pushes Hes _ IH]; intros st Hst; simpl; [done|].
  apply IH. by apply push_small_allFull.
Qed.

Lemma full_concat_length batchSize (bs : list (list T)) :
  Forall (fun b => length b = batchSize) bs ->
  length (concat bs) = length bs * batchSize.
Proof.
  induction 1 as [|b bs Hb _ IH]; simpl; [done|].
  rewrite length_app. lia.
Qed.

Lemma ceilDiv_full c b n :
  b < n -> ceilDiv (c * n + b) n = c + (if b =? 0 then 0 else 1).
Proof.
  intros Hb. unfold ceilDiv.
  destruct (b =? 0) eqn:E.
  - apply Nat.eqb_eq in E. subst b.
    replace (c * n + 0 + n - 1) with ((n - 1) + c * n) by lia.
    rewrite Nat.div_add by lia. rewrite Nat.div_small by lia. lia.
  - apply Nat.eqb_neq in E.
    replace (c * n + b + n - 1) with ((b - 1) + (c + 1) * n) by lia.
    rewrite Nat.div_add by lia. rewrite Nat.div_small by lia. lia.
Qed.

Lemma flush_allFull_count batchSize st :
  allFull batchSize st ->
  length (inserted (flush st)) = ceilDiv (length (contents st)) batchSize.
Proof.
  intros [Hfull Hbuf]. unfold contents.
  rewrite length_app, (full_concat_length batchSize) by done.
  rewrite ceilDiv_full by done.
  unfold flush, insertFn.
  destruct (entryBuffer st) as [|x xs]; cbn [length Nat.ltb Nat.leb Nat.eqb inserted].
  - lia.
  - rewrite length_app. simpl. lia.
Qed.

Lemma flush_keeps_buffer st : entryBuffer (flush st) = entryBuffer st.
Proof. unfold flush. by destruct (0 <? length (entryBuffer st)). Qed.

End Inserter.

Arguments Inserter : clear implicits.

(** C1, as the specification states it, fails: a bulk push that
    overshoots the batch size hands its remainder to [insertFn] at once,
    so with batch size 2 the pushes [[1;2;3]] and [[4]] cost three
    insertions where [ceil(4/2)] is two. *)
Lemma session_count_counterexample :
  inserted (session 2 [[1; 2; 3]; [4]]) = [[1; 2]; [3]; [4]]
  /\ ceilDiv (length (concat [[1; 2; 3]; [4]])) 2 = 2
  /\ length (inserted (session 2 [[1; 2; 3]; [4]]))
     <> ceilDiv (length (concat [[1; 2; 3]; [4]])) 2.
Proof.
  assert (E : inserted (session 2 [[1; 2; 3]; [4]]) = [[1; 2]; [3]; [4]])
    by reflexivity.
  split; [exact E|]. split; [reflexivity|].
  rewrite E. cbv. discriminate.
Qed.

(** C1 (amended). For every batch size [N >= 1] and every sequence of
    [push] calls followed by one [flush]: the batches given to the insert
    function, concatenated, are the pushed items in their order; no batch
    is empty and none has more than [N] items, so there are at least
    [ceil(K/N)] insertions; and there are exactly [ceil(K/N)] when every
    [push] call carries at most one item. *)
Theorem session_batches {T : Type} (N : nat) (pushes : list (list T)) :
  1 <= N ->
  let st := session N pushes in
  concat (inserted st) = concat pushes
  /\ Forall (fun b => b <> [] /\ length b <= N) (inserted st)
  /\ ceilDiv (length (concat pushes)) N <= length (inserted st)
  /\ (Forall (fun es => length es <= 1) pushes ->
      length (inserted st) = ceilDiv (length (concat pushes)) N).
Proof.
  intros HN st.
  assert (Hc : concat (inserted st) = concat pushes).
  { unfold st, session. rewrite flush_inserted, pushAll_contents by done.
    done. }
  assert (Hok : Forall (batchOk N) (inserted st)).
  { unfold st, session. apply flush_batchOk.
    - apply Nat.lt_le_incl, pushAll_buffer_short; simpl; lia.
    - apply pushAll_batchOk; [done | constructor]. }
  split; [exact Hc|]. split; [|split].
  - eapply Forall_impl; [exact Hok|].
    intros b [Hb1 Hb2]. split; [|done].
    intros ->. simpl in Hb1. lia.
  - apply ceilDiv_le_count; [done|].
    rewrite <- Hc. by apply concat_length_bound.
  - intros Hsmall. unfold st, session.
    rewrite (flush_allFull_count N).
    + by rewrite pushAll_contents.
    + apply pushAll_small_allFull; [done | done |].
      split; [constructor | simpl; lia].
Qed.

Lemma session_batches_witness :
  1 <= 2
  /\ concat (inserted (session 2 [[1; 2; 3]; [4]])) = [1; 2; 3; 4].
Proof.
  split; [lia|].
  exact (proj1 (session_batches 2 [[1; 2; 3]; [4]] ltac:(lia))).
Defined.

(** C2, as the specification states it, fails: pushing three items into
    an empty accumulator of batch size 2 hands over [[1;2]] and then the
    remainder [[3]], and leaves nothing buffered. *)
Lemma push_remainder_counterexample :
  push 2 [1; 2; 3] createBatchInserter
  = {| entryBuffer := []; inserted := [[1; 2]; [3]] |}
  /\ push_spec 2 [1; 2; 3] createBatchInserter
     = {| entryBuffer := [3]; inserted := [[1; 2]] |}
  /\ push 2 [1; 2; 3] createBatchInserter
     <> push_spec 2 [1; 2; 3] createBatchInserter.
Proof.
  split; [reflexivity|]. split; [reflexivity|].
  intros H. apply (f_equal entryBuffer) in H. discriminate H.
Qed.

(** C2 (amended). For every batch size [N >= 1] and every [push]: the
    items are appended to the buffer; below [N] they stay buffered and
    nothing is inserted; at exactly [N] the buffer is inserted as one
    batch and emptied; above [N] the whole buffer is inserted in
    successive slices of [N] items, the last slice being the remainder,
    and the buffer is emptied. *)
Theorem push_behaviour {T : Type} (N : nat) (entries : list T)
    (st : Inserter T) :
  1 <= N ->
  let buf := entryBuffer st ++ entries in
  let st' := push N entries st in
  (length buf < N -> entryBuffer st' = buf /\ inserted st' = inserted st)
  /\ (length buf = N ->
      entryBuffer st' = [] /\ inserted st' = inserted st ++ [buf])
  /\ (N < length buf ->
      entryBuffer st' = []
      /\ exists chunks,
          inserted st' = inserted st ++ chunks
          /\ length chunks = ceilDiv (length buf) N
          /\ concat chunks = buf
          /\ forall i, i * N < length buf ->
               chunks !! i = Some (take N (drop (i * N) buf))).
Proof.
  intros HN buf st'. unfold st'. rewrite push_unfold. cbv zeta.
  fold buf.
  destruct (length buf =? N) eqn:E1;
    [|destruct (N <? length buf) eqn:E2];
    cbn [entryBuffer inserted].
  - apply Nat.eqb_eq in E1. split; [lia|]. split; [done|]. lia.
  - apply Nat.ltb_lt in E2. apply Nat.eqb_neq in E1.
    split; [lia|]. split; [lia|].
    intros _. split; [done|].
    exists (batchIterate buf N). unfold batchIterate.
    split; [done|]. split; [by apply batchIterateFrom_length|].
    split; [by apply batchIterateFrom_concat|].
    intros i Hi. by apply batchIterateFrom_lookup.
  - apply Nat.ltb_ge in E2. apply Nat.eqb_neq in E1.
    split; [done|]. split; lia.
Qed.

Lemma push_behaviour_witness :
  1 <= 2
  /\ entryBuffer (push 2 [1; 2; 3] (createBatchInserter (T:=nat))) = [].
Proof.
  split; [lia|].
  pose proof (push_behaviour 2 [1; 2; 3] (createBatchInserter (T:=nat))
                ltac:(lia)) as H.
  cbv zeta in H. destruct H as (_ & _ & H).
  apply H. simpl. lia.
Defined.

(** C3. [flush] hands the buffer to the insert function but leaves it as
    it is (where [push] truncates it after each insertion): a second
    [flush] inserts the same rows again. *)
Theorem flush_twice_inserts_twice :
  let st := push 2 [7] createBatchInserter in
  entryBuffer st = [7]
  /\ inserted (flush st) = [[7]]
  /\ entryBuffer (flush st) = [7]
  /\ inserted (flush (flush st)) = [[7]; [7]].
Proof.
  intros st. subst st.
  rewrite !flush_keeps_buffer.
  repeat split; reflexivity.
Qed.

(** X3. Between calls, for every batch size [N >= 1]: what has been
    inserted so far, followed by what is buffered, is what has been
    pushed, in order; fewer than [N] items are buffered; and every batch
    inserted has between 1 and [N] items. *)
Theorem accumulator_state {T : Type} (N : nat) (pushes : list (list T)) :
  1 <= N ->
  let st := pushAll N pushes createBatchInserter in
  concat (inserted st) ++ entryBuffer st = concat pushes
  /\ length (entryBuffer st) < N
  /\ Forall (fun b => 1 <= length b <= N) (inserted st).
Proof.
  intros HN st. split; [|split].
  - exact (pushAll_contents N pushes createBatchInserter HN).
  - apply pushAll_buffer_short; simpl; lia.
  - apply (pushAll_batchOk N pushes createBatchInserter HN). constructor.
Qed.

Lemma accumulator_state_witness :
  1 <= 2
  /\ length (entryBuffer (pushAll 2 [[1; 2; 3]; [4]] createBatchInserter)) < 2.
Proof.
  split; [lia|].
  exact (proj1 (proj2 (accumulator_state 2 [[1; 2; 3]; [4]] ltac:(lia)))).
Defined.

(** X4. When every [push] carries at most one item (as the pushes of
    [dbTxBatchInserter] do), then after [K] items, for every batch size
    [N >= 1]: [K / N] batches have been inserted, each of exactly [N]
    items, and [K mod N] items wait in the buffer for the final
    [flush]. *)
Theorem single_item_pushes {T : Type} (N : nat) (pushes : list (list T)) :
  1 <= N ->
  Forall (fun es => length es <= 1) pushes ->
  let st := pushAll N pushes createBatchInserter in
  length (inserted st) = length (concat pushes) / N
  /\ Forall (fun b => length b = N) (inserted st)
  /\ length (entryBuffer st) = length (concat pushes) mod N.
Proof.
  intros HN Hsmall st.
  assert (Hfull : allFull N st).
  { apply pushAll_small_allFull; [done | done |].
    split; [constructor | simpl; lia]. }
  destruct Hfull as [Hfull Hbuf].
  assert (HK : length (concat pushes)
               = N * length (inserted st) + length (entryBuffer st)).
  { pose proof (pushAll_contents N pushes createBatchInserter HN) as Hc.
    fold st in Hc. unfold contents in Hc. simpl in Hc. rewrite <- Hc.
    rewrite length_app, (full_concat_length N) by done. lia. }
  split; [|split; [done|]].
  - by apply (Nat.div_unique _ _ _ (length (entryBuffer st))).
  - by apply (Nat.mod_unique _ _ (length (inserted st))).
Qed.

Lemma single_item_pushes_witness :
  1 <= 2
  /\ Forall (fun es : list nat => length es <= 1) [[1]; [2]; [3]]
  /\ length (entryBuffer (pushAll 2 [[1]; [2]; [3]] createBatchInserter)) = 1.
Proof.
  assert (H : Forall (fun es : list nat => length es <= 1) [[1]; [2]; [3]])
    by (repeat constructor).
  split; [lia|]. split; [exact H|].
  exact (proj2 (proj2 (single_item_pushes 2 [[1]; [2]; [3]] ltac:(lia) H))).
Defined.

End BatchInserter.

(** ** Domain records

    The record types of [../datastore/common] and
    [../event-stream/core-node-message].  Records whose fields the
    importer never reads are kept abstract. *)

Class Schema := {
  DbBlock : Type;
  DbMicroblock : Type;
  DbStxLockEvent : Type;
  DbFtEvent : Type;
  DbNftEvent : Type;
  DbSmartContractEvent : Type;
  DbSmartContract : Type;
  DbBnsName : Type;
  DbBnsNamespace : Type;
  DbBnsSubdomain : Type;
  DbBurnchainReward : Type;
  DbRewardSlotHolder : Type;
  DbZoneFile : Type;
  (** [subdomain.index_block_hash], an optional field *)
  subdomain_index_block_hash : DbBnsSubdomain -> option string
}.

(** The fields of a transaction row that the importer reads.  Optional
    fields ([string | undefined]) are options. *)
Record DbTx := mkDbTx {
  tx_id : string;
  index_block_hash : string;
  microblock_hash : string;
  sender_address : string;
  token_transfer_recipient_address : option string;
  contract_call_contract_id : option string;
  smart_contract_contract_id : option string;
  block_height : Z;
  microblock_sequence : Z;
  tx_index : Z;
  canonical : bool;
  microblock_canonical : bool
}.

Record DbStxEvent := mkDbStxEvent {
  sender : option string;
  recipient : option string
}.

Record PrincipalStxTxsInsertValues := mkPrincipalStxTx {
  pv_principal : string;
  pv_tx_id : string;
  pv_block_height : Z;
  pv_index_block_hash : string;
  pv_microblock_hash : string;
  pv_microblock_sequence : Z;
  pv_tx_index : Z;
  pv_canonical : bool;
  pv_microblock_canonical : bool
}.

Record DataStoreTxEventData {schema : Schema} := mkTxEventData {
  tx : DbTx;
  stxEvents : list DbStxEvent;
  contractLogEvents : list DbSmartContractEvent;
  stxLockEvents : list DbStxLockEvent;
  ftEvents : list DbFtEvent;
  nftEvents : list DbNftEvent;
  smartContracts : list DbSmartContract;
  names : list DbBnsName;
  namespaces : list DbBnsNamespace
}.

(** A schema for concrete examples: every abstract record is [unit]. *)
Definition unitSchema : Schema :=
  {| DbBlock := unit; DbMicroblock := unit; DbStxLockEvent := unit;
     DbFtEvent := unit; DbNftEvent := unit; DbSmartContractEvent := unit;
     DbSmartContract := unit; DbBnsName := unit; DbBnsNamespace := unit;
     DbBnsSubdomain := unit; DbBurnchainReward := unit;
     DbRewardSlotHolder := unit; DbZoneFile := unit;
     subdomain_index_block_hash := fun _ => None |}.

(** ** Principal linking rows ([processStxEvents]) *)

Module Principals.

Section ProcessStxEvents.
Context {schema : Schema}.

(** JavaScript truthiness of a [string | undefined]: defined and not
    the empty string. *)
Definition truthy (p : option string) : list string :=
  match p with
  | Some s => if String.eqb s "" then [] else [s]
  | None => []
  end.

(** [Set<string>], which iterates in insertion order. *)
Definition Set_add (s : list string) (x : string) : list string :=
  if decide (x ∈ s) then s else s ++ [x].

(** The template string
    [`${principal},${tx_id},${index_block_hash},${microblock_hash}`]. *)
Definition keySuffix (t : DbTx) : string :=
  "," +:+ tx_id t +:+ "," +:+ index_block_hash t +:+ ","
      +:+ microblock_hash t.

Definition contraintKey (t : DbTx) (principal : string) : string :=
  principal +:+ keySuffix t.

Definition insertValues (t : DbTx) (principal : string)
  : PrincipalStxTxsInsertValues :=
  {| pv_principal := principal;
     pv_tx_id := tx_id t;
     pv_block_height := block_height t;
     pv_index_block_hash := index_block_hash t;
     pv_microblock_hash := microblock_hash t;
     pv_microblock_sequence := microblock_sequence t;
     pv_tx_index := tx_index t;
     pv_canonical := canonical t;
     pv_microblock_canonical := microblock_canonical t |}.

(** The two locals of one call: [alreadyInsertedRowKeys] and [values]. *)
Definition RowState : Type := gset string * list PrincipalStxTxsInsertValues.

(** The local closure [push]. *)
Definition pushPrincipal (t : DbTx) (st : RowState) (principal : string)
  : RowState :=
  let key := contraintKey t principal in
  if decide (key ∈ st.1) then st
  else ({[ key ]} ∪ st.1, st.2 ++ [insertValues t principal]).

(** The four transaction fields, [filter]ed for truthiness. *)
Definition txPrincipalFields (t : DbTx) : list string :=
  truthy (Some (sender_address t))
  ++ truthy (token_transfer_recipient_address t)
  ++ truthy (contract_call_contract_id t)
  ++ truthy (smart_contract_contract_id t).

(** The body of [entry.stxEvents.forEach]. *)
Definition addEventPrincipals (s : list string) (event : DbStxEvent)
  : list string :=
  foldl Set_add (foldl Set_add s (truthy (sender event)))
        (truthy (recipient event)).

(** The set [principals] once both loops have run. *)
Definition principals (entry : DataStoreTxEventData) : list string :=
  foldl addEventPrincipals
        (foldl Set_add [] (txPrincipalFields (tx entry)))
        (stxEvents entry).

(** [processStxEvents], up to the final
    [dbPrincipalStxTxBatchInserter.push(values)]: the key set and the
    [values] array as they stand at that call. *)
Definition processStxEventsState (entry : DataStoreTxEventData) : RowState :=
  foldl (pushPrincipal (tx entry)) (∅, []) (principals entry).

Definition processStxEvents (entry : DataStoreTxEventData)
  : list PrincipalStxTxsInsertValues :=
  (processStxEventsState entry).2.

(** The rows pushed to the accumulator while the transactions of one
    block are processed ([for (const entry of dbData.txs)]). *)
Definition blockPrincipalRows (txs : list DataStoreTxEventData)
  : list PrincipalStxTxsInsertValues :=
  flat_map processStxEvents txs.

(** The candidate principals of a transaction, with repetitions: its
    sender, token-transfer recipient, contract-call contract id and
    deployed contract id, then every STX event's sender and recipient,
    each when present. *)
Definition candidatePrincipals (entry : DataStoreTxEventData)
  : list string :=
  txPrincipalFields (tx entry)
  ++ flat_map (fun ev => truthy (sender ev) ++ truthy (recipient ev))
              (stxEvents entry).



Definition rowKey (v : PrincipalStxTxsInsertValues) : string :=
  pv_principal v +:+ "," +:+ pv_tx_id v +:+ "," +:+ pv_index_block_hash v
    +:+ "," +:+ pv_microblock_hash v.


(** The dedup key set as the data model of the specification words it:
    one set per block, shared by the transactions of the block. *)
Definition blockState_blockScoped (txs : list DataStoreTxEventData)
  : RowState :=
  foldl (fun st entry => foldl (pushPrincipal (tx entry)) st (principals entry))
        (∅, []) txs.

Definition blockPrincipalRows_blockScoped (txs : list DataStoreTxEventData)
  : list PrincipalStxTxsInsertValues :=
  (blockState_blockScoped txs).2.

(** *** Strings *)

Lemma string_app_cons a (s1 s2 : string) :
  String a s1 +:+ s2 = String a (s1 +:+ s2).
Proof. reflexivity. Qed.

Lemma string_length_app (s1 s2 : string) :
  String.length (s1 +:+ s2) = String.length s1 + String.length s2.
Proof.
  induction s1 as [|a s1 IH]; [done|].
  rewrite string_app_cons. simpl. by rewrite IH.
Qed.

(** Two strings with a common suffix appended are equal only if they
    are equal themselves. *)
Lemma string_app_inj_r (s p1 p2 : string) :
  p1 +:+ s = p2 +:+ s -> p1 = p2.
Proof.
  revert p2. induction p1 as [|a p1 IH]; intros [|b p2] Heq; [done|..].
  - apply (f_equal String.length) in Heq.
    rewrite !string_length_app in Heq. simpl in Heq. lia.
  - apply (f_equal String.length) in Heq.
    rewrite !string_length_app in Heq. simpl in Heq. lia.
  - rewrite !string_app_cons in Heq. injection Heq as -> Heq.
    f_equal. by apply IH.
Qed.

Lemma contraintKey_inj t p1 p2 :
  contraintKey t p1 = contraintKey t p2 -> p1 = p2.
Proof. apply string_app_inj_r. Qed.

Lemma rowKey_insertValues t p : rowKey (insertValues t p) = contraintKey t p.
Proof. reflexivity. Qed.

(** *** The insertion-ordered set *)

Lemma Set_add_elem s x y : y ∈ Set_add s x <-> y ∈ s \/ y = x.
Proof.
  unfold Set_add. destruct (decide (x ∈ s)) as [Hin|Hin].
  - split; [by left | intros [?| ->]; done].
  - rewrite elem_of_app, list_elem_of_singleton. done.
Qed.

Lemma Set_add_NoDup s x : NoDup s -> NoDup (Set_add s x).
Proof.
  intros Hs. unfold Set_add. destruct (decide (x ∈ s)) as [Hin|Hin]; [done|].
  apply NoDup_app. split; [done|]. split.
  - intros y Hy ->%list_elem_of_singleton. done.
  - apply NoDup_singleton.
Qed.

Lemma foldl_Set_add_elem xs s y :
  y ∈ foldl Set_add s xs <-> y ∈ s \/ y ∈ xs.
Proof.
  revert s. induction xs as [|x xs IH]; intros s; simpl.
  - rewrite elem_of_nil. tauto.
  - rewrite IH, Set_add_elem, elem_of_cons. tauto.
Qed.

Lemma foldl_Set_add_NoDup xs s : NoDup s -> NoDup (foldl Set_add s xs).
Proof.
  revert s. induction xs as [|x xs IH]; intros s Hs; simpl; [done|].
  by apply IH, Set_add_NoDup.
Qed.

Lemma foldl_addEventPrincipals_elem evs s y :
  y ∈ foldl addEventPrincipals s evs
  <-> y ∈ s \/ y ∈ flat_map (fun ev => truthy (sender ev) ++ truthy (recipient ev)) evs.
Proof.
  revert s. induction evs as [|ev evs IH]; intros s; simpl.
  - rewrite elem_of_nil. tauto.
  - rewrite IH. unfold addEventPrincipals.
    rewrite !foldl_Set_add_elem, !elem_of_app. tauto.
Qed.

Lemma foldl_addEventPrincipals_NoDup evs s :
  NoDup s -> NoDup (foldl addEventPrincipals s evs).
Proof.
  revert s. induction evs as [|ev evs IH]; intros s Hs; simpl; [done|].
  apply IH. unfold addEventPrincipals. by do 2 apply foldl_Set_add_NoDup.
Qed.

Lemma principals_elem entry p :
  p ∈ principals entry <-> p ∈ candidatePrincipals entry.
Proof.
  unfold principals, candidatePrincipals.
  rewrite foldl_addEventPrincipals_elem, foldl_Set_add_elem, elem_of_app.
  rewrite elem_of_nil. tauto.
Qed.

Lemma principals_NoDup entry : NoDup (principals entry).
Proof.
  apply foldl_addEventPrincipals_NoDup, foldl_Set_add_NoDup, NoDup_nil_2.
Qed.

(** *** The key check never fires on a set of distinct principals *)

Lemma foldl_pushPrincipal t ps (keys : gset string) vs :
  NoDup ps ->
  (forall p, p ∈ ps -> contraintKey t p ∉ keys) ->
  foldl (pushPrincipal t) (keys, vs) ps
  = (list_to_set (contraintKey t <$> ps) ∪ keys,
     vs ++ (insertValues t <$> ps)).
Proof.
  intros Hnd. revert keys vs.
  induction Hnd as [|p ps Hp Hnd IH]; intros keys vs Hfresh; simpl.
  - rewrite app_nil_r. f_equal. set_solver.
  - unfold pushPrincipal at 2. cbn [fst snd].
    destruct (decide (contraintKey t p ∈ keys)) as [Hin|_].
    { exfalso. apply (Hfresh p); [left | done]. }
    rewrite IH.
    + f_equal; [set_solver | by rewrite <- app_assoc].
    + intros q Hq [Heq%elem_of_singleton|Hin]%elem_of_union.
      * apply contraintKey_inj in Heq. by subst q.
      * apply (Hfresh q); [by right | done].
Qed.

Lemma processStxEventsState_eq entry :
  processStxEventsState entry
  = (list_to_set (contraintKey (tx entry) <$> principals entry),
     insertValues (tx entry) <$> principals entry).
Proof.
  unfold processStxEventsState.
  rewrite foldl_pushPrincipal.
  - f_equal. set_solver.
  - apply principals_NoDup.
  - intros p _. set_solver.
Qed.

Lemma processStxEvents_eq entry :
  processStxEvents entry = insertValues (tx entry) <$> principals entry.
Proof. unfold processStxEvents. by rewrite processStxEventsState_eq. Qed.

(** *** Counting rows *)

Lemma filter_fmap_length {A B} `{EqDecision B} (f : A -> B) (k : B) (l : list A) :
  length (filter (fun a => f a = k) l) = length (filter (fun b => b = k) (f <$> l)).
Proof.
  induction l as [|a l IH]; [done|].
  rewrite fmap_cons, !filter_cons.
  destruct (decide (f a = k)); simpl; by rewrite IH.
Qed.

Lemma NoDup_count {B} `{EqDecision B} (k : B) (l : list B) :
  NoDup l ->
  length (filter (fun b => b = k) l) = if decide (k ∈ l) then 1 else 0.
Proof.
  induction 1 as [|b l Hb Hnd IH].
  - rewrite decide_False; [done | apply not_elem_of_nil].
  - rewrite filter_cons.
    destruct (decide (b = k)) as [->|Hne]; simpl.
    + rewrite IH, (decide_False (P := k ∈ l)) by done.
      rewrite decide_True; [done | left].
    + rewrite IH. destruct (decide (k ∈ l)) as [Hin|Hin].
      * rewrite decide_True; [done | by right].
      * rewrite decide_False; [done|].
        intros [->|?]%elem_of_cons; done.
Qed.


Lemma keyed_processStxEvents entry k :
  length (filter (fun v => rowKey v = k) (processStxEvents entry))
  = if decide (k ∈ contraintKey (tx entry) <$> candidatePrincipals entry)
    then 1 else 0.
Proof.
  rewrite (filter_fmap_length rowKey k), processStxEvents_eq.
  rewrite <- list_fmap_compose.
  rewrite (list_fmap_ext (rowKey ∘ insertValues (tx entry))
             (contraintKey (tx entry)) (principals entry)) by done.
  rewrite NoDup_count.
  2:{ apply NoDup_fmap_2; [|apply principals_NoDup].
      intros p1 p2. apply contraintKey_inj. }
  destruct (decide (k ∈ contraintKey (tx entry) <$> principals entry))
    as [Hin|Hin].
  - rewrite decide_True; [done|].
    apply list_elem_of_fmap in Hin as (p & -> & Hp).
    apply list_elem_of_fmap. exists p. by rewrite <- principals_elem.
  - rewrite decide_False; [done|].
    intros (p & -> & Hp)%list_elem_of_fmap. apply Hin.
    apply list_elem_of_fmap. exists p. by rewrite principals_elem.
Qed.

End ProcessStxEvents.

(** A token transfer sent by [SP1] whose STX event moves funds from
    [SP1] to [SP2] and whose second STX event pays [SP1] back. *)
Definition exampleTx : DbTx :=
  {| tx_id := "0x01"; index_block_hash := "0xaa"; microblock_hash := "";
     sender_address := "SP1";
     token_transfer_recipient_address := Some "SP2";
     contract_call_contract_id := None;
     smart_contract_contract_id := None;
     block_height := 7; microblock_sequence := 2147483647; tx_index := 0;
     canonical := true; microblock_canonical := true |}.

Definition exampleEntry : @DataStoreTxEventData unitSchema :=
  {| tx := exampleTx;
     stxEvents := [ {| sender := Some "SP1"; recipient := Some "SP2" |};
                    {| sender := Some "SP2"; recipient := Some "SP1" |} ];
     contractLogEvents := []; stxLockEvents := []; ftEvents := [];
     nftEvents := []; smartContracts := []; names := []; namespaces := [] |}.




(** A second transaction of the same block, by the same sender. *)
Definition exampleEntry2 : @DataStoreTxEventData unitSchema :=
  {| tx := {| tx_id := "0x02"; index_block_hash := "0xaa";
              microblock_hash := ""; sender_address := "SP1";
              token_transfer_recipient_address := None;
              contract_call_contract_id := None;
              smart_contract_contract_id := None;
              block_height := 7; microblock_sequence := 2147483647;
              tx_index := 1; canonical := true;
              microblock_canonical := true |};
     stxEvents := [];
     contractLogEvents := []; stxLockEvents := []; ftEvents := [];
     nftEvents := []; smartContracts := []; names := []; namespaces := [] |}.

(** C5, as the data model states it, fails: the key set is created by
    each call of [processStxEvents], so it is scoped to one transaction,
    not to one block.  When the second transaction of a block has been
    processed its key set does not hold the key of the first, which a
    set shared by the block's transactions would; and a block that lists
    the same transaction twice gets the same row twice, where a shared
    set would keep one. *)
Lemma block_scope_counterexample :
  ("SP1,0x01,0xaa," ∈ (blockState_blockScoped [exampleEntry; exampleEntry2]).1)
  /\ ("SP1,0x01,0xaa," ∉ (processStxEventsState exampleEntry2).1)
  /\ (rowKey <$> blockPrincipalRows [exampleEntry; exampleEntry])
     = ["SP1,0x01,0xaa,"; "SP2,0x01,0xaa,"; "SP1,0x01,0xaa,"; "SP2,0x01,0xaa,"]
  /\ (rowKey <$> blockPrincipalRows_blockScoped [exampleEntry; exampleEntry])
     = ["SP1,0x01,0xaa,"; "SP2,0x01,0xaa,"]
  /\ blockPrincipalRows [exampleEntry; exampleEntry]
     <> blockPrincipalRows_blockScoped [exampleEntry; exampleEntry].
Proof.
  split; [apply (bool_decide_unpack _); by vm_compute|].
  split.
  { intros Hin%(bool_decide_pack _). by vm_compute in Hin. }
  split; [by vm_compute|]. split; [by vm_compute|].
  intros Heq. apply (f_equal length) in Heq. vm_compute in Heq.
  discriminate Heq.
Qed.

(** C5 (amended). The dedup key set is scoped to one transaction: each
    call of [processStxEvents] starts from an empty set and ends with
    exactly the keys of that transaction's own candidate principals, and
    no key carries over to the next transaction (hence none to the next
    block): among the rows of a block, a key occurs once for every
    transaction of the block that has it. *)
Theorem dedup_keys_per_transaction {schema : Schema}
    (txs : list DataStoreTxEventData) :
  (forall entry,
     (processStxEventsState entry).1
     = list_to_set (contraintKey (tx entry) <$> candidatePrincipals entry))
  /\ (forall k,
        length (filter (fun v => rowKey v = k) (blockPrincipalRows txs))
        = length (filter (fun entry =>
                            k ∈ contraintKey (tx entry)
                                  <$> candidatePrincipals entry) txs)).
Proof.
  split.
  - intros entry. rewrite processStxEventsState_eq. cbn [fst].
    apply set_eq. intros k. rewrite !elem_of_list_to_set.
    rewrite !list_elem_of_fmap.
    split; intros (p & -> & Hp); exists p; split; try done;
      by apply principals_elem.
  - intros k. unfold blockPrincipalRows.
    induction txs as [|entry txs IH]; [done|].
    cbn [flat_map]. rewrite filter_app, length_app, IH.
    rewrite keyed_processStxEvents, filter_cons.
    by destruct (decide (k ∈ contraintKey (tx entry)
                               <$> candidatePrincipals entry)).
Qed.

(** X5. The key check of the local [push] never rejects a principal:
    the principals it is given are the members of a set, and two
    principals of one transaction never have the same key.  So a
    transaction gets as many rows as it has distinct candidate
    principals, and as many keys are recorded as rows are pushed. *)
Theorem key_check_never_rejects {schema : Schema}
    (entry : DataStoreTxEventData) :
  (forall p1 p2,
     contraintKey (tx entry) p1 = contraintKey (tx entry) p2 -> p1 = p2)
  /\ length (processStxEvents entry)
     = size (list_to_set (candidatePrincipals entry) : gset string)
  /\ size (processStxEventsState entry).1 = length (processStxEvents entry).
Proof.
  split; [intros p1 p2; apply contraintKey_inj|].
  assert (Hset : (list_to_set (candidatePrincipals entry) : gset string)
                 = list_to_set (principals entry)).
  { apply set_eq. intros p. rewrite !elem_of_list_to_set.
    symmetry. apply principals_elem. }
  unfold processStxEvents. rewrite processStxEventsState_eq. cbn [fst snd].
  rewrite Hset, !size_list_to_set, !length_fmap; [done | |].
  - apply NoDup_fmap_2; [|apply principals_NoDup].
    intros p1 p2. apply contraintKey_inj.
  - apply principals_NoDup.
Qed.

End Principals.

(** ** Progress reporting

    Every phase ends the body of its record loop with the same check:

    [if ((readLineCount / tsvLineCount) * 100 > lastStatusUpdatePercent + 20)
       { lastStatusUpdatePercent = Math.floor(...); logger.info(...) }]

    The numbers of the source are IEEE 754 binary64 values.  They are
    the [spec_float]s of the standard library, with its division,
    multiplication and addition at precision 53 and exponent bound 1024
    (round to nearest, ties to even).  The comparison is exact on the
    values, as IEEE 754 has it; on the numbers of the format it is the
    [SFcompare] of the standard library ([gt_SFltb] below). *)

Module Progress.

(** *** The numbers of the source *)

Definition Number : Type := spec_float.

Definition prec : Z := 53.
Definition emax : Z := 1024.

(** An integer literal, or an integer-valued variable, as a number. *)
Definition ofZ (n : Z) : Number := binary_normalize prec emax n 0 false.

Definition div : Number -> Number -> Number := SFdiv prec emax.
Definition mul : Number -> Number -> Number := SFmul prec emax.
Definition add : Number -> Number -> Number := SFadd prec emax.

(** The zeros and the finite non-zero numbers. *)
Definition isFinite (x : Number) : bool :=
  match x with
  | S754_zero _ | S754_finite _ _ _ => true
  | _ => false
  end.

(** The value of a finite number, [(-1)^s * m * 2^e]. *)
Definition value (x : Number) : Q :=
  match x with
  | S754_finite s m e => (inject_Z (cond_Zopp s (Zpos m)) * 2 ^ e)%Q
  | _ => 0%Q
  end.

(** The comparison of IEEE 754: exact on the values, with the infinities
    at the ends, both zeros equal, and no order when an operand is
    NaN. *)
Definition compareNumbers (x y : Number) : option comparison :=
  match x, y with
  | S754_nan, _ | _, S754_nan => None
  | S754_infinity sx, S754_infinity sy =>
      Some match sx, sy with
           | true, false => Lt
           | false, true => Gt
           | _, _ => Eq
           end
  | S754_infinity sx, _ => Some (if sx then Lt else Gt)
  | _, S754_infinity sy => Some (if sy then Gt else Lt)
  | _, _ => Some (value x ?= value y)%Q
  end.

(** [x > y] *)
Definition gt (x y : Number) : bool :=
  match compareNumbers x y with
  | Some Gt => true
  | _ => false
  end.

(** [x >= y] *)
Definition ge (x y : Number) : bool :=
  match compareNumbers x y with
  | Some (Gt | Eq) => true
  | _ => false
  end.

(** [Math.floor(x)]: the largest integer not above a finite [x]; zeros,
    infinities and NaN are returned as they are. *)
Definition floor (x : Number) : Number :=
  match x with
  | S754_finite _ _ _ => ofZ (Qfloor (value x))
  | _ => x
  end.

(** [(readLineCount / tsvLineCount) * 100] *)
Definition percent (readLineCount tsvLineCount : Z) : Number :=
  mul (div (ofZ readLineCount) (ofZ tsvLineCount)) (ofZ 100).

(** The local [lastStatusUpdatePercent] and the percentages logged so
    far, oldest first. *)
Record Status := mkStatus {
  lastStatusUpdatePercent : Number;
  logged : list Number
}.

Definition initialStatus : Status :=
  {| lastStatusUpdatePercent := ofZ 0; logged := [] |}.

Definition statusUpdate (st : Status) (p : Number) : Status :=
  if gt p (add (lastStatusUpdatePercent st) (ofZ 20)) then
    {| lastStatusUpdatePercent := floor p;
       logged := logged st ++ [floor p] |}
  else st.

Definition statusLoop (st : Status) (ps : list Number) : Status :=
  foldl statusUpdate st ps.

(** The status after a phase has processed records with the given
    [readLineCount]s, in stream order. *)
Definition progressStatus (tsvLineCount : Z) (readLineCounts : list Z)
  : Status :=
  statusLoop initialStatus
             ((fun r => percent r tsvLineCount) <$> readLineCounts).

Definition progressLog (tsvLineCount : Z) (readLineCounts : list Z)
  : list Number :=
  logged (progressStatus tsvLineCount readLineCounts).

(** The specification's reading: one entry per 20-point boundary that
    the progress has crossed.  [boundariesReached] counts a boundary as
    crossed once the percentage is at least the boundary,
    [boundariesExceeded] once it is strictly above. *)
Definition boundaries : list Z := [20; 40; 60; 80; 100]%Z.

Definition boundariesReached (p : Number) : list Z :=
  filter (fun b => ge p (ofZ b) = true) boundaries.

Definition boundariesExceeded (p : Number) : list Z :=
  filter (fun b => gt p (ofZ b) = true) boundaries.

(** Successive entries are at least 20 points apart, starting from
    [prev]. *)
Fixpoint spaced20 (prev : Z) (logs : list Z) : Prop :=
  match logs with
  | [] => True
  | l :: logs' => (prev + 20 <= l)%Z /\ spaced20 l logs'
  end.

(** A percentage that is not above 100 (NaN is not). *)
Definition atMost100 (p : Number) : Prop := gt p (ofZ 100) = false.

(** *** Some values *)

(** 11 lines of 20 are 55.000000000000007 percent, 29 of 100 are
    28.999999999999996 percent. *)
Example percent_rounds :
  percent 7 20 = ofZ 35
  /\ gt (percent 11 20) (ofZ 55) = true
  /\ floor (percent 11 20) = ofZ 55
  /\ gt (ofZ 29) (percent 29 100) = true
  /\ floor (percent 29 100) = ofZ 28.
Proof. repeat split; by vm_compute. Qed.

Example progressLog_rounds :
  progressLog 20 [7; 11]%Z = [ofZ 35; ofZ 55]
  /\ progressLog 100 [29]%Z = [ofZ 28].
Proof. split; by vm_compute. Qed.

(** Division by zero gives an infinity or NaN, and no exception: an
    infinite percentage is logged once, NaN never. *)
Example progressLog_no_lines :
  progressLog 0 [1; 2; 3]%Z = [S754_infinity false]
  /\ progressLog 0 [0; 0]%Z = [].
Proof. split; by vm_compute. Qed.

(** *** Small integers are exact *)

#[local] Instance Number_eq_dec : EqDecision Number.
Proof. solve_decision. Defined.

Lemma range_check (P : Z -> bool) (a len : Z) :
  forallb P (seqZ a len) = true ->
  forall k, (a <= k < a + len)%Z -> P k = true.
Proof.
  intros Hall k Hk. rewrite forallb_forall in Hall. apply Hall.
  apply list_elem_of_In, elem_of_seqZ. lia.
Qed.

Lemma ofZ_small k :
  (0 <= k <= 120)%Z ->
  isFinite (ofZ k) = true /\ (value (ofZ k) == inject_Z k)%Q.
Proof.
  intros Hk.
  pose proof (range_check
                (fun k => isFinite (ofZ k)
                          && Qeq_bool (value (ofZ k)) (inject_Z k))
                0 121 ltac:(by vm_compute) k ltac:(lia)) as H.
  apply andb_prop in H as [H1 H2]. split; [done|]. by apply Qeq_bool_iff.
Qed.

(** [lastStatusUpdatePercent + 20] is exact up to 100. *)
Lemma add_20 n : (0 <= n <= 100)%Z -> add (ofZ n) (ofZ 20) = ofZ (n + 20).
Proof.
  intros Hn.
  pose proof (range_check
                (fun n => bool_decide (add (ofZ n) (ofZ 20) = ofZ (n + 20)))
                0 101 ltac:(by vm_compute) n ltac:(lia)) as H.
  by apply bool_decide_eq_true in H.
Qed.

(** *** The comparison *)

Lemma gt_true p c :
  isFinite c = true -> gt p c = true ->
  p = S754_infinity false \/ (isFinite p = true /\ (value c < value p)%Q).
Proof.
  unfold gt, compareNumbers.
  destruct p as [sp|[|]| |sp mp ep], c as [sc|sc| |sc mc ec];
    try done; try (by left); intros _ H; right; (split; [done|]);
    apply Qgt_alt;
    match goal with |- ?c = Gt => by destruct c end.
Qed.

Lemma gt_false p c :
  isFinite c = true -> isFinite p = true -> gt p c = false ->
  (value p <= value c)%Q.
Proof.
  unfold gt, compareNumbers.
  destruct p as [sp|sp| |sp mp ep], c as [sc|sc| |sc mc ec];
    try done; intros _ _ H; apply Qle_alt; intros Hgt; by rewrite Hgt in H.
Qed.

Lemma gt_false_intro p c :
  isFinite c = true -> isFinite p = true -> (value p <= value c)%Q ->
  gt p c = false.
Proof.
  unfold gt, compareNumbers.
  destruct p as [sp|sp| |sp mp ep], c as [sc|sc| |sc mc ec];
    try done; intros _ _ H%Qle_alt; simpl in *;
    destruct (Qcompare _ _) eqn:E; done.
Qed.

Lemma floor_positive p :
  isFinite p = true -> (0 < value p)%Q -> floor p = ofZ (Qfloor (value p)).
Proof. by destruct p. Qed.

(** *** One run of the check *)

(** With [lastStatusUpdatePercent] an integer from 0 to 100 and a
    percentage up to 100, the check either writes nothing, and then the
    percentage is not above [lastStatusUpdatePercent + 20], or it writes
    the integer part of the percentage, which is at least
    [lastStatusUpdatePercent + 20]. *)
Lemma statusUpdate_step st p n :
  lastStatusUpdatePercent st = ofZ n -> (0 <= n <= 100)%Z -> atMost100 p ->
  (statusUpdate st p = st /\ gt p (ofZ (n + 20)) = false)
  \/ (let l := Qfloor (value p) in
      (n + 20 <= l <= 100)%Z /\ (n + 20 < 100)%Z
      /\ isFinite p = true
      /\ statusUpdate st p
         = {| lastStatusUpdatePercent := ofZ l;
              logged := logged st ++ [ofZ l] |}
      /\ gt p (ofZ (l + 20)) = false).
Proof.
  intros Hlast Hn Hp. unfold statusUpdate. rewrite Hlast, add_20 by done.
  destruct (gt p (ofZ (n + 20))) eqn:E; [right | by left].
  destruct (ofZ_small (n + 20)) as [Hf Hv]; [lia|].
  destruct (gt_true _ _ Hf E) as [->|[Hpf Hlt]]; [by vm_compute in Hp|].
  destruct (ofZ_small 100) as [Hf100 Hv100]; [lia|].
  pose proof (gt_false _ _ Hf100 Hpf Hp) as Hle.
  rewrite Hv in Hlt. rewrite Hv100 in Hle. cbv zeta.
  assert (H1 : (n + 20 <= Qfloor (value p))%Z).
  { rewrite <- (Qfloor_Z (n + 20)). apply Qfloor_resp_le.
    by apply Qlt_le_weak. }
  assert (H2 : (Qfloor (value p) <= 100)%Z).
  { rewrite <- (Qfloor_Z 100). by apply Qfloor_resp_le. }
  assert (H3 : (n + 20 < 100)%Z).
  { rewrite Zlt_Qlt. eapply Qlt_le_trans; [exact Hlt | exact Hle]. }
  assert (Hpos : (0 < value p)%Q).
  { eapply Qle_lt_trans; [|exact Hlt].
    change 0%Q with (inject_Z 0). rewrite <- Zle_Qle. lia. }
  split; [lia|]. split; [done|]. split; [done|].
  rewrite floor_positive by done. split; [done|].
  destruct (ofZ_small (Qfloor (value p) + 20)) as [Hfl Hvl]; [lia|].
  apply gt_false_intro; [done | done |]. rewrite Hvl.
  pose proof (Qlt_floor (value p)) as Hlt1.
  rewrite inject_Z_plus in *.
  change (inject_Z 1) with 1%Q in Hlt1. change (inject_Z 20) with 20%Q.
  set (f := inject_Z (Qfloor (value p))) in *. lra.
Qed.

Lemma last_cons_default (x d : Z) (l : list Z) :
  List.last (x :: l) d = List.last l x.
Proof.
  revert x d. induction l as [|y l IH]; intros x d; [done|].
  change (List.last (x :: y :: l) d) with (List.last (y :: l) d).
  by rewrite !IH.
Qed.

Lemma spaced20_snoc prev logs l :
  spaced20 prev logs ->
  (List.last logs prev + 20 <= l)%Z ->
  spaced20 prev (logs ++ [l]).
Proof.
  revert prev. induction logs as [|x logs IH]; intros prev Hs Hl.
  - simpl in *. done.
  - destruct Hs as [Hx Hs]. split; [done|].
    apply IH; [done|]. by rewrite <- (last_cons_default x prev).
Qed.

(** *** The loop *)

(** The loop invariant, for percentages up to 100:
    [lastStatusUpdatePercent] is an integer [n] from 0 to 100, the
    entries logged are integers from 20 to 100, at least 20 apart, the
    last of them is [n], and there are at most four. *)
Definition wholeStatus (st : Status) (n : Z) (ns : list Z) : Prop :=
  lastStatusUpdatePercent st = ofZ n
  /\ logged st = ofZ <$> ns
  /\ (0 <= n <= 100)%Z
  /\ spaced20 0 ns
  /\ List.last ns 0%Z = n
  /\ Forall (fun l => (20 <= l <= 100)%Z) ns
  /\ (20 * Z.of_nat (length ns) <= n)%Z
  /\ length ns <= 4.

Lemma wholeStatus_initial : wholeStatus initialStatus 0 [].
Proof. repeat split; simpl; try done; lia. Qed.

Lemma statusUpdate_whole st p n ns :
  wholeStatus st n ns -> atMost100 p ->
  exists n' ns',
    wholeStatus (statusUpdate st p) n' ns'
    /\ gt p (ofZ (n' + 20)) = false
    /\ ((n' = n /\ ns' = ns)
        \/ (n' = Qfloor (value p) /\ ns' = ns ++ [n'] /\ isFinite p = true)).
Proof.
  intros Hst Hp. pose proof Hst as (Hlast & Hlog & Hn & Hsp & Hl & Hr & Hb & Hlen).
  destruct (statusUpdate_step st p n Hlast Hn Hp)
    as [[-> Hskip]|(Hl1 & Hl2 & Hpf & -> & Hbehind)].
  - exists n, ns. split; [exact Hst|]. split; [done | by left].
  - set (l := Qfloor (value p)) in *. exists l, (ns ++ [l]).
    split; [|split; [done | by right]].
    split; [done|]. split; [by rewrite Hlog, fmap_app|].
    split; [lia|]. split; [apply spaced20_snoc; [done | lia]|].
    split; [apply last_last|].
    split; [apply Forall_app; split; [done|]; constructor; [lia | done]|].
    rewrite length_app. simpl. lia.
Qed.

Lemma statusLoop_snoc st ps p :
  statusLoop st (ps ++ [p]) = statusUpdate (statusLoop st ps) p.
Proof. unfold statusLoop. by rewrite foldl_app. Qed.

Lemma statusLoop_whole ps st n ns :
  wholeStatus st n ns -> Forall atMost100 ps ->
  exists n' ns', wholeStatus (statusLoop st ps) n' ns'.
Proof.
  intros Hst Hps. revert st n ns Hst. unfold statusLoop.
  induction Hps as [|p ps Hp _ IH]; intros st n ns Hst; simpl.
  - by exists n, ns.
  - destruct (statusUpdate_whole st p n ns Hst Hp) as (n1 & ns1 & H1 & _).
    by apply (IH _ n1 ns1).
Qed.

Lemma progressStatus_whole tsvLineCount readLineCounts :
  Forall (fun r => atMost100 (percent r tsvLineCount)) readLineCounts ->
  exists n ns, wholeStatus (progressStatus tsvLineCount readLineCounts) n ns.
Proof.
  intros Hrs. apply (statusLoop_whole _ _ 0 []); [apply wholeStatus_initial|].
  by apply Forall_fmap.
Qed.

(** After the check the progress not yet reported is at most 20
    points. *)
Lemma progressStatus_behind tsvLineCount pre r :
  Forall (fun r => atMost100 (percent r tsvLineCount)) (pre ++ [r]) ->
  gt (percent r tsvLineCount)
     (add (lastStatusUpdatePercent (progressStatus tsvLineCount (pre ++ [r])))
          (ofZ 20)) = false.
Proof.
  intros [Hpre Hr]%Forall_app. rewrite Forall_singleton in Hr.
  destruct (progressStatus_whole tsvLineCount pre Hpre) as (n & ns & Hst).
  unfold progressStatus in *. rewrite fmap_app. simpl.
  rewrite statusLoop_snoc.
  destruct (statusUpdate_whole _ _ n ns Hst Hr)
    as (n' & ns' & (Hlast & _ & Hn' & _) & Hbehind & _).
  by rewrite Hlast, add_20.
Qed.

(** The entries logged so far do not influence the check. *)
Lemma statusUpdate_frame l logs p :
  statusUpdate (mkStatus l logs) p
  = mkStatus (lastStatusUpdatePercent (statusUpdate (mkStatus l []) p))
             (logs ++ logged (statusUpdate (mkStatus l []) p)).
Proof.
  unfold statusUpdate. simpl.
  destruct (gt _ _); simpl; [done | by rewrite app_nil_r].
Qed.

Lemma statusLoop_frame ps l logs :
  statusLoop (mkStatus l logs) ps
  = mkStatus (lastStatusUpdatePercent (statusLoop (mkStatus l []) ps))
             (logs ++ logged (statusLoop (mkStatus l []) ps)).
Proof.
  revert l logs. unfold statusLoop.
  induction ps as [|p ps IH]; intros l logs; simpl.
  - by rewrite app_nil_r.
  - rewrite (statusUpdate_frame l logs). rewrite IH.
    rewrite (statusUpdate_frame l []), (IH _ ([] ++ _)). simpl.
    by rewrite app_assoc.
Qed.

Lemma statusLoop_cons l p ps :
  let st1 := statusUpdate (mkStatus l []) p in
  let st2 := statusLoop (mkStatus (lastStatusUpdatePercent st1) []) ps in
  statusLoop (mkStatus l []) (p :: ps)
  = mkStatus (lastStatusUpdatePercent st2) (logged st1 ++ logged st2).
Proof.
  cbv zeta. unfold statusLoop at 1. simpl. fold (statusLoop (statusUpdate (mkStatus l []) p) ps).
  destruct (statusUpdate (mkStatus l []) p) as [l1 logs1] eqn:E. simpl.
  apply statusLoop_frame.
Qed.

(** A log of five lines read one line per record passes 20, 40, 60, 80
    and 100 percent exactly: the check logs at 40 and at 80 only.  A log
    of four lines read as two records of two lines each reaches 50
    percent and then 100 percent: the check logs twice, although all
    five boundaries have been reached and four of them exceeded. *)
Example progressLog_unit_records :
  progressLog 5 [1; 2; 3; 4; 5]%Z = ofZ <$> [40; 80]%Z.
Proof. by vm_compute. Qed.

Example progressLog_coarse_records :
  progressLog 4 [2; 4]%Z = ofZ <$> [50; 100]%Z
  /\ boundariesReached (percent 4 4) = [20; 40; 60; 80; 100]%Z
  /\ boundariesExceeded (percent 4 4) = [20; 40; 60; 80]%Z.
Proof. repeat split; by vm_compute. Qed.

(** *** The last line *)

(** A finite non-zero number divided by itself is 1. *)
Lemma div_self s m e :
  div (S754_finite s m e) (S754_finite s m e) = ofZ 1.
Proof.
  unfold div, SFdiv, SFdiv_core_binary.
  replace (Zdigits2 (Z.pos m) + e - (Zdigits2 (Z.pos m) + e))%Z with 0%Z by lia.
  replace (e - e)%Z with 0%Z by lia.
  change (Z.min (fexp prec emax 0) 0) with (-53)%Z.
  change (0 - -53)%Z with 53%Z. cbv iota.
  rewrite Z.shiftl_mul_pow2 by lia.
  assert (Hd : Z.div_eucl (Z.pos m * 2 ^ 53) (Z.pos m) = (2 ^ 53, 0)%Z).
  { pose proof (Z.div_mul (2 ^ 53) (Z.pos m) ltac:(lia)) as Hq.
    pose proof (Z.mod_mul (2 ^ 53) (Z.pos m) ltac:(lia)) as Hr.
    unfold Z.div, Z.modulo in Hq, Hr. rewrite Z.mul_comm.
    destruct (Z.div_eucl (2 ^ 53 * Z.pos m) (Z.pos m)) as [q r].
    by rewrite Hq, Hr. }
  rewrite Hd.
  assert (Hloc : new_location (Z.pos m) 0 = loc_Exact).
  { unfold new_location. by destruct (Z.even (Z.pos m)). }
  rewrite Hloc. by destruct s.
Qed.

Lemma percent_full t s m e :
  ofZ t = S754_finite s m e -> percent t t = ofZ 100.
Proof. intros Ht. unfold percent. by rewrite Ht, div_self. Qed.

(** *** Integers below 2^53 *)

Lemma digits2_pos_lower m : (2 ^ (Z.pos (digits2_pos m) - 1) <= Z.pos m)%Z.
Proof.
  induction m as [m IH|m IH|]; simpl digits2_pos; [| |done].
  - rewrite Pos2Z.inj_succ.
    replace (Z.succ (Z.pos (digits2_pos m)) - 1)%Z
      with (Z.succ (Z.pos (digits2_pos m) - 1)) by lia.
    rewrite Z.pow_succ_r by lia. lia.
  - rewrite Pos2Z.inj_succ.
    replace (Z.succ (Z.pos (digits2_pos m)) - 1)%Z
      with (Z.succ (Z.pos (digits2_pos m) - 1)) by lia.
    rewrite Z.pow_succ_r by lia. lia.
Qed.

Lemma digits2_pos_iter m k :
  Z.pos (digits2_pos (Pos.iter xO m k)) = (Z.pos (digits2_pos m) + Z.pos k)%Z.
Proof.
  induction k as [|k IH] using Pos.peano_ind.
  - simpl. lia.
  - rewrite Pos.iter_succ. simpl digits2_pos. lia.
Qed.

(** A mantissa of 53 digits with an exponent in range is not rounded. *)
Lemma binary_round_aux_exact m e :
  Z.pos (digits2_pos m) = 53%Z -> (-1074 <= e <= 971)%Z ->
  binary_round_aux prec emax false (Z.pos m) e loc_Exact
  = S754_finite false m e.
Proof.
  intros Hd He. unfold binary_round_aux, shr_fexp, fexp. simpl Zdigits2.
  rewrite Hd.
  replace (Z.max (53 + e - prec) (emin prec emax) - e)%Z with 0%Z
    by (unfold prec, emin, emax; lia).
  simpl. rewrite Hd.
  replace (Z.max (53 + e - prec) (emin prec emax) - e)%Z with 0%Z
    by (unfold prec, emin, emax; lia).
  simpl. unfold prec, emax.
  by replace (e <=? 1024 - 53)%Z with true by (symmetry; apply Z.leb_le; lia).
Qed.

(** A positive integer below 2^53 is a finite number. *)
Lemma ofZ_finite t :
  (0 < t < 2 ^ 53)%Z -> exists m e, ofZ t = S754_finite false m e.
Proof.
  destruct t as [|m|m]; [lia | | lia]. intros [_ Hm].
  assert (Hd : (Z.pos (digits2_pos m) <= 53)%Z).
  { pose proof (digits2_pos_lower m) as Hlow.
    destruct (decide (Z.pos (digits2_pos m) <= 53)%Z) as [|Hgt]; [done|].
    assert (2 ^ 53 <= 2 ^ (Z.pos (digits2_pos m) - 1))%Z
      by (apply Z.pow_le_mono_r; lia).
    lia. }
  unfold ofZ, binary_normalize, binary_round, shl_align, fexp.
  replace (Z.max (Z.pos (digits2_pos m) + 0 - prec) (emin prec emax) - 0)%Z
    with (Z.pos (digits2_pos m) - 53)%Z
    by (unfold prec, emin, emax; lia).
  replace (Z.max (Z.pos (digits2_pos m) + 0 - prec) (emin prec emax))%Z
    with (Z.pos (digits2_pos m) - 53)%Z
    by (unfold prec, emin, emax; lia).
  destruct (Z.pos (digits2_pos m) - 53)%Z as [|k|k] eqn:Hk; [|lia|].
  - eexists _, _. apply binary_round_aux_exact; lia.
  - eexists _, _. apply binary_round_aux_exact; [|lia].
    rewrite digits2_pos_iter. lia.
Qed.

(** *** Rounding never passes a number that can be represented *)

Lemma digits2_pos_upper m : (Z.pos m < 2 ^ Z.pos (digits2_pos m))%Z.
Proof.
  induction m as [m IH|m IH|]; simpl digits2_pos; [| |done].
  - rewrite Pos2Z.inj_succ, Z.pow_succ_r by lia. lia.
  - rewrite Pos2Z.inj_succ, Z.pow_succ_r by lia. lia.
Qed.

Lemma Zdigits2_le m k :
  (0 <= m < 2 ^ k)%Z -> (0 <= k)%Z -> (Zdigits2 m <= k)%Z.
Proof.
  intros [Hm Hlt] Hk. destruct m as [|m|m]; [simpl; lia | | lia].
  simpl. pose proof (digits2_pos_lower m) as Hlow.
  destruct (decide (Z.pos (digits2_pos m) <= k)%Z) as [|Hgt]; [done|].
  assert (2 ^ k <= 2 ^ (Z.pos (digits2_pos m) - 1))%Z
    by (apply Z.pow_le_mono_r; lia).
  lia.
Qed.

Lemma shr_1_m mrs :
  (0 <= shr_m mrs)%Z -> shr_m (shr_1 mrs) = (shr_m mrs / 2)%Z.
Proof.
  destruct mrs as [m r s]. simpl.
  destruct m as [|[p|p|]|p]; simpl; intros Hm; try lia;
    Z.div_mod_to_equations; lia.
Qed.

Lemma iter_shr_m n mrs :
  (0 <= shr_m mrs)%Z ->
  shr_m (iter_pos shr_1 n mrs) = (shr_m mrs / 2 ^ Z.pos n)%Z.
Proof.
  revert mrs. induction n as [n IH|n IH|]; intros mrs Hm; simpl iter_pos.
  - assert (H1 : (0 <= shr_m (shr_1 mrs))%Z)
      by (rewrite shr_1_m by done; apply Z.div_pos; lia).
    assert (H2 : (0 <= shr_m (iter_pos shr_1 n (shr_1 mrs)))%Z)
      by (rewrite IH by done; apply Z.div_pos; lia).
    rewrite !IH, shr_1_m by done.
    rewrite !Z.div_div by lia. f_equal.
    replace (Z.pos n~1) with (1 + Z.pos n + Z.pos n)%Z by lia.
    rewrite !Z.pow_add_r by lia. ring.
  - assert (H2 : (0 <= shr_m (iter_pos shr_1 n mrs))%Z)
      by (rewrite IH by done; apply Z.div_pos; lia).
    rewrite !IH by done.
    rewrite !Z.div_div by lia. f_equal.
    replace (Z.pos n~0) with (Z.pos n + Z.pos n)%Z by lia.
    by rewrite !Z.pow_add_r by lia.
  - rewrite shr_1_m by done. by rewrite Z.pow_1_r.
Qed.

Lemma shr_shift mrs e n :
  (0 <= shr_m mrs)%Z ->
  shr_m (shr mrs e n).1 = (shr_m mrs / 2 ^ Z.max 0 n)%Z
  /\ (shr mrs e n).2 = (e + Z.max 0 n)%Z.
Proof.
  intros Hm. destruct n as [|n|n]; simpl.
  - by rewrite Z.div_1_r, Z.add_0_r.
  - split; [by apply iter_shr_m | done].
  - by rewrite Z.div_1_r, Z.add_0_r.
Qed.

Lemma shr_record_of_loc_m m l : shr_m (shr_record_of_loc m l) = m.
Proof. by destruct l as [|[| |]]. Qed.

Lemma round_nearest_even_bounds m l :
  (m <= round_nearest_even m l <= m + 1)%Z.
Proof. destruct l as [|[| |]]; simpl; try lia. destruct (Z.even m); lia. Qed.

(** Rounding a value below [c * 2^(ex + E)], with [c] an integer of at
    most 53 digits: the result is a zero or a finite number that is not
    above this bound. *)
Lemma binary_round_aux_below mx ex lx c E :
  (0 <= mx)%Z -> (0 < c < 2 ^ 53)%Z -> (0 <= E)%Z ->
  (-1074 <= ex)%Z -> (ex + E <= 971)%Z ->
  (mx < c * 2 ^ E)%Z ->
  binary_round_aux prec emax false mx ex lx = S754_zero false
  \/ exists m e,
       binary_round_aux prec emax false mx ex lx = S754_finite false m e
       /\ (ex <= e <= ex + E)%Z
       /\ (Z.pos m <= c * 2 ^ (ex + E - e))%Z.
Proof.
  intros Hmx Hc HE Hex Hmax Hlt.
  unfold binary_round_aux, shr_fexp.
  set (n1 := (fexp prec emax (Zdigits2 mx + ex) - ex)%Z).
  destruct (shr_shift (shr_record_of_loc mx lx) ex n1) as [Hm1 He1];
    [by rewrite shr_record_of_loc_m|].
  rewrite shr_record_of_loc_m in Hm1.
  destruct (shr (shr_record_of_loc mx lx) ex n1) as [mrs1 e1].
  cbn [fst snd] in Hm1, He1.
  set (N1 := Z.max 0 n1) in *.
  assert (Hpow : forall a b, (0 <= a)%Z -> (0 <= b)%Z ->
                             (2 ^ (a + b) = 2 ^ a * 2 ^ b)%Z)
    by (intros; by rewrite Z.pow_add_r).
  assert (Hd : (Zdigits2 mx <= 53 + E)%Z).
  { apply Zdigits2_le; [|lia]. split; [done|].
    rewrite Hpow by lia. pose proof (Z.pow_pos_nonneg 2 E). nia. }
  assert (HN1 : (0 <= N1 <= E)%Z)
    by (subst N1 n1; unfold fexp, emin, prec, emax; lia).
  set (m1 := round_nearest_even (shr_m mrs1) (loc_of_shr_record mrs1)).
  assert (Hdiv1 : (0 <= shr_m mrs1 < c * 2 ^ (E - N1))%Z).
  { rewrite Hm1. split; [apply Z.div_pos; lia|].
    apply Z.div_lt_upper_bound; [lia|].
    replace (2 ^ N1 * (c * 2 ^ (E - N1)))%Z with (c * 2 ^ E)%Z; [done|].
    replace E with ((E - N1) + N1)%Z at 1 by lia.
    rewrite Hpow by lia. ring. }
  assert (Hm1' : (0 <= m1 <= c * 2 ^ (E - N1))%Z).
  { pose proof (round_nearest_even_bounds (shr_m mrs1)
                  (loc_of_shr_record mrs1)). subst m1. lia. }
  set (n2 := (fexp prec emax (Zdigits2 m1 + e1) - e1)%Z).
  destruct (shr_shift (shr_record_of_loc m1 loc_Exact) e1 n2) as [Hm2 He2];
    [by rewrite shr_record_of_loc_m; lia|].
  rewrite shr_record_of_loc_m in Hm2.
  destruct (shr (shr_record_of_loc m1 loc_Exact) e1 n2) as [mrs2 e2].
  cbn [fst snd] in Hm2, He2.
  set (N2 := Z.max 0 n2) in *.
  assert (Hd1 : (Zdigits2 m1 <= 53 + (E - N1))%Z).
  { apply Zdigits2_le; [|lia]. split; [lia|].
    rewrite Hpow by lia. pose proof (Z.pow_pos_nonneg 2 (E - N1)). nia. }
  assert (HN2 : (0 <= N2 <= E - N1)%Z)
    by (subst N2 n2; unfold fexp, emin, prec, emax; lia).
  assert (Hdiv2 : (0 <= shr_m mrs2 <= c * 2 ^ (E - N1 - N2))%Z).
  { rewrite Hm2. split; [apply Z.div_pos; lia|].
    apply Z.div_le_upper_bound; [lia|].
    replace (2 ^ N2 * (c * 2 ^ (E - N1 - N2)))%Z with (c * 2 ^ (E - N1))%Z;
      [lia|].
    replace (E - N1)%Z with ((E - N1 - N2) + N2)%Z at 1 by lia.
    rewrite Hpow by lia. ring. }
  destruct (shr_m mrs2) as [|m|m]; [by left | | exfalso; clear -Hdiv2; lia].
  right. exists m, e2.
  replace (e2 <=? emax - prec)%Z with true
    by (symmetry; apply Z.leb_le; unfold emax, prec; lia).
  split; [done|]. split; [lia|].
  replace (ex + E - e2)%Z with (E - N1 - N2)%Z by lia. lia.
Qed.

Lemma iter_xO m k : Z.pos (Pos.iter xO m k) = (Z.pos m * 2 ^ Z.pos k)%Z.
Proof.
  induction k as [|k IH] using Pos.peano_ind.
  - simpl. lia.
  - rewrite Pos.iter_succ, Pos2Z.inj_xO, IH, Pos2Z.inj_succ, Z.pow_succ_r by lia.
    ring.
Qed.

(** A positive integer below 2^53 is represented exactly, with a
    mantissa of 53 digits. *)
Lemma ofZ_exact t :
  (0 < t < 2 ^ 53)%Z ->
  exists m e,
    ofZ t = S754_finite false m e
    /\ Z.pos (digits2_pos m) = 53%Z
    /\ (-52 <= e <= 0)%Z
    /\ Z.pos m = (t * 2 ^ (- e))%Z.
Proof.
  destruct t as [|m|m]; [lia | | lia]. intros [_ Hm].
  assert (Hd : (Z.pos (digits2_pos m) <= 53)%Z)
    by (apply (Zdigits2_le (Z.pos m)); lia).
  unfold ofZ, binary_normalize, binary_round, shl_align, fexp.
  replace (Z.max (Z.pos (digits2_pos m) + 0 - prec) (emin prec emax) - 0)%Z
    with (Z.pos (digits2_pos m) - 53)%Z
    by (unfold prec, emin, emax; lia).
  replace (Z.max (Z.pos (digits2_pos m) + 0 - prec) (emin prec emax))%Z
    with (Z.pos (digits2_pos m) - 53)%Z
    by (unfold prec, emin, emax; lia).
  destruct (Z.pos (digits2_pos m) - 53)%Z as [|k|k] eqn:Hk; [|lia|].
  - exists m, 0%Z. rewrite binary_round_aux_exact by lia.
    split; [done|]. split; [lia|]. split; [lia|]. simpl. lia.
  - exists (Pos.iter xO m k), (Z.neg k).
    assert (Hdk : Z.pos (digits2_pos (Pos.iter xO m k)) = 53%Z)
      by (rewrite digits2_pos_iter; lia).
    rewrite binary_round_aux_exact by lia.
    split; [done|]. split; [done|]. split; [lia|].
    rewrite iter_xO. by replace (- Z.neg k)%Z with (Z.pos k) by lia.
Qed.

(** The quotient of two such numbers, the first below the second, is
    not above 1. *)
Lemma div_below mx ex my ey :
  Z.pos (digits2_pos mx) = 53%Z -> Z.pos (digits2_pos my) = 53%Z ->
  (-52 <= ex <= 0)%Z -> (-52 <= ey <= 0)%Z ->
  (Z.pos mx * 2 ^ (- ey) < Z.pos my * 2 ^ (- ex))%Z ->
  div (S754_finite false mx ex) (S754_finite false my ey) = S754_zero false
  \/ exists m e,
       div (S754_finite false mx ex) (S754_finite false my ey)
       = S754_finite false m e
       /\ (-105 <= e <= 0)%Z
       /\ (Z.pos m <= 2 ^ (- e))%Z.
Proof.
  intros Hdx Hdy Hex Hey Hlt. unfold div, SFdiv, SFdiv_core_binary.
  simpl Zdigits2. rewrite Hdx, Hdy.
  set (E := (53 + ey - ex)%Z).
  replace (Z.min (fexp prec emax (53 + ex - (53 + ey))) (ex - ey))%Z
    with (- E)%Z by (unfold fexp, emin, prec, emax; lia).
  replace (ex - ey - - E)%Z with 53%Z by lia. cbv iota.
  rewrite Z.shiftl_mul_pow2 by lia.
  assert (Hq : (0 <= Z.pos mx * 2 ^ 53 / Z.pos my < 1 * 2 ^ E)%Z).
  { split; [apply Z.div_pos; lia|].
    apply Z.div_lt_upper_bound; [lia|]. rewrite Z.mul_1_l.
    assert (H2 : (2 ^ E * 2 ^ (- ey) = 2 ^ 53 * 2 ^ (- ex))%Z).
    { rewrite <- !Z.pow_add_r by lia. f_equal. lia. }
    pose proof (Z.pow_pos_nonneg 2 (- ey) ltac:(lia) ltac:(lia)).
    pose proof (Z.pow_pos_nonneg 2 (- ex) ltac:(lia) ltac:(lia)).
    pose proof (Z.pow_pos_nonneg 2 E ltac:(lia) ltac:(lia)).
    nia. }
  unfold Z.div in Hq.
  destruct (Z.div_eucl (Z.pos mx * 2 ^ 53) (Z.pos my)) as [q rem].
  cbn [fst] in Hq.
  destruct (binary_round_aux_below q (- E) (new_location (Z.pos my) rem) 1 E)
    as [Hz|(m & e & Hr & He & Hm)]; try lia.
  - by left.
  - right. exists m, e. split; [done|]. split; [lia|].
    replace (- E + E - e)%Z with (- e)%Z in Hm by lia. lia.
Qed.

Lemma Zdigits2_unique m d :
  (2 ^ (d - 1) <= Z.pos m < 2 ^ d)%Z -> (0 < d)%Z ->
  Z.pos (digits2_pos m) = d.
Proof.
  intros [Hlow Hup] Hd.
  pose proof (digits2_pos_lower m) as Hl. pose proof (digits2_pos_upper m) as Hu.
  destruct (Z.lt_trichotomy (Z.pos (digits2_pos m)) d) as [Hlt|[Heq|Hgt]];
    [|done|].
  - assert (2 ^ Z.pos (digits2_pos m) <= 2 ^ (d - 1))%Z
      by (apply Z.pow_le_mono_r; lia).
    lia.
  - assert (2 ^ d <= 2 ^ (Z.pos (digits2_pos m) - 1))%Z
      by (apply Z.pow_le_mono_r; lia).
    lia.
Qed.

(** Shifting out zeros is exact. *)
Lemma shr_1_exact m :
  (0 <= m)%Z ->
  shr_1 {| shr_m := 2 * m; shr_r := false; shr_s := false |}
  = {| shr_m := m; shr_r := false; shr_s := false |}.
Proof. by destruct m. Qed.

Lemma iter_shr_exact n m :
  (0 <= m)%Z ->
  iter_pos shr_1 n {| shr_m := m * 2 ^ Z.pos n; shr_r := false; shr_s := false |}
  = {| shr_m := m; shr_r := false; shr_s := false |}.
Proof.
  revert m. induction n as [n IH|n IH|]; intros m Hm; cbn [iter_pos].
  - replace (m * 2 ^ Z.pos n~1)%Z with (2 * (m * 2 ^ Z.pos n * 2 ^ Z.pos n))%Z.
    + pose proof (Z.pow_pos_nonneg 2 (Z.pos n) ltac:(lia) ltac:(lia)).
      rewrite shr_1_exact by nia. rewrite IH by nia. by apply IH.
    + replace (Z.pos n~1) with (1 + Z.pos n + Z.pos n)%Z by lia.
      rewrite !Z.pow_add_r by lia. ring.
  - replace (m * 2 ^ Z.pos n~0)%Z with (m * 2 ^ Z.pos n * 2 ^ Z.pos n)%Z.
    + pose proof (Z.pow_pos_nonneg 2 (Z.pos n) ltac:(lia) ltac:(lia)).
      rewrite IH by nia. by apply IH.
    + replace (Z.pos n~0) with (Z.pos n + Z.pos n)%Z by lia.
      rewrite !Z.pow_add_r by lia. ring.
  - rewrite Z.pow_1_r, Z.mul_comm. by apply shr_1_exact.
Qed.

(** 100 as a number. *)
Definition mantissa100 : positive := 7036874417766400.

Lemma ofZ_100 : ofZ 100 = S754_finite false mantissa100 (-46).
Proof. by vm_compute. Qed.

(** A power of two, that is 1, times 100 is 100. *)
Lemma mul_one_100 m e :
  (e <= 0)%Z -> (-105 <= e)%Z -> Z.pos m = (2 ^ (- e))%Z ->
  mul (S754_finite false m e) (ofZ 100) = ofZ 100.
Proof.
  intros He Hlow Hm. rewrite ofZ_100. unfold mul, SFmul. cbn [xorb].
  unfold binary_round_aux, shr_fexp.
  assert (Hd : Zdigits2 (Z.pos (m * mantissa100)) = (53 - e)%Z).
  { simpl. apply Zdigits2_unique; [|lia].
    rewrite Pos2Z.inj_mul, Hm.
    assert (H1 : (2 ^ 52 <= Z.pos mantissa100 < 2 ^ 53)%Z) by (by vm_compute).
    replace (53 - e - 1)%Z with (- e + 52)%Z by lia.
    replace (53 - e)%Z with (- e + 53)%Z by lia.
    rewrite !Z.pow_add_r by lia.
    pose proof (Z.pow_pos_nonneg 2 (- e) ltac:(lia) ltac:(lia)). nia. }
  rewrite Hd.
  replace (fexp prec emax (53 - e + (e + -46)) - (e + -46))%Z with (- e)%Z
    by (unfold fexp, emin, prec, emax; lia).
  assert (Hshr : shr (shr_record_of_loc (Z.pos (m * mantissa100)) loc_Exact)
                     (e + -46) (- e)
                 = ({| shr_m := Z.pos mantissa100; shr_r := false;
                       shr_s := false |}, (-46)%Z)).
  { destruct (- e)%Z as [|k|k] eqn:Hk; [| |lia].
    - simpl. assert (m = 1%positive) as -> by (simpl in Hm; lia).
      f_equal. lia.
    - unfold shr. f_equal; [|lia]. simpl shr_record_of_loc.
      rewrite Pos2Z.inj_mul, Hm, Z.mul_comm. by apply iter_shr_exact. }
  rewrite Hshr. cbn [shr_m loc_of_shr_record round_nearest_even].
  by vm_compute.
Qed.

(** A number that is not above 1, times 100, is not above 100. *)
Lemma mul_below m e :
  (-105 <= e <= 0)%Z -> (Z.pos m <= 2 ^ (- e))%Z ->
  mul (S754_finite false m e) (ofZ 100) = S754_zero false
  \/ exists m' e',
       mul (S754_finite false m e) (ofZ 100) = S754_finite false m' e'
       /\ (e' <= 0)%Z
       /\ (Z.pos m' <= 100 * 2 ^ (- e'))%Z.
Proof.
  intros He Hm.
  destruct (decide (Z.pos m = 2 ^ (- e))%Z) as [Heq|Hne].
  - right. rewrite mul_one_100 by (done || lia). rewrite ofZ_100.
    exists mantissa100, (-46)%Z. split; [done|]. split; [lia | by vm_compute].
  - rewrite ofZ_100. unfold mul, SFmul. cbn [xorb].
    destruct (binary_round_aux_below (Z.pos (m * mantissa100)) (e + -46)
                loc_Exact (Z.pos mantissa100) (- e))
      as [Hz|(m' & e' & Hr & He' & Hm')]; try lia.
    + by vm_compute.
    + rewrite Pos2Z.inj_mul. nia.
    + by left.
    + right. exists m', e'. split; [done|]. split; [lia|].
      replace (e + -46 + - e - e')%Z with (-46 - e')%Z in Hm' by lia.
      replace (- e')%Z with (46 + (-46 - e'))%Z by lia.
      rewrite Z.pow_add_r by lia.
      change (Z.pos mantissa100) with (100 * 2 ^ 46)%Z in Hm'. lia.
Qed.

(** The value of a number with a negative exponent. *)
Lemma value_atMost m e c :
  (e <= 0)%Z -> (Z.pos m <= c * 2 ^ (- e))%Z ->
  (value (S754_finite false m e) <= inject_Z c)%Q.
Proof.
  intros He Hm. cbn [value cond_Zopp].
  assert (Hpow : (2 ^ e == / inject_Z (2 ^ (- e)))%Q).
  { replace e with (- - e)%Z at 1 by lia.
    rewrite Qpower_opp. apply Qinv_comp.
    by rewrite (Zpower_Qpower 2 (- e)) by lia. }
  rewrite Hpow.
  apply Qle_shift_div_r.
  - change 0%Q with (inject_Z 0). rewrite <- Zlt_Qlt.
    apply Z.pow_pos_nonneg; lia.
  - by rewrite <- inject_Z_mult, <- Zle_Qle.
Qed.

(** With fewer than 2^53 lines in the log and a [readLineCount] from 0
    to the number of lines, the percentage is not above 100. *)
Lemma percent_atMost100 readLineCount tsvLineCount :
  (0 < tsvLineCount < 2 ^ 53)%Z -> (0 <= readLineCount <= tsvLineCount)%Z ->
  atMost100 (percent readLineCount tsvLineCount).
Proof.
  intros Ht Hr. unfold atMost100.
  destruct (ofZ_exact tsvLineCount Ht) as (mt & et & Hfin & Hdt & Het & Hmt).
  destruct (decide (readLineCount = 0%Z)) as [->|Hr0].
  { unfold percent. rewrite Hfin. by vm_compute. }
  destruct (decide (readLineCount = tsvLineCount)) as [->|Hne].
  { by rewrite (percent_full _ _ _ _ Hfin). }
  destruct (ofZ_exact readLineCount ltac:(lia))
    as (mr & er & Hfinr & Hdr & Her & Hmr).
  unfold percent. rewrite Hfin, Hfinr.
  assert (Hlt : (Z.pos mr * 2 ^ (- et) < Z.pos mt * 2 ^ (- er))%Z).
  { rewrite Hmr, Hmt.
    pose proof (Z.pow_pos_nonneg 2 (- et) ltac:(lia) ltac:(lia)).
    pose proof (Z.pow_pos_nonneg 2 (- er) ltac:(lia) ltac:(lia)).
    nia. }
  destruct (div_below mr er mt et Hdr Hdt Her Het Hlt)
    as [->|(m & e & -> & He & Hm)]; [by vm_compute|].
  destruct (mul_below m e He Hm) as [->|(m' & e' & -> & He' & Hm')];
    [by vm_compute|].
  destruct (ofZ_small 100) as [Hf100 Hv100]; [lia|].
  apply gt_false_intro; [done | done |]. rewrite Hv100.
  by apply value_atMost.
Qed.

(** *** The comparison and the standard library's

    On the numbers of IEEE 754 ([valid_binary]: the mantissa has 53
    digits, or fewer at the least exponent) the comparison above is the
    [SFcompare] of the standard library, which compares signs, then
    exponents, then mantissas. *)

Lemma Qcompare_mult_r a b c : (0 < c)%Q -> (a * c ?= b * c)%Q = (a ?= b)%Q.
Proof.
  intros Hc. destruct (Qcompare_spec a b) as [H|H|H].
  - apply Qeq_alt. by rewrite H.
  - apply Qlt_alt. by apply Qmult_lt_r.
  - apply Qgt_alt. by apply Qmult_lt_r.
Qed.

Lemma Qcompare_inject a b : (inject_Z a ?= inject_Z b)%Q = (a ?= b)%Z.
Proof. unfold Qcompare. simpl. by rewrite !Z.mul_1_r. Qed.

Lemma Qcompare_scaled z1 e1 z2 e2 :
  (e1 <= e2)%Z ->
  (inject_Z z1 * 2 ^ e1 ?= inject_Z z2 * 2 ^ e2)%Q
  = (z1 ?= z2 * 2 ^ (e2 - e1))%Z.
Proof.
  intros He.
  assert (H2 : (2 ^ e2 == inject_Z (2 ^ (e2 - e1)) * 2 ^ e1)%Q).
  { replace e2 with ((e2 - e1) + e1)%Z at 1 by lia.
    rewrite Qpower_plus by done.
    by rewrite (Zpower_Qpower 2 (e2 - e1)) by lia. }
  rewrite H2, Qmult_assoc, <- inject_Z_mult.
  rewrite Qcompare_mult_r by (by apply Qpower_0_lt). apply Qcompare_inject.
Qed.

Lemma canonical_digits m e :
  canonical_mantissa prec emax m e = true ->
  (Z.pos (digits2_pos m) <= 53)%Z
  /\ (-1074 <= e)%Z
  /\ ((-1074 < e)%Z -> Z.pos (digits2_pos m) = 53%Z).
Proof.
  unfold canonical_mantissa, fexp, emin, prec, emax.
  intros H%Z.eqb_eq. lia.
Qed.

Lemma compare_magnitudes m1 e1 m2 e2 :
  canonical_mantissa prec emax m1 e1 = true ->
  canonical_mantissa prec emax m2 e2 = true ->
  (inject_Z (Z.pos m1) * 2 ^ e1 ?= inject_Z (Z.pos m2) * 2 ^ e2)%Q
  = match (e1 ?= e2)%Z with
    | Lt => Lt
    | Gt => Gt
    | Eq => Pos.compare_cont Eq m1 m2
    end.
Proof.
  intros (Hd1 & Hmin1 & Hn1)%canonical_digits (Hd2 & Hmin2 & Hn2)%canonical_digits.
  pose proof (digits2_pos_lower m1). pose proof (digits2_pos_upper m1).
  pose proof (digits2_pos_lower m2). pose proof (digits2_pos_upper m2).
  assert (Hup : forall m, (Z.pos (digits2_pos m) <= 53)%Z ->
                          (Z.pos m < 2 ^ 53)%Z).
  { intros m Hm. pose proof (digits2_pos_upper m).
    assert (2 ^ Z.pos (digits2_pos m) <= 2 ^ 53)%Z
      by (apply Z.pow_le_mono_r; lia).
    lia. }
  assert (Hlow : forall m, Z.pos (digits2_pos m) = 53%Z ->
                           (2 ^ 52 <= Z.pos m)%Z).
  { intros m Hm. pose proof (digits2_pos_lower m) as Hl.
    by rewrite Hm in Hl. }
  assert (Hstep : forall k, (1 <= k)%Z -> (2 <= 2 ^ k)%Z).
  { intros k Hk. change 2%Z with (2 ^ 1)%Z at 1.
    apply Z.pow_le_mono_r; lia. }
  destruct (Z.compare_spec e1 e2) as [->|Hlt|Hgt].
  - rewrite Qcompare_scaled, Z.sub_diag, Z.mul_1_r by lia. done.
  - rewrite Qcompare_scaled by lia. apply Z.compare_lt_iff.
    pose proof (Hup m1 Hd1). pose proof (Hlow m2 (Hn2 ltac:(lia))).
    pose proof (Hstep (e2 - e1)%Z ltac:(lia)). nia.
  - rewrite <- Qcompare_antisym, Qcompare_scaled by lia.
    replace (Z.pos m2 ?= Z.pos m1 * 2 ^ (e1 - e2))%Z with Lt; [done|].
    symmetry. apply Z.compare_lt_iff.
    pose proof (Hup m2 Hd2). pose proof (Hlow m1 (Hn1 ltac:(lia))).
    pose proof (Hstep (e1 - e2)%Z ltac:(lia)). nia.
Qed.

Lemma Qcompare_opp a b : (- a ?= - b)%Q = (b ?= a)%Q.
Proof.
  destruct (Qcompare_spec b a) as [H|H|H].
  - apply Qeq_alt. by rewrite H.
  - apply Qlt_alt. by apply Qopp_lt_compat.
  - apply Qgt_alt. by apply Qopp_lt_compat.
Qed.

Lemma value_negative m e :
  (value (S754_finite true m e) == - value (S754_finite false m e))%Q.
Proof.
  cbn [value cond_Zopp]. change (Z.neg m) with (- Z.pos m)%Z.
  rewrite inject_Z_opp. ring.
Qed.

Lemma value_positive m e : (0 < value (S754_finite false m e))%Q.
Proof.
  cbn [value cond_Zopp].
  apply Qmult_lt_0_compat; [|by apply Qpower_0_lt].
  change 0%Q with (inject_Z 0). rewrite <- Zlt_Qlt. lia.
Qed.

Lemma compareNumbers_SFcompare x y :
  valid_binary prec emax x = true -> valid_binary prec emax y = true ->
  compareNumbers x y = SFcompare x y.
Proof.
  destruct x as [sx|sx| |sx mx ex], y as [sy|sy| |sy my ey];
    try done; try (by destruct sx, sy); unfold valid_binary, bounded;
    intros Hx Hy.
  - unfold compareNumbers, SFcompare. f_equal.
    change (value (S754_zero sx)) with 0%Q.
    pose proof (value_positive my ey) as Hpos.
    destruct sy.
    + apply Qgt_alt. rewrite value_negative.
      apply (Qopp_lt_compat 0) in Hpos. exact Hpos.
    + by apply Qlt_alt.
  - unfold compareNumbers, SFcompare. f_equal.
    change (value (S754_zero sy)) with 0%Q.
    pose proof (value_positive mx ex) as Hpos.
    destruct sx.
    + apply Qlt_alt. rewrite value_negative.
      apply (Qopp_lt_compat 0) in Hpos. exact Hpos.
    + by apply Qgt_alt.
  - apply andb_prop in Hx as [Hx _]. apply andb_prop in Hy as [Hy _].
    unfold compareNumbers, SFcompare. f_equal.
    destruct sx, sy.
    + rewrite !value_negative, Qcompare_opp. cbn [value cond_Zopp].
      rewrite compare_magnitudes by done.
      rewrite (Z.compare_antisym ex ey).
      destruct (ex ?= ey)%Z; simpl; try done.
      by rewrite Pos.compare_cont_antisym.
    + apply Qlt_alt. rewrite value_negative.
      pose proof (value_positive mx ex) as H1.
      pose proof (value_positive my ey) as H2.
      apply (Qopp_lt_compat 0) in H1.
      eapply Qlt_trans; [exact H1 | exact H2].
    + apply Qgt_alt. rewrite value_negative.
      pose proof (value_positive mx ex) as H1.
      pose proof (value_positive my ey) as H2.
      apply (Qopp_lt_compat 0) in H2.
      eapply Qlt_trans; [exact H2 | exact H1].
    + cbn [value cond_Zopp]. by apply compare_magnitudes.
Qed.

Lemma compareNumbers_antisym x y :
  compareNumbers y x = CompOpp <$> compareNumbers x y.
Proof.
  destruct x as [sx|sx| |sx mx ex], y as [sy|sy| |sy my ey];
    try done; try (by destruct sx, sy); try (by destruct sx);
    try (by destruct sy);
    unfold compareNumbers; simpl; by rewrite Qcompare_antisym.
Qed.

(** [x > y] is the standard library's [y < x]. *)
Lemma gt_SFltb x y :
  valid_binary prec emax x = true -> valid_binary prec emax y = true ->
  gt x y = SFltb y x.
Proof.
  intros Hx Hy. unfold gt, SFltb.
  rewrite <- (compareNumbers_SFcompare y x Hy Hx).
  rewrite (compareNumbers_antisym x y).
  by destruct (compareNumbers x y) as [[| |]|].
Qed.

Lemma percents_atMost100 tsvLineCount readLineCounts :
  (0 < tsvLineCount < 2 ^ 53)%Z ->
  Forall (fun r => (0 <= r <= tsvLineCount)%Z) readLineCounts ->
  Forall (fun r => atMost100 (percent r tsvLineCount)) readLineCounts.
Proof.
  intros Ht Hrs. eapply Forall_impl; [exact Hrs|].
  intros r Hr. by apply percent_atMost100.
Qed.

(** X6. For a log of fewer than 2^53 lines and [readLineCount]s from 0
    to the number of lines, every percentage the check logs is an
    integer between 20 and 100. *)
Theorem progress_log_range (tsvLineCount : Z) (readLineCounts : list Z) :
  (0 < tsvLineCount < 2 ^ 53)%Z ->
  Forall (fun r => (0 <= r <= tsvLineCount)%Z) readLineCounts ->
  exists ns,
    progressLog tsvLineCount readLineCounts = ofZ <$> ns
    /\ Forall (fun l => (20 <= l <= 100)%Z) ns.
Proof.
  intros Ht Hrs.
  destruct (progressStatus_whole tsvLineCount readLineCounts)
    as (n & ns & _ & Hlog & _ & _ & _ & Hrange & _);
    [by apply percents_atMost100|].
  by exists ns.
Qed.

Lemma progress_log_range_witness :
  (0 < 20 < 2 ^ 53)%Z
  /\ Forall (fun r => (0 <= r <= 20)%Z) [7; 11]%Z
  /\ exists ns,
       progressLog 20 [7; 11]%Z = ofZ <$> ns
       /\ Forall (fun l => (20 <= l <= 100)%Z) ns.
Proof.
  assert (Ht : (0 < 20 < 2 ^ 53)%Z) by lia.
  assert (Hrs : Forall (fun r => (0 <= r <= 20)%Z) [7; 11]%Z)
    by (repeat constructor; lia).
  split; [exact Ht|]. split; [exact Hrs|].
  exact (progress_log_range 20 [7; 11]%Z Ht Hrs).
Defined.

(** X7. When the last record processed is the last line of a log of
    fewer than 2^53 lines, its percentage is exactly 100, and the last
    percentage logged is an integer from 80 to 100: the progress log of
    a phase that reads the log to its end does not stop below 80. *)
Theorem progress_log_reaches_80 (tsvLineCount : Z) (earlier : list Z) :
  (0 < tsvLineCount < 2 ^ 53)%Z ->
  Forall (fun r => (0 <= r <= tsvLineCount)%Z) earlier ->
  percent tsvLineCount tsvLineCount = ofZ 100
  /\ exists ns,
       progressLog tsvLineCount (earlier ++ [tsvLineCount]) = ofZ <$> ns
       /\ (80 <= List.last ns 0 <= 100)%Z.
Proof.
  intros Ht Hrs.
  destruct (ofZ_finite tsvLineCount Ht) as (m & e & Hfin).
  pose proof (percent_full _ _ _ _ Hfin) as Hfull.
  split; [done|].
  destruct (progressStatus_whole tsvLineCount earlier) as (n & ns & Hst);
    [by apply percents_atMost100|].
  unfold progressLog, progressStatus in *. rewrite fmap_app. simpl.
  rewrite statusLoop_snoc, Hfull.
  destruct (statusUpdate_whole _ (ofZ 100) n ns Hst ltac:(by vm_compute))
    as (n' & ns' & (_ & Hlog & Hn' & _ & Hlast & _) & Hbehind & _).
  exists ns'. split; [done|]. rewrite Hlast.
  destruct (ofZ_small 100) as [Hf100 Hv100]; [lia|].
  destruct (ofZ_small (n' + 20)) as [Hf Hv]; [lia|].
  pose proof (gt_false _ _ Hf Hf100 Hbehind) as Hle.
  rewrite Hv, Hv100, <- Zle_Qle in Hle. lia.
Qed.

Lemma progress_log_reaches_80_witness :
  (0 < 5 < 2 ^ 53)%Z
  /\ Forall (fun r => (0 <= r <= 5)%Z) [1; 2; 3; 4]%Z
  /\ exists ns,
       progressLog 5 ([1; 2; 3; 4] ++ [5])%Z = ofZ <$> ns
       /\ (80 <= List.last ns 0 <= 100)%Z.
Proof.
  assert (Ht : (0 < 5 < 2 ^ 53)%Z) by lia.
  assert (Hrs : Forall (fun r => (0 <= r <= 5)%Z) [1; 2; 3; 4]%Z)
    by (repeat constructor; lia).
  split; [exact Ht|]. split; [exact Hrs|].
  exact (proj2 (progress_log_reaches_80 5 [1; 2; 3; 4]%Z Ht Hrs)).
Defined.

End Progress.

(** ** The bulk loader

    The four phases and their orchestration, as a state-and-error monad
    over the database: the committed store, the working copy of the open
    transaction, and the sequence of commands and log lines issued.
    Wall-clock measurements ([stopwatch], [timeTracker], the
    [blocksInserted] counter) and the log lines that only report them are
    left out. *)

Module Loader.

(** One record of the pre-organised TSV stream ([readPreorgTsv]). *)
Record PreorgRecord := mkPreorgRecord {
  path : string;
  payload : string;
  readLineCount : Z
}.

Record TsvEntityData := mkTsvEntityData {
  indexBlockHashes : list string;
  burnBlockHashes : list string;
  tsvLineCount : Z
}.

Definition ChainID : Type := Z.

(** [2147483647] *)
Definition I32_MAX : Z := 2147483647.

(** The [blockData] literal given to [updateBatchSubdomains]. *)
Record SubdomainBlockData := mkSubdomainBlockData {
  sd_index_block_hash : string;
  sd_parent_index_block_hash : string;
  sd_microblock_hash : string;
  sd_microblock_sequence : Z;
  sd_microblock_canonical : bool
}.

Section Records.
Context {schema : Schema}.

Record BurnBlockData := mkBurnBlockData {
  rewards : list DbBurnchainReward;
  slotHolders : list DbRewardSlotHolder
}.

Record NewBlockData := mkNewBlockData {
  block : DbBlock;
  microblocks : list DbMicroblock;
  txs : list DataStoreTxEventData
}.

Record AttachmentData := mkAttachmentData {
  zoneFiles : list DbZoneFile;
  subdomains : list DbBnsSubdomain
}.

(** The calls made on the write store ([PgWriteStore]) and on its SQL
    connection, with the arguments the importer supplies. *)
Inductive Cmd :=
| toggleTableIndexes (tables : list string) (enabled : bool)
| storeRawEventRequest1 (eventPath eventPayload : string)
| updateBurnchainRewards (burnchainBlockHash : string)
    (burnchainBlockHeight : Z) (rs : list DbBurnchainReward)
| updateBurnchainRewardSlotHolders (burnchainBlockHash : string)
    (burnchainBlockHeight : Z) (hs : list DbRewardSlotHolder)
| updateBatchSubdomains (blockData : SubdomainBlockData)
    (sds : list DbBnsSubdomain)
| updateBlock (b : DbBlock)
| insertMicroblock (mbs : list DbMicroblock)
| updateTxBatch (entries : list DbTx)
| updateBatchStxEvents (t : DbTx) (evs : list DbStxEvent)
| insertPrincipalStxTxsBatched (entries : list PrincipalStxTxsInsertValues)
| updateBatchSmartContractEvent (t : DbTx) (evs : list DbSmartContractEvent)
| updateStxLockEvent (t : DbTx) (ev : DbStxLockEvent)
| updateFtEvent (t : DbTx) (ev : DbFtEvent)
| updateNftEvent (t : DbTx) (ev : DbNftEvent)
| updateSmartContract (t : DbTx) (sc : DbSmartContract)
| updateNames (t : DbTx) (n : DbBnsName)
| updateNamespaces (t : DbTx) (ns : DbBnsNamespace)
| reindexTable (table : string)
| showSetting (name : string).

End Records.

(** The database behind the write store.  A command either yields the
    next store or fails; whether it fails may depend on the time it is
    issued ([nat], the number of commands issued before it), as
    connection losses do. *)
Class Database {schema : Schema} := {
  Store : Type;
  dbApply : nat -> Cmd -> Store -> option Store
}.

(** The decoding of payloads: [JSON.parse] at the three message types
    and the parsers of [../event-stream/event-server].  [None] stands for
    a thrown error. *)
Class Decoders {schema : Schema} := {
  CoreNodeBurnBlockMessage : Type;
  CoreNodeBlockMessage : Type;
  CoreNodeAttachmentMessage : Type;
  burn_block_hash : CoreNodeBurnBlockMessage -> string;
  burn_block_height : CoreNodeBurnBlockMessage -> Z;
  JSON_parse_burnBlock : string -> option CoreNodeBurnBlockMessage;
  JSON_parse_block : string -> option CoreNodeBlockMessage;
  JSON_parse_attachments : string -> option (list CoreNodeAttachmentMessage);
  parseBurnBlockMessage : CoreNodeBurnBlockMessage -> option BurnBlockData;
  parseNewBlockMessage : ChainID -> CoreNodeBlockMessage -> option NewBlockData;
  parseAttachmentMessage :
    list CoreNodeAttachmentMessage -> option AttachmentData
}.

(** The connection a command is issued on: the pool ([db.sql]) or the
    transaction handle ([sql]) that [begin] gives to its callback. *)
Inductive Handle := Pool | Tx.

Inductive Error := ParseError | StorageError.

Inductive Log :=
| LogProgress (label : string) (percent : Progress.Number) (lines total : Z)
| LogInfo (msg : string).

Inductive Phase := BurnBlocks | Attachments | RawEvents | NewBlocks.

Section Monad.
Context {schema : Schema} {database : Database} {decoders : Decoders}.

Inductive Event :=
| EvBegin
| EvCommit
| EvRollback
| EvCmd (h : Handle) (c : Cmd)
| EvLog (l : Log).

Record World := mkWorld {
  committed : Store;
  pending : option Store;
  clock : nat;
  trace : list Event
}.

Definition M (A : Type) : Type := World -> (Error + A) * World.

#[export] Instance M_ret : MRet M := fun A a w => (inr a, w).

#[export] Instance M_bind : MBind M := fun A B f m w =>
  match m w with
  | (inr a, w') => f a w'
  | (inl e, w') => (inl e, w')
  end.

Definition throw {A} (e : Error) : M A := fun w => (inl e, w).

(** A step that throws [ParseError] when the decoder does. *)
Definition parse {A} (r : option A) : M A :=
  match r with
  | Some a => mret a
  | None => throw ParseError
  end.

Definition emit (e : Event) (w : World) : World :=
  {| committed := committed w; pending := pending w; clock := clock w;
     trace := trace w ++ [e] |}.

(** [logger.info(...)] *)
Definition log (l : Log) : M unit := fun w => (inr tt, emit (EvLog l) w).

(** Issue a command on a connection.  On the transaction handle it acts
    on the working copy of the open transaction, on the pool it acts on
    the committed store at once. *)
Definition exec (h : Handle) (c : Cmd) : M unit := fun w =>
  let w1 := emit (EvCmd h c) w in
  let tick := S (clock w) in
  match h with
  | Tx =>
      match pending w with
      | Some s =>
          match dbApply (clock w) c s with
          | Some s' =>
              (inr tt, {| committed := committed w1; pending := Some s';
                          clock := tick; trace := trace w1 |})
          | None =>
              (inl StorageError,
               {| committed := committed w1; pending := pending w1;
                  clock := tick; trace := trace w1 |})
          end
      | None => (inl StorageError, w1)
      end
  | Pool =>
      match dbApply (clock w) c (committed w) with
      | Some s' =>
          (inr tt, {| committed := s'; pending := pending w1;
                      clock := tick; trace := trace w1 |})
      | None =>
          (inl StorageError,
           {| committed := committed w1; pending := pending w1;
              clock := tick; trace := trace w1 |})
      end
  end.

(** Modelled from the spec: [db.sql.begin(callback)] belongs to the SQL
    driver, outside the sources at hand.  "Transactional scoping with
    commit/rollback": the callback works on a copy of the committed
    store; when it returns the copy is committed, when it throws the copy
    is dropped and the error is passed on. *)
Definition begin {A} (callback : M A) : M A := fun w =>
  let w0 := {| committed := committed w; pending := Some (committed w);
               clock := clock w; trace := trace w ++ [EvBegin] |} in
  match callback w0 with
  | (inr a, w1) =>
      (inr a, {| committed := default (committed w1) (pending w1);
                 pending := None; clock := clock w1;
                 trace := trace w1 ++ [EvCommit] |})
  | (inl e, w1) =>
      (inl e, {| committed := committed w1; pending := None;
                 clock := clock w1; trace := trace w1 ++ [EvRollback] |})
  end.

(** [for (const x of xs) { state = await body(state, x) }] *)
Fixpoint forEach {A S} (body : S -> A -> M S) (s : S) (xs : list A) : M S :=
  match xs with
  | [] => mret s
  | x :: xs' => s' ← body s x; forEach body s' xs'
  end.

Definition forEach_ {A} (body : A -> M unit) (xs : list A) : M unit :=
  forEach (fun _ x => body x) tt xs.

(** [timeTracker.track(name, fn)] runs [fn] and records how long it
    took. *)
Definition track {A} (name : string) (fn : M A) : M A := fn.

(** Modelled from the spec: [readPreorgTsv] of [./tsv-pre-org] is not
    part of the sources at hand.  "Re-open the preorg file as a typed
    record stream, optionally filtered to one event path": the records of
    the file in order, those of the given path when one is given. *)
Definition readPreorgTsv (file : list PreorgRecord) (filterPath : option string)
  : list PreorgRecord :=
  match filterPath with
  | Some p => filter (fun r => path r = p) file
  | None => file
  end.

(** The progress check that ends the body of every record loop: one
    run of [Progress.statusUpdate] on the local
    [lastStatusUpdatePercent], whose log entry (if any) goes to the
    logger. *)
Definition progressCheck (label : string) (tsvEntityData : TsvEntityData)
    (lastStatusUpdatePercent : Progress.Number) (event : PreorgRecord)
  : M Progress.Number :=
  let st := Progress.statusUpdate
              (Progress.mkStatus lastStatusUpdatePercent [])
              (Progress.percent (readLineCount event)
                                (tsvLineCount tsvEntityData)) in
  forEach_ (fun percent =>
              log (LogProgress label percent (readLineCount event)
                               (tsvLineCount tsvEntityData)))
           (Progress.logged st);;
  mret (Progress.lastStatusUpdatePercent st).

(** The batch accumulator with an effectful [insertFn]: the batches that
    [push] hands over are inserted in order, and the buffer it leaves is
    kept for the next call. *)
Definition pushM {T} (batchSize : nat) (insertFn : list T -> M unit)
    (entries : list T) (entryBuffer : list T) : M (list T) :=
  let st := BatchInserter.push batchSize entries
              (BatchInserter.mkInserter entryBuffer []) in
  forEach_ insertFn (BatchInserter.inserted st);;
  mret (BatchInserter.entryBuffer st).

Definition flushM {T} (insertFn : list T -> M unit)
    (entryBuffer : list T) : M (list T) :=
  let st := BatchInserter.flush (BatchInserter.mkInserter entryBuffer []) in
  forEach_ insertFn (BatchInserter.inserted st);;
  mret (BatchInserter.entryBuffer st).

(** The frame shared by the four phases:
    [db.sql.begin(async sql => { toggleTableIndexes(sql, tables, false);
       ...; toggleTableIndexes(sql, tables, true) })]. *)
Definition bulkTransaction (tables : list string) (inserts : M unit) : M unit :=
  begin (exec Tx (toggleTableIndexes tables false);;
         inserts;;
         exec Tx (toggleTableIndexes tables true)).

(** [for (const table of tables) REINDEX TABLE table], on the pool. *)
Definition reindexTables (tables : list string) : M unit :=
  forEach_ (fun table =>
              track ("reindex " +:+ table) (exec Pool (reindexTable table)))
           tables.

(** *** Burn blocks *)

Definition burnBlockTables : list string :=
  ["burnchain_rewards"; "reward_slot_holders"].

Definition burnBlockEvent (tsvEntityData : TsvEntityData)
    (lastStatusUpdatePercent : Progress.Number) (event : PreorgRecord)
  : M Progress.Number :=
  burnBlockMsg ← parse (JSON_parse_burnBlock (payload event));
  burnBlockData ← parse (parseBurnBlockMessage burnBlockMsg);
  (if 0 <? length (rewards burnBlockData) then
     track "updateBurnchainRewards"
       (exec Tx (updateBurnchainRewards (burn_block_hash burnBlockMsg)
                   (burn_block_height burnBlockMsg) (rewards burnBlockData)))
   else mret tt);;
  (if 0 <? length (slotHolders burnBlockData) then
     track "updateBurnchainRewardSlotHolders"
       (exec Tx (updateBurnchainRewardSlotHolders (burn_block_hash burnBlockMsg)
                   (burn_block_height burnBlockMsg) (slotHolders burnBlockData)))
   else mret tt);;
  progressCheck "Processed '/new_burn_block' events" tsvEntityData
                lastStatusUpdatePercent event.

Definition burnBlockInserts (tsvEntityData : TsvEntityData)
    (file : list PreorgRecord) : M unit :=
  forEach (burnBlockEvent tsvEntityData) (Progress.ofZ 0)
          (readPreorgTsv file (Some "/new_burn_block"));;
  mret tt.

Definition insertNewBurnBlockEvents (tsvEntityData : TsvEntityData)
    (file : list PreorgRecord) : M unit :=
  bulkTransaction burnBlockTables (burnBlockInserts tsvEntityData file);;
  reindexTables burnBlockTables.

(** *** Attachments *)

Definition attachmentTables : list string := ["zonefiles"; "subdomains"].

Definition subdomainBlockData (subdomain : DbBnsSubdomain)
  : SubdomainBlockData :=
  {| sd_index_block_hash := default "" (subdomain_index_block_hash subdomain);
     sd_parent_index_block_hash := "";
     sd_microblock_hash := "";
     sd_microblock_sequence := I32_MAX;
     sd_microblock_canonical := true |}.

Definition attachmentEvent (tsvEntityData : TsvEntityData)
    (lastStatusUpdatePercent : Progress.Number) (event : PreorgRecord)
  : M Progress.Number :=
  attatchmentMsg ← parse (JSON_parse_attachments (payload event));
  attachments ← parse (parseAttachmentMessage attatchmentMsg);
  (* the loop over [attachments.zoneFiles] has an empty body *)
  forEach_ (fun _ => mret tt) (zoneFiles attachments);;
  forEach_ (fun subdomain =>
              track "updateBatchSubdomains"
                (exec Tx (updateBatchSubdomains (subdomainBlockData subdomain)
                            [subdomain])))
           (subdomains attachments);;
  progressCheck "Processed '/attachments/new' events" tsvEntityData
                lastStatusUpdatePercent event.

Definition attachmentInserts (tsvEntityData : TsvEntityData)
    (file : list PreorgRecord) : M unit :=
  forEach (attachmentEvent tsvEntityData) (Progress.ofZ 0)
          (readPreorgTsv file (Some "/attachments/new"));;
  mret tt.

Definition insertNewAttachmentEvents (tsvEntityData : TsvEntityData)
    (file : list PreorgRecord) : M unit :=
  bulkTransaction attachmentTables (attachmentInserts tsvEntityData file);;
  reindexTables attachmentTables.

(** *** Raw event requests *)

Definition rawEventTables : list string := ["event_observer_requests"].

Definition rawEvent (tsvEntityData : TsvEntityData)
    (lastStatusUpdatePercent : Progress.Number) (event : PreorgRecord)
  : M Progress.Number :=
  track "storeRawEventRequest"
    (exec Tx (storeRawEventRequest1 (path event) (payload event)));;
  progressCheck "Raw event requests processed" tsvEntityData
                lastStatusUpdatePercent event.

Definition rawEventInserts (tsvEntityData : TsvEntityData)
    (file : list PreorgRecord) : M unit :=
  forEach (rawEvent tsvEntityData) (Progress.ofZ 0) (readPreorgTsv file None);;
  mret tt.

Definition insertRawEvents (tsvEntityData : TsvEntityData)
    (file : list PreorgRecord) : M unit :=
  bulkTransaction rawEventTables (rawEventInserts tsvEntityData file);;
  reindexTables rawEventTables.

(** *** New blocks *)

Definition newBlockTables : list string :=
  ["blocks"; "microblocks"; "txs"; "stx_events"; "principal_stx_txs";
   "contract_logs"; "stx_lock_events"; "ft_events"; "nft_events";
   "smart_contracts"; "names"; "namespaces"].

(** The buffers of [dbTxBatchInserter] and
    [dbPrincipalStxTxBatchInserter]. *)
Definition Buffers : Type := list DbTx * list PrincipalStxTxsInsertValues.

Definition dbTxInsertFn (entries : list DbTx) : M unit :=
  track "updateTxBatch" (exec Tx (updateTxBatch entries)).

Definition dbPrincipalStxTxInsertFn
    (entries : list PrincipalStxTxsInsertValues) : M unit :=
  track "insertPrincipalStxTxsBatched"
    (exec Tx (insertPrincipalStxTxsBatched entries)).

(** [processStxEvents(entry)], with the accumulator's buffer threaded. *)
Definition processStxEvents (buffer : list PrincipalStxTxsInsertValues)
    (entry : DataStoreTxEventData) : M (list PrincipalStxTxsInsertValues) :=
  pushM 1000 dbPrincipalStxTxInsertFn (Principals.processStxEvents entry) buffer.

(** The body of [for (const entry of dbData.txs)]. *)
Definition txEntry (buffers : Buffers) (entry : DataStoreTxEventData)
  : M Buffers :=
  txBuffer ← pushM 1000 dbTxInsertFn [tx entry] buffers.1;
  track "updateBatchStxEvents"
    (exec Tx (updateBatchStxEvents (tx entry) (stxEvents entry)));;
  principalBuffer ← processStxEvents buffers.2 entry;
  track "updateBatchSmartContractEvent"
    (exec Tx (updateBatchSmartContractEvent (tx entry) (contractLogEvents entry)));;
  forEach_ (fun stxLockEvent =>
              track "updateStxLockEvent"
                (exec Tx (updateStxLockEvent (tx entry) stxLockEvent)))
           (stxLockEvents entry);;
  forEach_ (fun ftEvent =>
              track "updateFtEvent" (exec Tx (updateFtEvent (tx entry) ftEvent)))
           (ftEvents entry);;
  forEach_ (fun nftEvent =>
              track "updateNftEvent" (exec Tx (updateNftEvent (tx entry) nftEvent)))
           (nftEvents entry);;
  forEach_ (fun smartContract =>
              track "updateSmartContract"
                (exec Tx (updateSmartContract (tx entry) smartContract)))
           (smartContracts entry);;
  forEach_ (fun bnsName =>
              track "updateNames" (exec Tx (updateNames (tx entry) bnsName)))
           (names entry);;
  forEach_ (fun namespace =>
              track "updateNamespaces"
                (exec Tx (updateNamespaces (tx entry) namespace)))
           (namespaces entry);;
  mret (txBuffer, principalBuffer).

Definition newBlockEvent (chainID : ChainID) (tsvEntityData : TsvEntityData)
    (st : Progress.Number * Buffers) (event : PreorgRecord)
  : M (Progress.Number * Buffers) :=
  newBlockMsg ← parse (JSON_parse_block (payload event));
  dbData ← parse (parseNewBlockMessage chainID newBlockMsg);
  track "updateBlock" (exec Tx (updateBlock (block dbData)));;
  (if 0 <? length (microblocks dbData) then
     track "insertMicroblock" (exec Tx (insertMicroblock (microblocks dbData)))
   else mret tt);;
  buffers ← (if 0 <? length (txs dbData) then forEach txEntry st.2 (txs dbData)
             else mret st.2);
  lastStatusUpdatePercent ←
    progressCheck "Processed '/new_block' events" tsvEntityData st.1 event;
  mret (lastStatusUpdatePercent, buffers).

Definition newBlockInserts (chainID : ChainID) (tsvEntityData : TsvEntityData)
    (file : list PreorgRecord) : M unit :=
  st ← forEach (newBlockEvent chainID tsvEntityData) (Progress.ofZ 0, ([], []))
               (readPreorgTsv file (Some "/new_block"));
  flushM dbTxInsertFn st.2.1;;
  flushM dbPrincipalStxTxInsertFn st.2.2;;
  log (LogInfo "Processed '/new_block' events: 100%").

Definition insertNewBlockEvents (tsvEntityData : TsvEntityData)
    (file : list PreorgRecord) (chainID : ChainID) : M unit :=
  bulkTransaction newBlockTables (newBlockInserts chainID tsvEntityData file);;
  reindexTables newBlockTables.

(** *** The import proper ([preOrgTsvImport], from the point where the
    canonical index and the preorg file are at hand) *)

Definition insertEventData (chainID : ChainID) (tsvEntityData : TsvEntityData)
    (file : list PreorgRecord) : M unit :=
  exec Pool (showSetting "max_parallel_maintenance_workers");;
  exec Pool (showSetting "maintenance_work_mem");;
  insertNewBurnBlockEvents tsvEntityData file;;
  insertNewAttachmentEvents tsvEntityData file;;
  insertRawEvents tsvEntityData file;;
  insertNewBlockEvents tsvEntityData file chainID.

(** *** Phases, by name *)

Definition phaseTables (p : Phase) : list string :=
  match p with
  | BurnBlocks => burnBlockTables
  | Attachments => attachmentTables
  | RawEvents => rawEventTables
  | NewBlocks => newBlockTables
  end.

Definition phaseIndex (p : Phase) : nat :=
  match p with
  | BurnBlocks => 0
  | Attachments => 1
  | RawEvents => 2
  | NewBlocks => 3
  end.

Definition phaseInserts (p : Phase) (chainID : ChainID)
    (tsvEntityData : TsvEntityData) (file : list PreorgRecord) : M unit :=
  match p with
  | BurnBlocks => burnBlockInserts tsvEntityData file
  | Attachments => attachmentInserts tsvEntityData file
  | RawEvents => rawEventInserts tsvEntityData file
  | NewBlocks => newBlockInserts chainID tsvEntityData file
  end.

(** The storage transaction of a phase. *)
Definition phaseTransaction (p : Phase) (chainID : ChainID)
    (tsvEntityData : TsvEntityData) (file : list PreorgRecord) : M unit :=
  bulkTransaction (phaseTables p) (phaseInserts p chainID tsvEntityData file).

(** The records a phase reads. *)
Definition phaseRecords (p : Phase) (file : list PreorgRecord)
  : list PreorgRecord :=
  match p with
  | BurnBlocks => readPreorgTsv file (Some "/new_burn_block")
  | Attachments => readPreorgTsv file (Some "/attachments/new")
  | RawEvents => readPreorgTsv file None
  | NewBlocks => readPreorgTsv file (Some "/new_block")
  end.

(** A record's payload decodes in the phase that reads it. *)
Definition decodes (p : Phase) (chainID : ChainID) (event : PreorgRecord)
  : Prop :=
  match p with
  | BurnBlocks =>
      is_Some (JSON_parse_burnBlock (payload event) ≫= parseBurnBlockMessage)
  | Attachments =>
      is_Some (JSON_parse_attachments (payload event) ≫= parseAttachmentMessage)
  | RawEvents => True
  | NewBlocks =>
      is_Some (JSON_parse_block (payload event) ≫= parseNewBlockMessage chainID)
  end.

(** The phase a command belongs to, by the tables it writes. *)
Definition tablePhase (table : string) : option Phase :=
  if decide (table ∈ burnBlockTables) then Some BurnBlocks
  else if decide (table ∈ attachmentTables) then Some Attachments
  else if decide (table ∈ rawEventTables) then Some RawEvents
  else if decide (table ∈ newBlockTables) then Some NewBlocks
  else None.

Definition cmdPhase (c : Cmd) : option Phase :=
  match c with
  | toggleTableIndexes tables _ => head tables ≫= tablePhase
  | reindexTable table => tablePhase table
  | showSetting _ => None
  | storeRawEventRequest1 _ _ => Some RawEvents
  | updateBurnchainRewards _ _ _
  | updateBurnchainRewardSlotHolders _ _ _ => Some BurnBlocks
  | updateBatchSubdomains _ _ => Some Attachments
  | _ => Some NewBlocks
  end.

(** A monitor for the order of the phases: it reads the trace and keeps
    the number of transactions committed so far and whether one is open;
    it rejects a command that is issued at the wrong time. *)
Inductive Monitor := Running (commits : nat) (inTx : bool) | Aborted.

Definition monitorStep (m : Monitor) (e : Event) : option Monitor :=
  match m, e with
  | Aborted, _ => None
  | Running k false, EvBegin => Some (Running k true)
  | Running k true, EvCommit => Some (Running (S k) false)
  | Running k true, EvRollback => Some Aborted
  | Running k true, EvCmd Tx c =>
      match cmdPhase c with
      | Some p => if decide (phaseIndex p = k) then Some m else None
      | None => None
      end
  | Running k false, EvCmd Pool c =>
      match cmdPhase c with
      | Some p => if decide (S (phaseIndex p) = k) then Some m else None
      | None => Some m
      end
  | Running k _, EvLog _ => Some m
  | _, _ => None
  end.

Fixpoint monitor (m : Monitor) (evs : list Event) : option Monitor :=
  match evs with
  | [] => Some m
  | e :: evs' => m' ← monitorStep m e; monitor m' evs'
  end.

Definition isCommit (e : Event) : bool :=
  match e with EvCommit => true | _ => false end.

Definition commitCount (evs : list Event) : nat :=
  length (List.filter isCommit evs).

Definition initialWorld (s : Store) : World :=
  {| committed := s; pending := None; clock := 0; trace := [] |}.

(** *** Reasoning about what a computation issues *)

(** What may happen inside the transaction of phase [p]: commands of
    that phase on the transaction handle, and log lines. *)
Definition txEvent (p : Phase) (e : Event) : Prop :=
  match e with
  | EvCmd Tx c => cmdPhase c = Some p
  | EvLog _ => True
  | _ => False
  end.

(** What [reindexTables] issues for phase [p]. *)
Definition poolEvent (p : Phase) (e : Event) : Prop :=
  match e with
  | EvCmd Pool c => cmdPhase c = Some p
  | _ => False
  end.

(** A computation that stays inside the transaction of phase [p]: it
    leaves the committed store alone, keeps the transaction open, and
    adds only [txEvent]s to the trace. *)
Definition txOnly (p : Phase) {A} (m : M A) : Prop :=
  forall w,
    committed (m w).2 = committed w
    /\ (is_Some (pending w) -> is_Some (pending (m w).2))
    /\ exists evs, trace (m w).2 = trace w ++ evs /\ Forall (txEvent p) evs.

Lemma bind_unfold {A B} (m : M A) (f : A -> M B) w :
  (m ≫= f) w = match m w with
               | (inr a, w') => f a w'
               | (inl e, w') => (inl e, w')
               end.
Proof. reflexivity. Qed.

Lemma ret_bind {A B} (a : A) (f : A -> M B) : (mret a ≫= f) = f a.
Proof. reflexivity. Qed.

Lemma txOnly_ret p {A} (a : A) : txOnly p (mret a : M A).
Proof.
  intros w. simpl. split; [done|]. split; [done|].
  exists []. by rewrite app_nil_r.
Qed.

Lemma txOnly_throw p {A} e : txOnly p (throw e : M A).
Proof.
  intros w. simpl. split; [done|]. split; [done|].
  exists []. by rewrite app_nil_r.
Qed.

Lemma txOnly_parse p {A} (r : option A) : txOnly p (parse r).
Proof. destruct r; [apply txOnly_ret | apply txOnly_throw]. Qed.

Lemma txOnly_log p l : txOnly p (log l).
Proof.
  intros w. simpl. split; [done|]. split; [done|].
  exists [EvLog l]. split; [done|]. by repeat constructor.
Qed.

Lemma txOnly_exec p c : cmdPhase c = Some p -> txOnly p (exec Tx c).
Proof.
  intros Hc w. unfold exec.
  assert (Hev : Forall (txEvent p) [EvCmd Tx c]) by (by repeat constructor).
  destruct (pending w) as [s|] eqn:Hp; [destruct (dbApply (clock w) c s)|];
    simpl; (split; [done|]); (split; [by eauto|]);
    by exists [EvCmd Tx c].
Qed.

Lemma txOnly_bind p {A B} (m : M A) (f : A -> M B) :
  txOnly p m -> (forall a, txOnly p (f a)) -> txOnly p (m ≫= f).
Proof.
  intros Hm Hf w. rewrite bind_unfold.
  destruct (Hm w) as (Hc & Hp & evs & Ht & Hevs).
  destruct (m w) as [[e|a] w1]; simpl in *.
  - split; [done|]. split; [done|]. by exists evs.
  - destruct (Hf a w1) as (Hc' & Hp' & evs' & Ht' & Hevs').
    split; [congruence|]. split; [by auto|].
    exists (evs ++ evs'). split.
    + by rewrite Ht', Ht, app_assoc.
    + by apply Forall_app.
Qed.

Lemma txOnly_forEach p {A S} (body : S -> A -> M S) xs s :
  (forall s x, txOnly p (body s x)) -> txOnly p (forEach body s xs).
Proof.
  intros Hbody. revert s.
  induction xs as [|x xs IH]; intros s; simpl.
  - apply txOnly_ret.
  - apply txOnly_bind; [apply Hbody | intros s'; apply IH].
Qed.

Lemma txOnly_forEach_ p {A} (body : A -> M unit) xs :
  (forall x, txOnly p (body x)) -> txOnly p (forEach_ body xs).
Proof. intros Hbody. apply txOnly_forEach. intros _ x. apply Hbody. Qed.

Lemma txOnly_if p {A} (b : bool) (m1 m2 : M A) :
  txOnly p m1 -> txOnly p m2 -> txOnly p (if b then m1 else m2).
Proof. by destruct b. Qed.

Lemma txOnly_track p {A} name (m : M A) : txOnly p m -> txOnly p (track name m).
Proof. done. Qed.

Lemma txOnly_progressCheck p label tsvEntityData last event :
  txOnly p (progressCheck label tsvEntityData last event).
Proof.
  unfold progressCheck.
  apply txOnly_bind; [|intros _; apply txOnly_ret].
  apply txOnly_forEach_. intros percent. apply txOnly_log.
Qed.

Lemma txOnly_pushM p {T} n (insertFn : list T -> M unit) entries buffer :
  (forall es, txOnly p (insertFn es)) ->
  txOnly p (pushM n insertFn entries buffer).
Proof.
  intros Hins. unfold pushM.
  apply txOnly_bind; [by apply txOnly_forEach_ | intros _; apply txOnly_ret].
Qed.

Lemma txOnly_flushM p {T} (insertFn : list T -> M unit) buffer :
  (forall es, txOnly p (insertFn es)) ->
  txOnly p (flushM insertFn buffer).
Proof.
  intros Hins. unfold flushM.
  apply txOnly_bind; [by apply txOnly_forEach_ | intros _; apply txOnly_ret].
Qed.

Create HintDb txonly.

#[local] Hint Resolve txOnly_ret txOnly_throw txOnly_parse txOnly_log
  txOnly_progressCheck : txonly.
#[local] Hint Extern 2 (txOnly _ (mbind _ _)) =>
  apply txOnly_bind; [|intros ?] : txonly.
#[local] Hint Extern 2 (txOnly _ (if _ then _ else _)) =>
  apply txOnly_if : txonly.
#[local] Hint Extern 2 (txOnly _ (track _ _)) => apply txOnly_track : txonly.
#[local] Hint Extern 2 (txOnly _ (exec Tx _)) =>
  apply txOnly_exec; reflexivity : txonly.
#[local] Hint Extern 2 (txOnly _ (forEach_ _ _)) =>
  apply txOnly_forEach_; intros ? : txonly.
#[local] Hint Extern 2 (txOnly _ (forEach _ _ _)) =>
  apply txOnly_forEach; intros ? ? : txonly.
#[local] Hint Extern 2 (txOnly _ (pushM _ _ _ _)) =>
  apply txOnly_pushM; intros ? : txonly.
#[local] Hint Extern 2 (txOnly _ (flushM _ _)) =>
  apply txOnly_flushM; intros ? : txonly.

Ltac tx_only := auto 40 with txonly.

Lemma txOnly_burnBlockEvent tsvEntityData last event :
  txOnly BurnBlocks (burnBlockEvent tsvEntityData last event).
Proof. unfold burnBlockEvent. tx_only. Qed.

Lemma txOnly_attachmentEvent tsvEntityData last event :
  txOnly Attachments (attachmentEvent tsvEntityData last event).
Proof. unfold attachmentEvent. tx_only. Qed.

Lemma txOnly_rawEvent tsvEntityData last event :
  txOnly RawEvents (rawEvent tsvEntityData last event).
Proof. unfold rawEvent. tx_only. Qed.

Lemma txOnly_txEntry buffers entry : txOnly NewBlocks (txEntry buffers entry).
Proof.
  unfold txEntry, processStxEvents, dbTxInsertFn, dbPrincipalStxTxInsertFn.
  tx_only.
Qed.

Lemma txOnly_newBlockEvent chainID tsvEntityData st event :
  txOnly NewBlocks (newBlockEvent chainID tsvEntityData st event).
Proof.
  unfold newBlockEvent.
  pose proof txOnly_txEntry. tx_only.
Qed.

Lemma txOnly_phaseInserts p chainID tsvEntityData file :
  txOnly p (phaseInserts p chainID tsvEntityData file).
Proof.
  pose proof txOnly_burnBlockEvent. pose proof txOnly_attachmentEvent.
  pose proof txOnly_rawEvent. pose proof txOnly_newBlockEvent.
  destruct p; simpl;
    unfold burnBlockInserts, attachmentInserts, rawEventInserts,
      newBlockInserts, dbTxInsertFn, dbPrincipalStxTxInsertFn;
    tx_only.
Qed.

(** *** The transaction frame *)

Lemma toggle_txEvent p tables enabled :
  head tables ≫= tablePhase = Some p ->
  txEvent p (EvCmd Tx (toggleTableIndexes tables enabled)).
Proof. done. Qed.

Lemma phaseTables_phase p : head (phaseTables p) ≫= tablePhase = Some p.
Proof. by destruct p. Qed.

Lemma exec_trace h c w : trace (exec h c w).2 = trace w ++ [EvCmd h c].
Proof.
  unfold exec. destruct h.
  - by destruct (dbApply (clock w) c (committed w)).
  - destruct (pending w) as [s|]; [|done].
    by destruct (dbApply (clock w) c s).
Qed.

(** The callback of [bulkTransaction], run with a transaction open. *)
Lemma callback_trace p tables inserts w :
  txOnly p inserts -> head tables ≫= tablePhase = Some p ->
  is_Some (pending w) ->
  let r := (exec Tx (toggleTableIndexes tables false);;
            inserts;;
            exec Tx (toggleTableIndexes tables true)) w in
  committed r.2 = committed w
  /\ exists evs,
      Forall (txEvent p) evs
      /\ match r.1 with
         | inr _ =>
             trace r.2
             = trace w ++ EvCmd Tx (toggleTableIndexes tables false) :: evs
                 ++ [EvCmd Tx (toggleTableIndexes tables true)]
             /\ exists w1, (inserts w1).1 = inr tt
         | inl _ =>
             trace r.2
             = trace w ++ EvCmd Tx (toggleTableIndexes tables false) :: evs
         end.
Proof.
  intros Hins Htab Hpend. cbv zeta.
  destruct ((exec Tx (toggleTableIndexes tables false);;
             inserts;;
             exec Tx (toggleTableIndexes tables true)) w) as [r w'] eqn:Hrun.
  cbn [fst snd]. rewrite bind_unfold in Hrun.
  pose proof (exec_trace Tx (toggleTableIndexes tables false) w) as Ht0.
  destruct (txOnly_exec p (toggleTableIndexes tables false) Htab w)
    as (Hc0 & Hp0 & _).
  destruct (exec Tx (toggleTableIndexes tables false) w) as [[e|[]] w1];
    cbn [fst snd] in *.
  { injection Hrun as <- <-. split; [done|]. exists []. by split. }
  rewrite bind_unfold in Hrun.
  destruct (Hins w1) as (Hc1 & Hp1 & evs1 & Ht1 & Hevs1).
  destruct (inserts w1) as [[e|[]] w2] eqn:Hi; cbn [fst snd] in *.
  { injection Hrun as <- <-. split; [congruence|]. exists evs1.
    split; [done|]. by rewrite Ht1, Ht0, <- app_assoc. }
  pose proof (exec_trace Tx (toggleTableIndexes tables true) w2) as Ht2.
  destruct (txOnly_exec p (toggleTableIndexes tables true) Htab w2)
    as (Hc2 & _ & _).
  rewrite Hrun in Ht2, Hc2. cbn [fst snd] in *.
  split; [congruence|].
  destruct r as [e|a].
  - exists (evs1 ++ [EvCmd Tx (toggleTableIndexes tables true)]). split.
    + apply Forall_app. split; [done|]. by repeat constructor.
    + by rewrite Ht2, Ht1, Ht0, <- !app_assoc.
  - exists evs1. split; [done|]. split.
    + by rewrite Ht2, Ht1, Ht0, <- !app_assoc.
    + exists w1. by rewrite Hi.
Qed.

Lemma bulkTransaction_trace p tables inserts w :
  txOnly p inserts -> head tables ≫= tablePhase = Some p ->
  let r := bulkTransaction tables inserts w in
  pending r.2 = None
  /\ exists evs,
      Forall (txEvent p) evs
      /\ match r.1 with
         | inr _ =>
             trace r.2
             = trace w ++ EvBegin :: EvCmd Tx (toggleTableIndexes tables false)
                 :: evs ++ [EvCmd Tx (toggleTableIndexes tables true); EvCommit]
             /\ exists w1, (inserts w1).1 = inr tt
         | inl _ =>
             trace r.2
             = trace w ++ EvBegin :: EvCmd Tx (toggleTableIndexes tables false)
                 :: evs ++ [EvRollback]
             /\ committed r.2 = committed w
         end.
Proof.
  intros Hins Htab. cbv zeta. unfold bulkTransaction, begin.
  set (w0 := {| committed := committed w; pending := Some (committed w) |}).
  destruct (callback_trace p tables inserts w0 Hins Htab) as (Hc & evs & Hevs & Ht);
    [by eexists|].
  cbv zeta in Hc, Ht.
  destruct ((exec Tx (toggleTableIndexes tables false);;
             inserts;;
             exec Tx (toggleTableIndexes tables true)) w0) as [[e|a] w1];
    simpl in *.
  - split; [done|]. exists evs. split; [done|]. split; [|done].
    rewrite Ht. rewrite <- !app_assoc. done.
  - destruct Ht as [Ht Hok]. split; [done|]. exists evs. split; [done|].
    split; [|done]. rewrite Ht. rewrite <- !app_assoc. simpl.
    by rewrite <- !app_assoc.
Qed.

(** *** A record that does not decode stops its phase *)

Lemma forEach_inr {A S} (body : S -> A -> M S) (D : A -> Prop) :
  (forall s x w s' w', body s x w = (inr s', w') -> D x) ->
  forall xs s w s' w', forEach body s xs w = (inr s', w') -> Forall D xs.
Proof.
  intros Hbody xs. induction xs as [|x xs IH]; intros s w s' w' Hrun.
  - constructor.
  - simpl in Hrun. rewrite bind_unfold in Hrun.
    destruct (body s x w) as [[e|s1] w1] eqn:Hb; [done|].
    constructor; [by eapply Hbody | by eapply IH].
Qed.

Lemma parse_bind_inr {A B} (r : option A) (f : A -> M B) w b w' :
  (parse r ≫= f) w = (inr b, w') -> exists a, r = Some a /\ f a w = (inr b, w').
Proof.
  rewrite bind_unfold. destruct r as [a|]; simpl; [|done].
  intros Hf. by exists a.
Qed.

Lemma burnBlockEvent_inr chainID tsvEntityData last event w s' w' :
  burnBlockEvent tsvEntityData last event w = (inr s', w') ->
  decodes BurnBlocks chainID event.
Proof.
  unfold burnBlockEvent.
  intros (msg & Hmsg & (data & Hdata & _)%parse_bind_inr)%parse_bind_inr.
  simpl. rewrite Hmsg. simpl. by rewrite Hdata.
Qed.

Lemma attachmentEvent_inr chainID tsvEntityData last event w s' w' :
  attachmentEvent tsvEntityData last event w = (inr s', w') ->
  decodes Attachments chainID event.
Proof.
  unfold attachmentEvent.
  intros (msg & Hmsg & (data & Hdata & _)%parse_bind_inr)%parse_bind_inr.
  simpl. rewrite Hmsg. simpl. by rewrite Hdata.
Qed.

Lemma newBlockEvent_inr chainID tsvEntityData st event w s' w' :
  newBlockEvent chainID tsvEntityData st event w = (inr s', w') ->
  decodes NewBlocks chainID event.
Proof.
  unfold newBlockEvent.
  intros (msg & Hmsg & (data & Hdata & _)%parse_bind_inr)%parse_bind_inr.
  simpl. rewrite Hmsg. simpl. by rewrite Hdata.
Qed.

Lemma bind_inr {A B} (m : M A) (f : A -> M B) w b w' :
  (m ≫= f) w = (inr b, w') ->
  exists a w1, m w = (inr a, w1) /\ f a w1 = (inr b, w').
Proof.
  rewrite bind_unfold. destruct (m w) as [[e|a] w1]; [done|].
  intros Hf. by exists a, w1.
Qed.

Lemma phaseInserts_inr p chainID tsvEntityData file w :
  (phaseInserts p chainID tsvEntityData file w).1 = inr tt ->
  Forall (decodes p chainID) (phaseRecords p file).
Proof.
  destruct (phaseInserts p chainID tsvEntityData file w) as [r w'] eqn:Hrun.
  simpl. intros ->. destruct p; simpl in Hrun.
  - apply bind_inr in Hrun as (s1 & w1 & Hloop & _).
    eapply forEach_inr; [|exact Hloop].
    intros ?????. by apply burnBlockEvent_inr.
  - apply bind_inr in Hrun as (s1 & w1 & Hloop & _).
    eapply forEach_inr; [|exact Hloop].
    intros ?????. by apply attachmentEvent_inr.
  - apply Forall_true. done.
  - apply bind_inr in Hrun as (s1 & w1 & Hloop & _).
    eapply forEach_inr; [|exact Hloop].
    intros ?????. by apply newBlockEvent_inr.
Qed.

(** *** Events of a given kind *)

(** Every event a computation adds to the trace satisfies [P]. *)
Definition emits (P : Event -> Prop) {A} (m : M A) : Prop :=
  forall w, exists evs, trace (m w).2 = trace w ++ evs /\ Forall P evs.

Lemma emits_ret P {A} (a : A) : emits P (mret a : M A).
Proof. intros w. exists []. simpl. by rewrite app_nil_r. Qed.

Lemma emits_bind P {A B} (m : M A) (f : A -> M B) :
  emits P m -> (forall a, emits P (f a)) -> emits P (m ≫= f).
Proof.
  intros Hm Hf w. rewrite bind_unfold.
  destruct (Hm w) as (evs & Ht & Hevs).
  destruct (m w) as [[e|a] w1]; simpl in *; [by exists evs|].
  destruct (Hf a w1) as (evs' & Ht' & Hevs').
  exists (evs ++ evs'). split; [by rewrite Ht', Ht, app_assoc|].
  by apply Forall_app.
Qed.

Lemma emits_exec (P : Event -> Prop) h c : P (EvCmd h c) -> emits P (exec h c).
Proof.
  intros Hc w. exists [EvCmd h c]. split; [apply exec_trace|].
  by repeat constructor.
Qed.

Lemma emits_progressCheck (P : Event -> Prop) label tsvEntityData last event :
  (forall l, P (EvLog l)) ->
  emits P (progressCheck label tsvEntityData last event).
Proof.
  intros HP w. unfold progressCheck, Progress.statusUpdate.
  destruct (Progress.gt _ _); simpl.
  - eexists [_]. split; [done|]. by repeat constructor.
  - exists []. by rewrite app_nil_r.
Qed.

Definition isLog (e : Event) : bool :=
  match e with EvLog _ => true | _ => false end.

Definition isRewardsCmd (e : Event) : bool :=
  match e with EvCmd _ (updateBurnchainRewards _ _ _) => true | _ => false end.

Definition isSlotHoldersCmd (e : Event) : bool :=
  match e with
  | EvCmd _ (updateBurnchainRewardSlotHolders _ _ _) => true
  | _ => false
  end.

(** The progress check touches neither store. *)
Lemma progressCheck_stores label tsvEntityData last event w :
  committed (progressCheck label tsvEntityData last event w).2 = committed w
  /\ pending (progressCheck label tsvEntityData last event w).2 = pending w.
Proof.
  unfold progressCheck, Progress.statusUpdate. by destruct (Progress.gt _ _).
Qed.

(** *** The monitor *)

Lemma monitor_app m xs ys :
  monitor m (xs ++ ys) = monitor m xs ≫= fun m' => monitor m' ys.
Proof.
  revert m. induction xs as [|x xs IH]; intros m; simpl; [done|].
  destruct (monitorStep m x) as [m1|]; simpl; [apply IH | done].
Qed.

Lemma monitor_txEvents p evs :
  Forall (txEvent p) evs ->
  monitor (Running (phaseIndex p) true) evs
  = Some (Running (phaseIndex p) true).
Proof.
  induction 1 as [|e evs He _ IH]; [done|].
  simpl. destruct e as [| | |[|] c|l]; simpl in He; try done.
  rewrite He. rewrite decide_True by done. exact IH.
Qed.

Lemma monitor_poolEvents p evs :
  Forall (poolEvent p) evs ->
  monitor (Running (S (phaseIndex p)) false) evs
  = Some (Running (S (phaseIndex p)) false).
Proof.
  induction 1 as [|e evs He _ IH]; [done|].
  simpl. destruct e as [| | |[|] c|l]; simpl in He; try done.
  rewrite He. rewrite decide_True by done. exact IH.
Qed.

Lemma monitor_cons m e evs :
  monitor m (e :: evs) = monitorStep m e ≫= fun m' => monitor m' evs.
Proof. reflexivity. Qed.

(** What an accepted trace tells about a prefix of it. *)
Lemma monitor_running k0 b0 evs k b :
  monitor (Running k0 b0) evs = Some (Running k b) ->
  k = k0 + commitCount evs /\ EvRollback ∉ evs.
Proof.
  revert k0 b0. induction evs as [|e evs IH]; intros k0 b0 Hm.
  - injection Hm as <- <-. split; [unfold commitCount; simpl; lia|].
    apply not_elem_of_nil.
  - rewrite monitor_cons in Hm.
    destruct (monitorStep (Running k0 b0) e) as [m1|] eqn:Hstep;
      simpl in Hm; [|done].
    destruct m1 as [k1 b1|]; [|by destruct evs; simpl in Hm].
    apply IH in Hm as [-> Hnr].
    destruct e as [| | |h c|l], b0; simpl in Hstep; try done.
    + injection Hstep as <- <-. split; [done|].
      intros [?|?]%elem_of_cons; done.
    + injection Hstep as <- <-. split; [unfold commitCount; simpl; lia|].
      intros [?|?]%elem_of_cons; done.
    + assert (k1 = k0) as ->.
      { destruct h; [done|]. destruct (cmdPhase c); [|done].
        destruct (decide _); [|done]. by injection Hstep. }
      split; [done|]. intros [?|?]%elem_of_cons; done.
    + assert (k1 = k0) as ->.
      { destruct h; [|done]. destruct (cmdPhase c).
        - destruct (decide _); [|done]. by injection Hstep.
        - by injection Hstep. }
      split; [done|]. intros [?|?]%elem_of_cons; done.
    + injection Hstep as <- <-. split; [done|].
      intros [?|?]%elem_of_cons; done.
    + injection Hstep as <- <-. split; [done|].
      intros [?|?]%elem_of_cons; done.
Qed.

Lemma monitor_tx_command evs pre c post m :
  monitor (Running 0 false) evs = Some m ->
  evs = pre ++ EvCmd Tx c :: post ->
  exists p, cmdPhase c = Some p
            /\ commitCount pre = phaseIndex p
            /\ EvRollback ∉ pre.
Proof.
  intros Hm ->. rewrite monitor_app in Hm.
  destruct (monitor (Running 0 false) pre) as [m1|] eqn:Hpre;
    cbn [mbind option_bind] in Hm; [|done].
  rewrite monitor_cons in Hm.
  destruct (monitorStep m1 (EvCmd Tx c)) as [m2|] eqn:Hstep;
    cbn [mbind option_bind] in Hm; [|done].
  destruct m1 as [k [|]|]; simpl in Hstep; try done.
  destruct (cmdPhase c) as [p|]; [|done].
  destruct (decide (phaseIndex p = k)) as [<-|]; [|done].
  apply monitor_running in Hpre as [Hk Hnr].
  exists p. split; [done|]. split; [lia | done].
Qed.

(** *** One phase after the other *)

Lemma poolOnly_reindexTables p tables :
  Forall (fun t => tablePhase t = Some p) tables ->
  emits (poolEvent p) (reindexTables tables).
Proof.
  intros Htabs. unfold reindexTables, forEach_.
  induction Htabs as [|t tables Ht _ IH]; simpl.
  - apply emits_ret.
  - apply emits_bind; [|intros []; exact IH].
    by apply emits_exec.
Qed.

Lemma phaseTables_tablePhase p :
  Forall (fun t => tablePhase t = Some p) (phaseTables p).
Proof. destruct p; by repeat constructor. Qed.

(** A phase as the importer runs it: its transaction, then the reindex
    of its tables. *)
Definition insertPhase (p : Phase) (chainID : ChainID)
    (tsvEntityData : TsvEntityData) (file : list PreorgRecord) : M unit :=
  phaseTransaction p chainID tsvEntityData file;;
  reindexTables (phaseTables p).

Lemma monitor_committed p body :
  Forall (txEvent p) body ->
  monitor (Running (phaseIndex p) false) (EvBegin :: body ++ [EvCommit])
  = Some (Running (S (phaseIndex p)) false).
Proof.
  intros Hbody. rewrite monitor_cons. cbn [monitorStep mbind option_bind].
  by rewrite monitor_app, monitor_txEvents.
Qed.

Lemma monitor_rolledback p body :
  Forall (txEvent p) body ->
  monitor (Running (phaseIndex p) false) (EvBegin :: body ++ [EvRollback])
  = Some Aborted.
Proof.
  intros Hbody. rewrite monitor_cons. cbn [monitorStep mbind option_bind].
  by rewrite monitor_app, monitor_txEvents.
Qed.

Lemma insertPhase_monitor p chainID tsvEntityData file w :
  monitor (Running 0 false) (trace w) = Some (Running (phaseIndex p) false) ->
  let r := insertPhase p chainID tsvEntityData file w in
  match r.1 with
  | inr _ =>
      monitor (Running 0 false) (trace r.2)
      = Some (Running (S (phaseIndex p)) false)
  | inl _ => is_Some (monitor (Running 0 false) (trace r.2))
  end.
Proof.
  intros Hw. cbv zeta. unfold insertPhase, phaseTransaction.
  rewrite bind_unfold.
  destruct (bulkTransaction_trace p (phaseTables p)
              (phaseInserts p chainID tsvEntityData file) w
              (txOnly_phaseInserts p chainID tsvEntityData file)
              (phaseTables_phase p)) as (_ & evs & Hevs & Ht).
  cbv zeta in Ht.
  pose proof (toggle_txEvent p (phaseTables p) false (phaseTables_phase p))
    as Hoff.
  pose proof (toggle_txEvent p (phaseTables p) true (phaseTables_phase p))
    as Hon.
  destruct (bulkTransaction (phaseTables p)
              (phaseInserts p chainID tsvEntityData file) w)
    as [[e|[]] w1]; cbn [fst snd] in *.
  - destruct Ht as [Ht _]. rewrite Ht, monitor_app, Hw.
    cbn [mbind option_bind].
    pose proof (monitor_rolledback p
                  (EvCmd Tx (toggleTableIndexes (phaseTables p) false) :: evs))
      as Hrb.
    cbn [app] in Hrb. rewrite Hrb; [by eexists | by constructor].
  - destruct Ht as [Ht _].
    assert (Hw1 : monitor (Running 0 false) (trace w1)
                  = Some (Running (S (phaseIndex p)) false)).
    { rewrite Ht, monitor_app, Hw. cbn [mbind option_bind].
      replace (EvBegin :: EvCmd Tx (toggleTableIndexes (phaseTables p) false)
                 :: evs ++ [EvCmd Tx (toggleTableIndexes (phaseTables p) true);
                            EvCommit])
        with (EvBegin :: (EvCmd Tx (toggleTableIndexes (phaseTables p) false)
                 :: evs ++ [EvCmd Tx (toggleTableIndexes (phaseTables p) true)])
                 ++ [EvCommit])
        by (simpl; by rewrite <- app_assoc).
      apply monitor_committed. constructor; [done|].
      apply Forall_app. split; [done|]. by repeat constructor. }
    destruct (poolOnly_reindexTables p (phaseTables p)
                (phaseTables_tablePhase p) w1) as (revs & Htr & Hrevs).
    assert (Hw2 : monitor (Running 0 false)
                    (trace (reindexTables (phaseTables p) w1).2)
                  = Some (Running (S (phaseIndex p)) false)).
    { rewrite Htr, monitor_app, Hw1. cbn [mbind option_bind].
      by apply monitor_poolEvents. }
    destruct (reindexTables (phaseTables p) w1) as [[e|[]] w2];
      cbn [fst snd] in *; [by eexists | done].
Qed.

(** A computation that takes the monitor from [k] committed
    transactions to [k'], or stops with an error on a trace the monitor
    still accepts. *)
Definition steps (k k' : nat) {A} (m : M A) : Prop :=
  forall w,
    monitor (Running 0 false) (trace w) = Some (Running k false) ->
    match (m w).1 with
    | inr _ =>
        monitor (Running 0 false) (trace (m w).2) = Some (Running k' false)
    | inl _ => is_Some (monitor (Running 0 false) (trace (m w).2))
    end.

Lemma steps_bind k k1 k2 {A B} (m : M A) (f : A -> M B) :
  steps k k1 m -> (forall a, steps k1 k2 (f a)) -> steps k k2 (m ≫= f).
Proof.
  intros Hm Hf w Hw. rewrite bind_unfold.
  specialize (Hm w Hw).
  destruct (m w) as [[e|a] w1]; cbn [fst snd] in *; [done|].
  by apply Hf.
Qed.

Lemma steps_showSetting name : steps 0 0 (exec Pool (showSetting name)).
Proof.
  intros w Hw.
  assert (Hm : monitor (Running 0 false)
                 (trace (exec Pool (showSetting name) w).2)
               = Some (Running 0 false)).
  { by rewrite exec_trace, monitor_app, Hw. }
  destruct (exec Pool (showSetting name) w) as [[e|[]] w1];
    cbn [fst snd] in *; [by eexists | done].
Qed.

Lemma steps_insertPhase p chainID tsvEntityData file :
  steps (phaseIndex p) (S (phaseIndex p))
        (insertPhase p chainID tsvEntityData file).
Proof. intros w Hw. by apply insertPhase_monitor. Qed.

Lemma steps_insertEventData chainID tsvEntityData file :
  steps 0 4 (insertEventData chainID tsvEntityData file).
Proof.
  unfold insertEventData.
  apply (steps_bind 0 0); [apply steps_showSetting | intros _].
  apply (steps_bind 0 0); [apply steps_showSetting | intros _].
  apply (steps_bind 0 1);
    [apply (steps_insertPhase BurnBlocks chainID) | intros _].
  apply (steps_bind 1 2);
    [apply (steps_insertPhase Attachments chainID) | intros _].
  apply (steps_bind 2 3);
    [apply (steps_insertPhase RawEvents chainID) | intros _].
  apply (steps_insertPhase NewBlocks chainID).
Qed.

(** *** The progress entries of a phase *)

Lemma emits_throw P {A} e : emits P (throw e : M A).
Proof. intros w. exists []. simpl. by rewrite app_nil_r. Qed.

Lemma emits_parse P {A} (r : option A) : emits P (parse r).
Proof. destruct r; [apply emits_ret | apply emits_throw]. Qed.

Lemma emits_log (P : Event -> Prop) l : P (EvLog l) -> emits P (log l).
Proof.
  intros Hl w. exists [EvLog l]. split; [done|]. by repeat constructor.
Qed.

Lemma emits_if P {A} (b : bool) (m1 m2 : M A) :
  emits P m1 -> emits P m2 -> emits P (if b then m1 else m2).
Proof. by destruct b. Qed.

Lemma emits_forEach P {A S} (body : S -> A -> M S) xs s :
  (forall s x, emits P (body s x)) -> emits P (forEach body s xs).
Proof.
  intros Hbody. revert s.
  induction xs as [|x xs IH]; intros s; simpl.
  - apply emits_ret.
  - apply emits_bind; [apply Hbody | intros s'; apply IH].
Qed.

Lemma emits_forEach_ P {A} (body : A -> M unit) xs :
  (forall x, emits P (body x)) -> emits P (forEach_ body xs).
Proof. intros Hbody. apply emits_forEach. intros _ x. apply Hbody. Qed.

Lemma emits_pushM P {T} n (insertFn : list T -> M unit) entries buffer :
  (forall es, emits P (insertFn es)) ->
  emits P (pushM n insertFn entries buffer).
Proof.
  intros Hins. unfold pushM.
  apply emits_bind; [by apply emits_forEach_ | intros _; apply emits_ret].
Qed.

Lemma emits_flushM P {T} (insertFn : list T -> M unit) buffer :
  (forall es, emits P (insertFn es)) ->
  emits P (flushM insertFn buffer).
Proof.
  intros Hins. unfold flushM.
  apply emits_bind; [by apply emits_forEach_ | intros _; apply emits_ret].
Qed.

(** The percentage of a progress log line. *)
Definition loggedPercent (e : Event) : option Progress.Number :=
  match e with
  | EvLog (LogProgress _ percent _ _) => Some percent
  | _ => None
  end.

Definition progressEntries (evs : list Event) : list Progress.Number :=
  omap loggedPercent evs.

(** A computation that writes no progress line. *)
Definition silent {A} (m : M A) : Prop :=
  emits (fun e => loggedPercent e = None) m.

Create HintDb silent.

#[local] Hint Resolve emits_ret emits_throw emits_parse : silent.
#[local] Hint Extern 2 (emits _ (mbind _ _)) =>
  apply emits_bind; [|intros ?] : silent.
#[local] Hint Extern 2 (emits _ (if _ then _ else _)) =>
  apply emits_if : silent.
#[local] Hint Extern 2 (emits _ (track _ _)) => unfold track : silent.
#[local] Hint Extern 2 (emits _ (exec _ _)) =>
  apply emits_exec; reflexivity : silent.
#[local] Hint Extern 2 (emits _ (log (LogInfo _))) =>
  apply emits_log; reflexivity : silent.
#[local] Hint Extern 2 (emits _ (forEach_ _ _)) =>
  apply emits_forEach_; intros ? : silent.
#[local] Hint Extern 2 (emits _ (forEach _ _ _)) =>
  apply emits_forEach; intros ? ? : silent.
#[local] Hint Extern 2 (emits _ (pushM _ _ _ _)) =>
  apply emits_pushM; intros ? : silent.
#[local] Hint Extern 2 (emits _ (flushM _ _)) =>
  apply emits_flushM; intros ? : silent.

Ltac silence := unfold silent; auto 40 with silent.

Lemma progressEntries_app xs ys :
  progressEntries (xs ++ ys) = progressEntries xs ++ progressEntries ys.
Proof. apply omap_app. Qed.

Lemma progressEntries_silent evs :
  Forall (fun e => loggedPercent e = None) evs -> progressEntries evs = [].
Proof.
  induction 1 as [|e evs He _ IH]; [done|].
  unfold progressEntries in *. simpl. by rewrite He.
Qed.

Definition percentOf (tsvEntityData : TsvEntityData) (event : PreorgRecord)
  : Progress.Number :=
  Progress.percent (readLineCount event) (tsvLineCount tsvEntityData).

(** A loop body that reports the progress of its record: when it
    returns, the progress lines it wrote and the [lastStatusUpdatePercent]
    it leaves are those of one run of the check; when it throws it has
    written none. *)
Definition reports {S} (tsvEntityData : TsvEntityData) (getLast : S -> Progress.Number)
    (last : Progress.Number) (event : PreorgRecord) (m : M S) : Prop :=
  forall w, exists evs,
    trace (m w).2 = trace w ++ evs
    /\ let st := Progress.statusUpdate (Progress.mkStatus last [])
                   (percentOf tsvEntityData event) in
       match (m w).1 with
       | inl _ => progressEntries evs = []
       | inr s' =>
           progressEntries evs = Progress.logged st
           /\ getLast s' = Progress.lastStatusUpdatePercent st
       end.

Lemma reports_progressCheck label tsvEntityData last event :
  reports tsvEntityData id last event
          (progressCheck label tsvEntityData last event).
Proof.
  intros w. unfold progressCheck, percentOf, Progress.statusUpdate.
  destruct (Progress.gt _ _); simpl.
  - eexists [_]. by split.
  - exists []. by rewrite app_nil_r.
Qed.

Lemma reports_bind_silent {A S} tsvEntityData (getLast : S -> Progress.Number) last event
    (m : M A) (f : A -> M S) :
  silent m ->
  (forall a, reports tsvEntityData getLast last event (f a)) ->
  reports tsvEntityData getLast last event (m ≫= f).
Proof.
  intros Hm Hf w. rewrite bind_unfold.
  destruct (Hm w) as (evs & Ht & Hevs%progressEntries_silent).
  destruct (m w) as [[e|a] w1]; cbn [fst snd] in *; [by exists evs|].
  destruct (Hf a w1) as (evs' & Ht' & Hrep).
  exists (evs ++ evs'). split; [by rewrite Ht', Ht, app_assoc|].
  rewrite progressEntries_app, Hevs. exact Hrep.
Qed.

Lemma reports_with {S} tsvEntityData last event (m : M Progress.Number)
    (h : Progress.Number -> S)
    (getLast : S -> Progress.Number) :
  (forall l, getLast (h l) = l) ->
  reports tsvEntityData id last event m ->
  reports tsvEntityData getLast last event (l ← m; mret (h l)).
Proof.
  intros Hh Hm w. rewrite bind_unfold.
  destruct (Hm w) as (evs & Ht & Hrep).
  destruct (m w) as [[e|l] w1]; cbn [fst snd] in *; exists evs; [done|].
  simpl. split; [done|]. destruct Hrep as [Hlog Hlast].
  split; [done|]. by rewrite Hh.
Qed.

Lemma reports_burnBlockEvent tsvEntityData last event :
  reports tsvEntityData id last event
          (burnBlockEvent tsvEntityData last event).
Proof.
  unfold burnBlockEvent.
  repeat (apply reports_bind_silent; [by silence | intros ?]).
  apply reports_progressCheck.
Qed.

Lemma reports_attachmentEvent tsvEntityData last event :
  reports tsvEntityData id last event
          (attachmentEvent tsvEntityData last event).
Proof.
  unfold attachmentEvent.
  repeat (apply reports_bind_silent; [by silence | intros ?]).
  apply reports_progressCheck.
Qed.

Lemma reports_rawEvent tsvEntityData last event :
  reports tsvEntityData id last event (rawEvent tsvEntityData last event).
Proof.
  unfold rawEvent.
  repeat (apply reports_bind_silent; [by silence | intros ?]).
  apply reports_progressCheck.
Qed.

Lemma silent_txEntry buffers entry : silent (txEntry buffers entry).
Proof.
  unfold txEntry, processStxEvents, dbTxInsertFn, dbPrincipalStxTxInsertFn.
  silence.
Qed.

Lemma reports_newBlockEvent chainID tsvEntityData st event :
  reports tsvEntityData fst st.1 event
          (newBlockEvent chainID tsvEntityData st event).
Proof.
  unfold newBlockEvent. pose proof silent_txEntry as Htx. unfold silent in Htx.
  do 5 (apply reports_bind_silent; [by silence | intros ?]).
  apply (reports_with _ _ _ _ (fun l => (l, _))); [done|].
  apply reports_progressCheck.
Qed.

(** The loop over the records of a phase. *)
Lemma forEach_reports {S} tsvEntityData (getLast : S -> Progress.Number)
    (body : S -> PreorgRecord -> M S) :
  (forall s event, reports tsvEntityData getLast (getLast s) event (body s event)) ->
  forall events s w,
  exists tr processed,
    trace (forEach body s events w).2 = trace w ++ tr
    /\ processed `prefix_of` events
    /\ let st := Progress.statusLoop (Progress.mkStatus (getLast s) [])
                   (percentOf tsvEntityData <$> processed) in
       progressEntries tr = Progress.logged st
       /\ match (forEach body s events w).1 with
          | inr s' =>
              processed = events
              /\ getLast s' = Progress.lastStatusUpdatePercent st
          | inl _ => True
          end.
Proof.
  intros Hbody events.
  induction events as [|event events IH]; intros s w.
  - exists [], []. simpl. rewrite app_nil_r. by repeat split.
  - cbn [forEach]. rewrite bind_unfold.
    destruct (Hbody s event w) as (evs1 & Ht1 & Hrep).
    destruct (body s event w) as [[e|s1] w1]; cbn [fst snd] in *.
    + exists evs1, []. split; [done|]. split; [apply prefix_nil|].
      by split.
    + destruct Hrep as [Hlog1 Hlast1].
      destruct (IH s1 w1) as (tr & processed & Ht & Hpre & Hlog & Hres).
      exists (evs1 ++ tr), (event :: processed).
      split; [by rewrite Ht, Ht1, app_assoc|].
      split; [by apply prefix_cons|].
      cbv zeta in *. rewrite fmap_cons.
      rewrite Progress.statusLoop_cons. cbv zeta. cbn [Progress.logged
        Progress.lastStatusUpdatePercent].
      rewrite Hlast1 in Hlog, Hres.
      split; [by rewrite progressEntries_app, Hlog1, Hlog|].
      destruct ((forEach body s1 events w1).1); [done|].
      destruct Hres as [-> Hlast]. by split.
Qed.

(** The progress lines of a computation are the progress log of the
    records it has processed, which are all its records when it
    returns. *)
Definition reportsAll (tsvEntityData : TsvEntityData)
    (events : list PreorgRecord) {A} (m : M A) : Prop :=
  forall w, exists tr processed,
    trace (m w).2 = trace w ++ tr
    /\ processed `prefix_of` events
    /\ progressEntries tr
       = Progress.progressLog (tsvLineCount tsvEntityData)
                              (readLineCount <$> processed)
    /\ (forall a, (m w).1 = inr a -> processed = events).

Lemma progressLog_percentOf tsvEntityData processed :
  Progress.progressLog (tsvLineCount tsvEntityData)
                       (readLineCount <$> processed)
  = Progress.logged
      (Progress.statusLoop (Progress.mkStatus (Progress.ofZ 0) [])
                           (percentOf tsvEntityData <$> processed)).
Proof.
  unfold Progress.progressLog, Progress.progressStatus.
  by rewrite <- list_fmap_compose.
Qed.

Lemma reportsAll_loop {S B} tsvEntityData (getLast : S -> Progress.Number)
    (body : S -> PreorgRecord -> M S) events s (k : S -> M B) :
  getLast s = Progress.ofZ 0 ->
  (forall s event, reports tsvEntityData getLast (getLast s) event (body s event)) ->
  (forall s', silent (k s')) ->
  reportsAll tsvEntityData events (forEach body s events ≫= k).
Proof.
  intros Hs Hbody Hk w. rewrite bind_unfold.
  destruct (forEach_reports tsvEntityData getLast body Hbody events s w)
    as (tr & processed & Ht & Hpre & Hlog & Hres).
  cbv zeta in *. rewrite Hs in Hlog.
  destruct (forEach body s events w) as [[e|s1] w1]; cbn [fst snd] in *.
  - exists tr, processed. split; [done|]. split; [done|].
    split; [by rewrite progressLog_percentOf | done].
  - destruct Hres as [-> _].
    destruct (Hk s1 w1) as (evs & Htk & Hevs%progressEntries_silent).
    exists (tr ++ evs), events. split; [by rewrite Htk, Ht, app_assoc|].
    split; [done|]. split; [|done].
    by rewrite progressEntries_app, Hevs, app_nil_r, progressLog_percentOf.
Qed.

Lemma reportsAll_phaseInserts p chainID tsvEntityData file :
  reportsAll tsvEntityData (phaseRecords p file)
             (phaseInserts p chainID tsvEntityData file).
Proof.
  destruct p; simpl.
  - apply (reportsAll_loop tsvEntityData id); [done | | intros; silence].
    intros s event. apply reports_burnBlockEvent.
  - apply (reportsAll_loop tsvEntityData id); [done | | intros; silence].
    intros s event. apply reports_attachmentEvent.
  - apply (reportsAll_loop tsvEntityData id); [done | | intros; silence].
    intros s event. apply reports_rawEvent.
  - apply (reportsAll_loop tsvEntityData fst); [done | |].
    + intros s event. apply reports_newBlockEvent.
    + intros s'. unfold dbTxInsertFn, dbPrincipalStxTxInsertFn. silence.
Qed.

(** *** What a successful computation has issued *)

(** The part of a trace that a projection selects. *)
Definition selected {X} (pi : Event -> list X) (evs : list Event) : list X :=
  flat_map pi evs.

(** When the computation returns, it has added [xs] to the selected part
    of the trace. *)
Definition yields {X A} (pi : Event -> list X) (xs : list X) (m : M A)
  : Prop :=
  forall w,
    match (m w).1 with
    | inr _ => selected pi (trace (m w).2) = selected pi (trace w) ++ xs
    | inl _ => True
    end.

Lemma selected_app {X} (pi : Event -> list X) xs ys :
  selected pi (xs ++ ys) = selected pi xs ++ selected pi ys.
Proof. apply flat_map_app. Qed.

Lemma yields_ret {X A} (pi : Event -> list X) (a : A) :
  yields pi [] (mret a : M A).
Proof. intros w. simpl. by rewrite app_nil_r. Qed.

Lemma yields_throw_bind {X A B} (pi : Event -> list X) xs e (k : A -> M B) :
  yields pi xs (throw e ≫= k).
Proof. by intros w. Qed.

Lemma yields_bind {X A B} (pi : Event -> list X) xs ys (m : M A)
    (k : A -> M B) :
  yields pi xs m -> (forall a, yields pi ys (k a)) ->
  yields pi (xs ++ ys) (m ≫= k).
Proof.
  intros Hm Hk w. rewrite bind_unfold. specialize (Hm w).
  destruct (m w) as [[e|a] w1]; cbn [fst snd] in *; [done|].
  specialize (Hk a w1).
  destruct (k a w1) as [[e|b] w2]; cbn [fst snd] in *; [done|].
  by rewrite Hk, Hm, app_assoc.
Qed.

Lemma yields_bind_quiet {X A B} (pi : Event -> list X) ys (m : M A)
    (k : A -> M B) :
  yields pi [] m -> (forall a, yields pi ys (k a)) -> yields pi ys (m ≫= k).
Proof. intros Hm Hk. by apply (yields_bind pi [] ys). Qed.

Lemma yields_exec {X} (pi : Event -> list X) h c :
  yields pi (pi (EvCmd h c)) (exec h c).
Proof.
  intros w. pose proof (exec_trace h c w) as Ht.
  destruct (exec h c w) as [[e|[]] w1]; cbn [fst snd] in *; [done|].
  rewrite Ht, selected_app. simpl. by rewrite app_nil_r.
Qed.

Lemma yields_log {X} (pi : Event -> list X) l :
  pi (EvLog l) = [] -> yields pi [] (log l).
Proof.
  intros Hl w. simpl. rewrite selected_app. simpl. by rewrite Hl.
Qed.

Lemma yields_if {X A} (pi : Event -> list X) (b : bool) xs1 xs2
    (m1 m2 : M A) :
  yields pi xs1 m1 -> yields pi xs2 m2 ->
  yields pi (if b then xs1 else xs2) (if b then m1 else m2).
Proof. by destruct b. Qed.

Lemma yields_forEach {X A S} (pi : Event -> list X) (f : A -> list X)
    (body : S -> A -> M S) xs s :
  (forall s x, yields pi (f x) (body s x)) ->
  yields pi (flat_map f xs) (forEach body s xs).
Proof.
  intros Hbody. revert s.
  induction xs as [|x xs IH]; intros s; simpl.
  - apply yields_ret.
  - apply yields_bind; [apply Hbody | intros s'; apply IH].
Qed.

Lemma yields_forEach_ {X A} (pi : Event -> list X) (f : A -> list X)
    (body : A -> M unit) xs :
  (forall x, yields pi (f x) (body x)) ->
  yields pi (flat_map f xs) (forEach_ body xs).
Proof. intros Hbody. apply yields_forEach. intros _ x. apply Hbody. Qed.

Lemma flat_map_nil {A X} (xs : list A) :
  flat_map (fun _ => @nil X) xs = [].
Proof. by induction xs. Qed.

Lemma flat_map_singleton {A X} (f : A -> X) (xs : list A) :
  flat_map (fun x => [f x]) xs = f <$> xs.
Proof. induction xs as [|x xs IH]; simpl; by rewrite ?IH. Qed.

Lemma yields_forEach_quiet {X A} (pi : Event -> list X)
    (body : A -> M unit) xs :
  (forall x, yields pi [] (body x)) -> yields pi [] (forEach_ body xs).
Proof.
  intros Hbody. rewrite <- (flat_map_nil xs). by apply yields_forEach_.
Qed.

Lemma yields_progressCheck {X} (pi : Event -> list X) label tsvEntityData
    last event :
  (forall l, pi (EvLog l) = []) ->
  yields pi [] (progressCheck label tsvEntityData last event).
Proof.
  intros Hlog. unfold progressCheck.
  apply yields_bind_quiet; [|intros _; apply yields_ret].
  apply yields_forEach_quiet. intros percent. by apply yields_log.
Qed.

Lemma yields_pushM_quiet {X T} (pi : Event -> list X) n
    (insertFn : list T -> M unit) entries buffer :
  (forall es, yields pi [] (insertFn es)) ->
  yields pi [] (pushM n insertFn entries buffer).
Proof.
  intros Hins. unfold pushM.
  apply yields_bind_quiet; [|intros _; apply yields_ret].
  by apply yields_forEach_quiet.
Qed.

Lemma yields_flushM_quiet {X T} (pi : Event -> list X)
    (insertFn : list T -> M unit) buffer :
  (forall es, yields pi [] (insertFn es)) ->
  yields pi [] (flushM insertFn buffer).
Proof.
  intros Hins. unfold flushM.
  apply yields_bind_quiet; [|intros _; apply yields_ret].
  by apply yields_forEach_quiet.
Qed.

Lemma yields_begin {X A} (pi : Event -> list X) xs (m : M A) :
  pi EvBegin = [] -> pi EvCommit = [] ->
  yields pi xs m -> yields pi xs (begin m).
Proof.
  intros Hb Hc Hm w. unfold begin.
  set (w0 := {| committed := committed w; pending := Some (committed w) |}).
  specialize (Hm w0).
  destruct (m w0) as [[e|a] w1]; simpl in *; [done|].
  rewrite selected_app, Hm, selected_app. simpl.
  by rewrite Hb, Hc, !app_nil_r.
Qed.

(** The commands that go to the database one record at a time: every
    command but the two batched inserts. *)
Definition plainCmd (e : Event) : list Cmd :=
  match e with
  | EvCmd _ (updateTxBatch _) => []
  | EvCmd _ (insertPrincipalStxTxsBatched _) => []
  | EvCmd _ c => [c]
  | _ => []
  end.

Definition burnBlockCmds (event : PreorgRecord) : list Cmd :=
  match JSON_parse_burnBlock (payload event) with
  | Some msg =>
      match parseBurnBlockMessage msg with
      | Some data =>
          (if 0 <? length (rewards data) then
             [updateBurnchainRewards (burn_block_hash msg)
                (burn_block_height msg) (rewards data)]
           else [])
          ++ (if 0 <? length (slotHolders data) then
                [updateBurnchainRewardSlotHolders (burn_block_hash msg)
                   (burn_block_height msg) (slotHolders data)]
              else [])
      | None => []
      end
  | None => []
  end.

Definition attachmentCmds (event : PreorgRecord) : list Cmd :=
  match JSON_parse_attachments (payload event) ≫= parseAttachmentMessage with
  | Some attachments =>
      (fun subdomain =>
         updateBatchSubdomains (subdomainBlockData subdomain) [subdomain])
        <$> subdomains attachments
  | None => []
  end.

Definition rawEventCmds (event : PreorgRecord) : list Cmd :=
  [storeRawEventRequest1 (path event) (payload event)].

Definition txEntryCmds (entry : DataStoreTxEventData) : list Cmd :=
  [updateBatchStxEvents (tx entry) (stxEvents entry);
   updateBatchSmartContractEvent (tx entry) (contractLogEvents entry)]
  ++ (updateStxLockEvent (tx entry) <$> stxLockEvents entry)
  ++ (updateFtEvent (tx entry) <$> ftEvents entry)
  ++ (updateNftEvent (tx entry) <$> nftEvents entry)
  ++ (updateSmartContract (tx entry) <$> smartContracts entry)
  ++ (updateNames (tx entry) <$> names entry)
  ++ (updateNamespaces (tx entry) <$> namespaces entry).

Definition newBlockCmds (chainID : ChainID) (event : PreorgRecord)
  : list Cmd :=
  match JSON_parse_block (payload event) ≫= parseNewBlockMessage chainID with
  | Some dbData =>
      [updateBlock (block dbData)]
      ++ (if 0 <? length (microblocks dbData) then
            [insertMicroblock (microblocks dbData)]
          else [])
      ++ flat_map txEntryCmds (txs dbData)
  | None => []
  end.

(** The unbatched commands a phase issues for one record. *)
Definition recordCmds (p : Phase) (chainID : ChainID) (event : PreorgRecord)
  : list Cmd :=
  match p with
  | BurnBlocks => burnBlockCmds event
  | Attachments => attachmentCmds event
  | RawEvents => rawEventCmds event
  | NewBlocks => newBlockCmds chainID event
  end.

Lemma yields_parse_bind {X A B} (pi : Event -> list X) (r : option A)
    (k : A -> M B) (xs : option A -> list X) :
  (forall a, r = Some a -> yields pi (xs (Some a)) (k a)) ->
  yields pi (xs r) (parse r ≫= k).
Proof.
  intros Hk. destruct r as [a|]; simpl.
  - rewrite ret_bind. by apply Hk.
  - apply yields_throw_bind.
Qed.

Lemma yields_burnBlockEvent tsvEntityData last event :
  yields plainCmd (burnBlockCmds event)
         (burnBlockEvent tsvEntityData last event).
Proof.
  unfold burnBlockEvent, burnBlockCmds.
  destruct (JSON_parse_burnBlock (payload event)) as [msg|]; simpl;
    [rewrite ret_bind | apply yields_throw_bind].
  destruct (parseBurnBlockMessage msg) as [data|]; simpl;
    [rewrite ret_bind | apply yields_throw_bind].
  apply yields_bind.
  { apply yields_if; [apply (yields_exec plainCmd) | apply yields_ret]. }
  intros _.
  rewrite <- (app_nil_r (if 0 <? length (slotHolders data) then _ else _)).
  apply yields_bind.
  { apply yields_if; [apply (yields_exec plainCmd) | apply yields_ret]. }
  intros _. by apply yields_progressCheck.
Qed.

Lemma yields_attachmentEvent tsvEntityData last event :
  yields plainCmd (attachmentCmds event)
         (attachmentEvent tsvEntityData last event).
Proof.
  unfold attachmentEvent, attachmentCmds.
  destruct (JSON_parse_attachments (payload event)) as [msg|]; simpl;
    [rewrite ret_bind | apply yields_throw_bind].
  destruct (parseAttachmentMessage msg) as [data|]; simpl;
    [rewrite ret_bind | apply yields_throw_bind].
  apply yields_bind_quiet.
  { apply yields_forEach_quiet. intros _. apply yields_ret. }
  intros _. rewrite <- (app_nil_r (_ <$> _)).
  apply yields_bind; [|intros _; by apply yields_progressCheck].
  rewrite <- flat_map_singleton.
  apply yields_forEach_. intros subdomain. apply (yields_exec plainCmd).
Qed.

Lemma yields_rawEvent tsvEntityData last event :
  yields plainCmd (rawEventCmds event) (rawEvent tsvEntityData last event).
Proof.
  unfold rawEvent, rawEventCmds.
  rewrite <- (app_nil_r [_]).
  apply yields_bind; [apply (yields_exec plainCmd)|].
  intros _. by apply yields_progressCheck.
Qed.

Lemma yields_each {X A} (pi : Event -> list X) (c : A -> Cmd) (f : A -> X)
    xs :
  (forall x, pi (EvCmd Tx (c x)) = [f x]) ->
  yields pi (f <$> xs) (forEach_ (fun x => exec Tx (c x)) xs).
Proof.
  intros Hf. rewrite <- flat_map_singleton.
  apply yields_forEach_. intros x. rewrite <- Hf. apply yields_exec.
Qed.

Lemma yields_bind_then_quiet {X A B} (pi : Event -> list X) xs (m : M A)
    (k : A -> M B) :
  yields pi xs m -> (forall a, yields pi [] (k a)) -> yields pi xs (m ≫= k).
Proof.
  intros Hm Hk. rewrite <- (app_nil_r xs). by apply yields_bind.
Qed.

Lemma yields_txEntry buffers entry :
  yields plainCmd (txEntryCmds entry) (txEntry buffers entry).
Proof.
  unfold txEntry, txEntryCmds, processStxEvents.
  apply yields_bind_quiet.
  { apply yields_pushM_quiet. intros es. apply (yields_exec plainCmd). }
  intros txBuffer.
  apply (yields_bind plainCmd [_] (_ :: _)); [apply (yields_exec plainCmd)|].
  intros _. apply yields_bind_quiet.
  { apply yields_pushM_quiet. intros es. apply (yields_exec plainCmd). }
  intros principalBuffer.
  apply (yields_bind plainCmd [_]); [apply (yields_exec plainCmd)|].
  intros _.
  apply yields_bind; [by apply yields_each | intros _].
  apply yields_bind; [by apply yields_each | intros _].
  apply yields_bind; [by apply yields_each | intros _].
  apply yields_bind; [by apply yields_each | intros _].
  apply yields_bind; [by apply yields_each | intros _].
  apply yields_bind_then_quiet; [by apply yields_each | intros _].
  apply yields_ret.
Qed.

Lemma yields_newBlockEvent chainID tsvEntityData st event :
  yields plainCmd (newBlockCmds chainID event)
         (newBlockEvent chainID tsvEntityData st event).
Proof.
  unfold newBlockEvent, newBlockCmds.
  destruct (JSON_parse_block (payload event)) as [msg|]; simpl;
    [rewrite ret_bind | apply yields_throw_bind].
  destruct (parseNewBlockMessage chainID msg) as [dbData|]; simpl;
    [rewrite ret_bind | apply yields_throw_bind].
  apply (yields_bind plainCmd [_]); [apply (yields_exec plainCmd)|].
  intros _. apply yields_bind.
  { apply yields_if; [apply (yields_exec plainCmd) | apply yields_ret]. }
  intros _. apply yields_bind_then_quiet.
  - destruct (txs dbData) as [|entry entries] eqn:Htxs.
    + apply yields_ret.
    + cbn [length Nat.ltb Nat.leb]. apply yields_forEach.
      intros buffers x. apply yields_txEntry.
  - intros buffers. apply yields_bind_quiet; [|intros ?; apply yields_ret].
    by apply yields_progressCheck.
Qed.

Lemma yields_phaseInserts p chainID tsvEntityData file :
  yields plainCmd (flat_map (recordCmds p chainID) (phaseRecords p file))
         (phaseInserts p chainID tsvEntityData file).
Proof.
  destruct p; simpl.
  - apply yields_bind_then_quiet; [|intros _; apply yields_ret].
    apply yields_forEach. intros s x. apply yields_burnBlockEvent.
  - apply yields_bind_then_quiet; [|intros _; apply yields_ret].
    apply yields_forEach. intros s x. apply yields_attachmentEvent.
  - apply yields_bind_then_quiet; [|intros _; apply yields_ret].
    apply yields_forEach. intros s x. apply yields_rawEvent.
  - apply yields_bind_then_quiet.
    + apply yields_forEach. intros s x. apply yields_newBlockEvent.
    + intros st. apply yields_bind_quiet.
      { apply yields_flushM_quiet. intros es. apply (yields_exec plainCmd). }
      intros _. apply yields_bind_quiet.
      { apply yields_flushM_quiet. intros es. apply (yields_exec plainCmd). }
      intros _. by apply yields_log.
Qed.

Lemma yields_bulkTransaction {X} (pi : Event -> list X) tables xs inserts :
  pi EvBegin = [] -> pi EvCommit = [] ->
  yields pi xs inserts ->
  yields pi (pi (EvCmd Tx (toggleTableIndexes tables false)) ++ xs
               ++ pi (EvCmd Tx (toggleTableIndexes tables true)))
         (bulkTransaction tables inserts).
Proof.
  intros Hb Hc Hins. unfold bulkTransaction.
  apply yields_begin; [done | done |].
  apply yields_bind; [apply yields_exec | intros _].
  apply yields_bind; [done | intros _]. apply yields_exec.
Qed.

(** *** The rows that go through the accumulators *)

Definition txRows (e : Event) : list DbTx :=
  match e with
  | EvCmd _ (updateTxBatch entries) => entries
  | _ => []
  end.

Definition principalRows (e : Event) : list PrincipalStxTxsInsertValues :=
  match e with
  | EvCmd _ (insertPrincipalStxTxsBatched entries) => entries
  | _ => []
  end.

(** The transaction entries of a record of the new-block phase. *)
Definition recordTxs (chainID : ChainID) (event : PreorgRecord)
  : list DataStoreTxEventData :=
  match JSON_parse_block (payload event) ≫= parseNewBlockMessage chainID with
  | Some dbData => txs dbData
  | None => []
  end.

(** When the computation returns, the rows selected from the trace
    followed by the rows in the buffer it returns are those there were
    before, followed by [xs]. *)
Definition feeds {X A} (pi : Event -> list X) (buffer xs : list X)
    (getBuffer : A -> list X) (m : M A) : Prop :=
  forall w,
    match (m w).1 with
    | inr a =>
        selected pi (trace (m w).2) ++ getBuffer a
        = selected pi (trace w) ++ buffer ++ xs
    | inl _ => True
    end.

(** When the computation returns, it has selected nothing and returns
    the buffer [b]. *)
Definition keeps {X A} (pi : Event -> list X) (getBuffer : A -> list X)
    (b : list X) (m : M A) : Prop :=
  forall w,
    match (m w).1 with
    | inr a =>
        selected pi (trace (m w).2) = selected pi (trace w)
        /\ getBuffer a = b
    | inl _ => True
    end.

Lemma keeps_ret {X A} (pi : Event -> list X) (g : A -> list X) b (a : A) :
  g a = b -> keeps pi g b (mret a : M A).
Proof. by intros Hg w. Qed.

Lemma keeps_bind_quiet {X A B} (pi : Event -> list X) (g : B -> list X) b
    (m : M A) (k : A -> M B) :
  yields pi [] m -> (forall a, keeps pi g b (k a)) -> keeps pi g b (m ≫= k).
Proof.
  intros Hm Hk w. rewrite bind_unfold. specialize (Hm w).
  destruct (m w) as [[e|a] w1]; cbn [fst snd] in *; [done|].
  specialize (Hk a w1).
  destruct (k a w1) as [[e|c] w2]; cbn [fst snd] in *; [done|].
  destruct Hk as [Hk Hg]. split; [|done].
  by rewrite Hk, Hm, app_nil_r.
Qed.

Lemma feeds_bind_quiet {X A B} (pi : Event -> list X) buffer xs
    (g : B -> list X) (m : M A) (k : A -> M B) :
  yields pi [] m -> (forall a, feeds pi buffer xs g (k a)) ->
  feeds pi buffer xs g (m ≫= k).
Proof.
  intros Hm Hk w. rewrite bind_unfold. specialize (Hm w).
  destruct (m w) as [[e|a] w1]; cbn [fst snd] in *; [done|].
  specialize (Hk a w1).
  destruct (k a w1) as [[e|c] w2]; cbn [fst snd] in *; [done|].
  by rewrite Hk, Hm, app_nil_r.
Qed.

Lemma feeds_bind_keeps {X A B} (pi : Event -> list X) buffer xs
    (g0 : A -> list X) (g : B -> list X) (m : M A) (k : A -> M B) :
  feeds pi buffer xs g0 m -> (forall a, keeps pi g (g0 a) (k a)) ->
  feeds pi buffer xs g (m ≫= k).
Proof.
  intros Hm Hk w. rewrite bind_unfold. specialize (Hm w).
  destruct (m w) as [[e|a] w1]; cbn [fst snd] in *; [done|].
  specialize (Hk a w1).
  destruct (k a w1) as [[e|c] w2]; cbn [fst snd] in *; [done|].
  destruct Hk as [Hk Hg]. by rewrite Hk, Hg.
Qed.

Lemma feeds_ret {X A} (pi : Event -> list X) (g : A -> list X) (a : A) :
  feeds pi (g a) [] g (mret a : M A).
Proof. intros w. simpl. by rewrite app_nil_r. Qed.

Lemma feeds_forEach {X A S} (pi : Event -> list X) (f : A -> list X)
    (g : S -> list X) (body : S -> A -> M S) xs s :
  (forall s x, feeds pi (g s) (f x) g (body s x)) ->
  feeds pi (g s) (flat_map f xs) g (forEach body s xs).
Proof.
  intros Hbody. revert s.
  induction xs as [|x xs IH]; intros s; cbn [forEach flat_map].
  - apply feeds_ret.
  - intros w. rewrite bind_unfold. specialize (Hbody s x w).
    destruct (body s x w) as [[e|s1] w1]; cbn [fst snd] in *; [done|].
    specialize (IH s1 w1).
    destruct (forEach body s1 xs w1) as [[e|s2] w2]; cbn [fst snd] in *;
      [done|].
    rewrite IH, app_assoc, Hbody. by rewrite <- !app_assoc.
Qed.

Lemma yields_after_feeds {X A B} (pi : Event -> list X) xs
    (g : A -> list X) (m : M A) (k : A -> M B) :
  feeds pi [] xs g m -> (forall a, yields pi (g a) (k a)) ->
  yields pi xs (m ≫= k).
Proof.
  intros Hm Hk w. rewrite bind_unfold. specialize (Hm w).
  destruct (m w) as [[e|a] w1]; cbn [fst snd] in *; [done|].
  specialize (Hk a w1).
  destruct (k a w1) as [[e|c] w2]; cbn [fst snd] in *; [done|].
  by rewrite Hk, Hm.
Qed.

(** The accumulator whose insert function issues the command [cmd]. *)
Lemma yields_batches {X T} (pi : Event -> list X) (cmd : list T -> Cmd)
    (batches : list (list T)) :
  yields pi (flat_map (fun es => pi (EvCmd Tx (cmd es))) batches)
         (forEach_ (fun es => track "" (exec Tx (cmd es))) batches).
Proof. apply yields_forEach_. intros es. apply yields_exec. Qed.

Lemma flat_map_id_concat {T} (batches : list (list T)) :
  flat_map (fun es => es) batches = concat batches.
Proof. induction batches as [|b bs IH]; simpl; by rewrite ?IH. Qed.

Lemma feeds_pushM {T} (pi : Event -> list T) (cmd : list T -> Cmd) n name
    entries buffer :
  1 <= n ->
  (forall es, pi (EvCmd Tx (cmd es)) = es) ->
  feeds pi buffer entries id
        (pushM n (fun es => track name (exec Tx (cmd es))) entries buffer).
Proof.
  intros Hn Hpi w. unfold pushM.
  set (st := BatchInserter.push n entries (BatchInserter.mkInserter buffer [])).
  rewrite bind_unfold.
  pose proof (yields_batches pi cmd (BatchInserter.inserted st) w) as Hb.
  unfold track in *.
  destruct (forEach_ (fun es => exec Tx (cmd es)) (BatchInserter.inserted st) w)
    as [[e|[]] w1]; cbn [fst snd] in *; [done|].
  simpl. rewrite Hb.
  rewrite (flat_map_ext _ (fun es => es)) by (intros es; apply Hpi).
  rewrite flat_map_id_concat.
  pose proof (BatchInserter.push_contents n entries
                (BatchInserter.mkInserter buffer []) Hn) as Hc.
  fold st in Hc. unfold BatchInserter.contents in Hc. simpl in Hc.
  by rewrite <- app_assoc, Hc.
Qed.

Lemma yields_flushM {T} (pi : Event -> list T) (cmd : list T -> Cmd) name
    buffer :
  (forall es, pi (EvCmd Tx (cmd es)) = es) ->
  yields pi buffer (flushM (fun es => track name (exec Tx (cmd es))) buffer).
Proof.
  intros Hpi w. unfold flushM.
  set (st := BatchInserter.flush (BatchInserter.mkInserter buffer [])).
  rewrite bind_unfold.
  pose proof (yields_batches pi cmd (BatchInserter.inserted st) w) as Hb.
  unfold track in *.
  destruct (forEach_ (fun es => exec Tx (cmd es)) (BatchInserter.inserted st) w)
    as [[e|[]] w1]; cbn [fst snd] in *; [done|].
  simpl. rewrite Hb.
  rewrite (flat_map_ext _ (fun es => es)) by (intros es; apply Hpi).
  rewrite flat_map_id_concat.
  pose proof (BatchInserter.flush_inserted (BatchInserter.mkInserter buffer []))
    as Hc.
  fold st in Hc. unfold BatchInserter.contents in Hc. simpl in Hc.
  by rewrite Hc.
Qed.

Lemma yields_exec_quiet {X} (pi : Event -> list X) h c :
  pi (EvCmd h c) = [] -> yields pi [] (exec h c).
Proof. intros Hc. rewrite <- Hc. apply yields_exec. Qed.

Lemma yields_if_quiet {X A} (pi : Event -> list X) (b : bool) (m1 m2 : M A) :
  yields pi [] m1 -> yields pi [] m2 -> yields pi [] (if b then m1 else m2).
Proof. by destruct b. Qed.

Ltac quiet :=
  repeat first
    [ apply yields_ret
    | apply yields_exec_quiet; reflexivity
    | apply yields_log; reflexivity
    | apply yields_progressCheck; intros ?; reflexivity
    | apply yields_if_quiet
    | apply yields_pushM_quiet; intros ?
    | apply yields_flushM_quiet; intros ?
    | apply yields_forEach_quiet; intros ?
    | apply yields_bind_quiet; [|intros ?] ].

Lemma feeds_throw_bind {X A B} (pi : Event -> list X) buffer xs
    (g : B -> list X) e (k : A -> M B) :
  feeds pi buffer xs g (throw e ≫= k).
Proof. by intros w. Qed.

Lemma feeds_txEntry_tx buffers entry :
  feeds txRows buffers.1 [tx entry] fst (txEntry buffers entry).
Proof.
  unfold txEntry, processStxEvents, dbTxInsertFn, dbPrincipalStxTxInsertFn.
  apply (feeds_bind_keeps txRows _ _ id).
  { apply (feeds_pushM txRows updateTxBatch); [lia | done]. }
  intros txBuffer.
  repeat (apply keeps_bind_quiet; [by quiet | intros ?]).
  by apply keeps_ret.
Qed.

Lemma feeds_txEntry_principal buffers entry :
  feeds principalRows buffers.2 (Principals.processStxEvents entry) snd
        (txEntry buffers entry).
Proof.
  unfold txEntry, processStxEvents, dbTxInsertFn, dbPrincipalStxTxInsertFn.
  apply feeds_bind_quiet; [by quiet | intros txBuffer].
  apply feeds_bind_quiet; [by quiet | intros _].
  apply (feeds_bind_keeps principalRows _ _ id).
  { apply (feeds_pushM principalRows insertPrincipalStxTxsBatched); [lia | done]. }
  intros principalBuffer.
  repeat (apply keeps_bind_quiet; [by quiet | intros ?]).
  by apply keeps_ret.
Qed.

Lemma feeds_newBlockEvent {X} (pi : Event -> list X)
    (f : DataStoreTxEventData -> list X) (g : Buffers -> list X)
    chainID tsvEntityData st event :
  (forall h c, (forall es, c <> updateTxBatch es) ->
               (forall es, c <> insertPrincipalStxTxsBatched es) ->
               pi (EvCmd h c) = []) ->
  (forall l, pi (EvLog l) = []) ->
  (forall buffers entry, feeds pi (g buffers) (f entry) g (txEntry buffers entry)) ->
  feeds pi (g st.2) (flat_map f (recordTxs chainID event)) (fun r => g r.2)
        (newBlockEvent chainID tsvEntityData st event).
Proof.
  intros Hother Hlog Htx. unfold newBlockEvent, recordTxs.
  destruct (JSON_parse_block (payload event)) as [msg|]; simpl;
    [rewrite ret_bind | apply feeds_throw_bind].
  destruct (parseNewBlockMessage chainID msg) as [dbData|]; simpl;
    [rewrite ret_bind | apply feeds_throw_bind].
  apply feeds_bind_quiet.
  { apply yields_exec_quiet. by apply Hother. }
  intros _. apply feeds_bind_quiet.
  { apply yields_if_quiet; [|apply yields_ret].
    apply yields_exec_quiet. by apply Hother. }
  intros _. apply (feeds_bind_keeps pi _ _ g).
  - destruct (txs dbData) as [|entry entries].
    + apply (feeds_ret pi g).
    + cbn [length Nat.ltb Nat.leb]. by apply feeds_forEach.
  - intros buffers. apply keeps_bind_quiet.
    + by apply yields_progressCheck.
    + intros last. by apply keeps_ret.
Qed.

Lemma flat_map_nested {A B C} (f : B -> list C) (g : A -> list B) (l : list A) :
  flat_map f (flat_map g l) = flat_map (fun x => flat_map f (g x)) l.
Proof.
  induction l as [|x l IH]; simpl; [done|]. by rewrite flat_map_app, IH.
Qed.

Lemma yields_newBlockInserts_tx chainID tsvEntityData file :
  yields txRows
         (flat_map (fun entry => [tx entry])
            (flat_map (recordTxs chainID) (readPreorgTsv file (Some "/new_block"))))
         (newBlockInserts chainID tsvEntityData file).
Proof.
  unfold newBlockInserts. rewrite flat_map_nested.
  apply (yields_after_feeds txRows _ (fun st => st.2.1)).
  - apply (feeds_forEach txRows
             (fun event => flat_map (fun entry => [tx entry])
                             (recordTxs chainID event))
             (fun st : Progress.Number * Buffers => st.2.1)).
    intros st event.
    apply (feeds_newBlockEvent txRows (fun entry => [tx entry]) fst);
      [| done |].
    + intros h c H1 H2. destruct c; try done. by destruct (H1 entries).
    + intros buffers entry. apply feeds_txEntry_tx.
  - intros st. unfold dbTxInsertFn, dbPrincipalStxTxInsertFn.
    apply yields_bind_then_quiet; [by apply (yields_flushM txRows updateTxBatch)|].
    intros _. by quiet.
Qed.

Lemma yields_newBlockInserts_principal chainID tsvEntityData file :
  yields principalRows
         (flat_map Principals.processStxEvents
            (flat_map (recordTxs chainID) (readPreorgTsv file (Some "/new_block"))))
         (newBlockInserts chainID tsvEntityData file).
Proof.
  unfold newBlockInserts. rewrite flat_map_nested.
  apply (yields_after_feeds principalRows _ (fun st => st.2.2)).
  - apply (feeds_forEach principalRows
             (fun event => flat_map Principals.processStxEvents
                             (recordTxs chainID event))
             (fun st : Progress.Number * Buffers => st.2.2)).
    intros st event.
    apply (feeds_newBlockEvent principalRows Principals.processStxEvents snd);
      [| done |].
    + intros h c H1 H2. destruct c; try done. by destruct (H2 entries).
    + intros buffers entry. apply feeds_txEntry_principal.
  - intros st. unfold dbTxInsertFn, dbPrincipalStxTxInsertFn.
    apply yields_bind_quiet; [by quiet | intros _].
    apply yields_bind_then_quiet;
      [by apply (yields_flushM principalRows insertPrincipalStxTxsBatched)|].
    intros _. by quiet.
Qed.

(** *** The size of the batches *)

(** A batched insert carries at least one row and at most a thousand. *)
Definition boundedBatch (e : Event) : Prop :=
  match e with
  | EvCmd _ (updateTxBatch entries) => 1 <= length entries <= 1000
  | EvCmd _ (insertPrincipalStxTxsBatched entries) =>
      1 <= length entries <= 1000
  | _ => True
  end.

(** Whatever the outcome, the computation adds only events of [P]; when
    it returns, its result is in [Q]. *)
Definition emitsTo (P : Event -> Prop) {A} (Q : A -> Prop) (m : M A) : Prop :=
  forall w,
    (exists evs, trace (m w).2 = trace w ++ evs /\ Forall P evs)
    /\ match (m w).1 with inr a => Q a | inl _ => True end.

Lemma emitsTo_emits P {A} (m : M A) :
  emits P m -> emitsTo P (fun _ => True) m.
Proof. intros Hm w. split; [apply Hm | by destruct (m w).1]. Qed.

Lemma emits_emitsTo P {A} (Q : A -> Prop) (m : M A) :
  emitsTo P Q m -> emits P m.
Proof. intros Hm w. apply Hm. Qed.

Lemma emitsTo_ret P {A} (Q : A -> Prop) (a : A) :
  Q a -> emitsTo P Q (mret a : M A).
Proof. intros Ha w. split; [apply emits_ret | done]. Qed.

Lemma emitsTo_bind P {A B} (Q : A -> Prop) (R : B -> Prop)
    (m : M A) (f : A -> M B) :
  emitsTo P Q m -> (forall a, Q a -> emitsTo P R (f a)) ->
  emitsTo P R (m ≫= f).
Proof.
  intros Hm Hf w. rewrite bind_unfold.
  destruct (Hm w) as [(evs & Ht & Hevs) HQ].
  destruct (m w) as [[e|a] w1]; simpl in *; [split; [by exists evs | done]|].
  destruct (Hf a HQ w1) as [(evs' & Ht' & Hevs') HR].
  split; [|done]. exists (evs ++ evs').
  split; [by rewrite Ht', Ht, app_assoc | by apply Forall_app].
Qed.

Lemma emitsTo_emits_bind P {A B} (R : B -> Prop) (m : M A) (f : A -> M B) :
  emits P m -> (forall a, emitsTo P R (f a)) -> emitsTo P R (m ≫= f).
Proof.
  intros Hm Hf. apply (emitsTo_bind P (fun _ => True)); [|by intros a _].
  by apply emitsTo_emits.
Qed.

Lemma emitsTo_throw_bind P {A B} (R : B -> Prop) e (k : A -> M B) :
  emitsTo P R (throw e ≫= k).
Proof. intros w. split; [|done]. exists []. simpl. by rewrite app_nil_r. Qed.

Lemma emitsTo_forEach P {A S} (I : S -> Prop) (body : S -> A -> M S) xs s :
  (forall s x, I s -> emitsTo P I (body s x)) ->
  I s -> emitsTo P I (forEach body s xs).
Proof.
  intros Hbody. revert s.
  induction xs as [|x xs IH]; intros s Hs; simpl.
  - by apply emitsTo_ret.
  - apply (emitsTo_bind P I); [by apply Hbody | apply IH].
Qed.

Lemma emits_batches (P : Event -> Prop) {T} (cmd : list T -> Cmd) batches :
  Forall (fun es => P (EvCmd Tx (cmd es))) batches ->
  emits P (forEach_ (fun es => exec Tx (cmd es)) batches).
Proof.
  unfold forEach_. induction 1 as [|b bs Hb _ IH]; simpl.
  - apply emits_ret.
  - apply emits_bind; [by apply emits_exec | intros []; exact IH].
Qed.

Lemma emitsTo_pushM (P : Event -> Prop) {T} (cmd : list T -> Cmd) n name
    entries buffer :
  1 <= n ->
  (forall es, BatchInserter.batchOk n es -> P (EvCmd Tx (cmd es))) ->
  emitsTo P (fun b => length b < n)
          (pushM n (fun es => track name (exec Tx (cmd es))) entries buffer).
Proof.
  intros Hn HP. unfold pushM, track.
  apply emitsTo_emits_bind.
  - apply emits_batches. eapply Forall_impl; [|exact HP].
    by apply BatchInserter.push_batchOk.
  - intros _. apply emitsTo_ret. by apply BatchInserter.push_buffer_short.
Qed.

Lemma emits_flushM_bounded (P : Event -> Prop) {T} (cmd : list T -> Cmd) n
    name buffer :
  length buffer <= n ->
  (forall es, BatchInserter.batchOk n es -> P (EvCmd Tx (cmd es))) ->
  emits P (flushM (fun es => track name (exec Tx (cmd es))) buffer).
Proof.
  intros Hb HP. unfold flushM, track.
  apply emits_bind; [|intros _; apply emits_ret].
  apply emits_batches. eapply Forall_impl; [|exact HP].
  by apply BatchInserter.flush_batchOk.
Qed.

Lemma emits_begin (P : Event -> Prop) {A} (m : M A) :
  P EvBegin -> P EvCommit -> P EvRollback -> emits P m -> emits P (begin m).
Proof.
  intros Hb Hc Hr Hm w. unfold begin.
  set (w0 := {| committed := committed w; pending := Some (committed w) |}).
  destruct (Hm w0) as (evs & Ht & Hevs).
  destruct (m w0) as [[e|a] w1]; simpl in *.
  - exists (EvBegin :: evs ++ [EvRollback]).
    split; [by rewrite Ht, <- !app_assoc|].
    constructor; [done|]. apply Forall_app. by repeat constructor.
  - exists (EvBegin :: evs ++ [EvCommit]).
    split; [by rewrite Ht, <- !app_assoc|].
    constructor; [done|]. apply Forall_app. by repeat constructor.
Qed.

(** The events of [Q] need no argument: commands that are no batched
    insert, and log lines. *)
Ltac unbatched :=
  repeat first
    [ apply emits_ret
    | apply emits_throw
    | apply emits_parse
    | apply emits_exec; exact I
    | apply emits_log; exact I
    | apply emits_progressCheck; intros ?; exact I
    | apply emits_if
    | apply emits_forEach_; intros ?
    | apply emits_forEach; intros ? ?
    | apply emits_bind; [|intros ?] ].

Definition shortBuffers (buffers : Buffers) : Prop :=
  length buffers.1 < 1000 /\ length buffers.2 < 1000.

Lemma bounded_txEntry buffers entry :
  emitsTo boundedBatch shortBuffers (txEntry buffers entry).
Proof.
  unfold txEntry, processStxEvents, dbTxInsertFn, dbPrincipalStxTxInsertFn.
  apply (emitsTo_bind _ (fun b => length b < 1000)).
  { apply (emitsTo_pushM boundedBatch updateTxBatch); [lia | done]. }
  intros txBuffer Htx.
  apply emitsTo_emits_bind; [by unbatched | intros _].
  apply (emitsTo_bind _ (fun b => length b < 1000)).
  { apply (emitsTo_pushM boundedBatch insertPrincipalStxTxsBatched);
      [lia | done]. }
  intros principalBuffer Hprincipal.
  repeat (apply emitsTo_emits_bind; [by unbatched | intros ?]).
  by apply emitsTo_ret.
Qed.

Lemma bounded_newBlockEvent chainID tsvEntityData st event :
  shortBuffers st.2 ->
  emitsTo boundedBatch (fun r => shortBuffers r.2)
          (newBlockEvent chainID tsvEntityData st event).
Proof.
  intros Hst. unfold newBlockEvent.
  destruct (JSON_parse_block (payload event)) as [msg|]; simpl;
    [rewrite ret_bind | apply emitsTo_throw_bind].
  destruct (parseNewBlockMessage chainID msg) as [dbData|]; simpl;
    [rewrite ret_bind | apply emitsTo_throw_bind].
  apply emitsTo_emits_bind; [by unbatched | intros _].
  apply emitsTo_emits_bind; [by unbatched | intros _].
  apply (emitsTo_bind _ shortBuffers).
  - destruct (0 <? length (txs dbData)).
    + apply emitsTo_forEach; [|done].
      intros buffers entry _. apply bounded_txEntry.
    + by apply emitsTo_ret.
  - intros buffers Hb.
    apply emitsTo_emits_bind; [by unbatched | intros last].
    by apply emitsTo_ret.
Qed.

Lemma bounded_newBlockInserts chainID tsvEntityData file :
  emits boundedBatch (newBlockInserts chainID tsvEntityData file).
Proof.
  unfold newBlockInserts, dbTxInsertFn, dbPrincipalStxTxInsertFn.
  apply (emits_emitsTo _ (fun _ => True)).
  apply (emitsTo_bind _ (fun st : Progress.Number * Buffers => shortBuffers st.2)).
  - apply emitsTo_forEach.
    + intros st event Hst. by apply bounded_newBlockEvent.
    + split; simpl; lia.
  - intros st [Htx Hprincipal]. apply emitsTo_emits.
    apply emits_bind;
      [apply (emits_flushM_bounded boundedBatch updateTxBatch 1000);
         [exact (Nat.lt_le_incl _ _ Htx) | done] | intros _].
    apply emits_bind;
      [apply (emits_flushM_bounded boundedBatch insertPrincipalStxTxsBatched
                1000); [exact (Nat.lt_le_incl _ _ Hprincipal) | done]
      | intros _].
    by unbatched.
Qed.

Lemma bounded_phaseInserts p chainID tsvEntityData file :
  emits boundedBatch (phaseInserts p chainID tsvEntityData file).
Proof.
  destruct p; simpl; [| | |apply bounded_newBlockInserts].
  - unfold burnBlockInserts, burnBlockEvent. by unbatched.
  - unfold attachmentInserts, attachmentEvent. by unbatched.
  - unfold rawEventInserts, rawEvent. by unbatched.
Qed.

Lemma bounded_insertPhase p chainID tsvEntityData file :
  emits boundedBatch (insertPhase p chainID tsvEntityData file).
Proof.
  unfold insertPhase, phaseTransaction, bulkTransaction, reindexTables, track.
  apply emits_bind; [|intros _; by unbatched].
  apply emits_begin; [done | done | done |].
  apply emits_bind; [by unbatched | intros _].
  apply emits_bind; [apply bounded_phaseInserts | intros _].
  by unbatched.
Qed.

(** *** What goes to the pool *)






(** Nothing is accepted after a rollback. *)
Lemma monitor_rollback_last pre post m :
  monitor (Running 0 false) (pre ++ EvRollback :: post) = Some m ->
  post = [].
Proof.
  rewrite monitor_app.
  destruct (monitor (Running 0 false) pre) as [m1|];
    cbn [mbind option_bind]; [|done].
  rewrite monitor_cons.
  destruct m1 as [k [|]|]; cbn [monitorStep mbind option_bind]; try done.
  by destruct post.
Qed.

(** *** The closing line of the new-block phase *)

(** [logger.info(`Processed '/new_block' events: 100%`)], the fixed line
    that the new-block phase writes after its loop and its flushes. *)
Definition closingLines (e : Event) : list unit :=
  match e with
  | EvLog (LogInfo msg) =>
      if String.eqb msg "Processed '/new_block' events: 100%" then [tt] else []
  | _ => []
  end.

Lemma emits_progressCheck_lines (P : Event -> Prop) label tsvEntityData last
    event :
  (forall percent,
     P (EvLog (LogProgress label percent (readLineCount event)
                           (tsvLineCount tsvEntityData)))) ->
  emits P (progressCheck label tsvEntityData last event).
Proof.
  intros HP w. unfold progressCheck, Progress.statusUpdate.
  destruct (Progress.gt _ _); simpl.
  - eexists [_]. split; [done|]. by repeat constructor.
  - exists []. by rewrite app_nil_r.
Qed.

Lemma yields_quiet {X A} (pi : Event -> list X) (m : M A) :
  emits (fun e => pi e = []) m -> yields pi [] m.
Proof.
  intros Hm w. destruct (Hm w) as (evs & Ht & Hevs).
  destruct ((m w).1); [done|]. rewrite Ht, selected_app. f_equal.
  clear Ht. induction Hevs as [|e evs He _ IH]; [done|].
  unfold selected in *. cbn [flat_map]. cbv beta in He. rewrite He.
  exact IH.
Qed.

(** Computations that write no closing line. *)
Ltac unclosed :=
  repeat first
    [ apply emits_ret
    | apply emits_throw
    | apply emits_parse
    | apply emits_exec; reflexivity
    | apply emits_progressCheck_lines; intros ?; reflexivity
    | apply emits_if
    | apply emits_forEach_; intros ?
    | apply emits_forEach; intros ? ?
    | apply emits_pushM; intros ?
    | apply emits_flushM; intros ?
    | apply emits_bind; [|intros ?] ].

Lemma yields_closingLines p chainID tsvEntityData file :
  yields closingLines (match p with NewBlocks => [tt] | _ => [] end)
         (phaseInserts p chainID tsvEntityData file).
Proof.
  destruct p; simpl.
  - apply yields_quiet. unfold burnBlockInserts, burnBlockEvent. by unclosed.
  - apply yields_quiet. unfold attachmentInserts, attachmentEvent.
    by unclosed.
  - apply yields_quiet. unfold rawEventInserts, rawEvent. by unclosed.
  - unfold newBlockInserts.
    apply yields_bind_quiet; [|intros st].
    { apply yields_quiet. unfold newBlockEvent, txEntry, processStxEvents,
        dbTxInsertFn, dbPrincipalStxTxInsertFn, track. by unclosed. }
    apply yields_bind_quiet; [|intros _].
    { apply yields_quiet. unfold dbTxInsertFn, track. by unclosed. }
    apply yields_bind_quiet; [|intros _].
    { apply yields_quiet. unfold dbPrincipalStxTxInsertFn, track.
      by unclosed. }
    intros w. simpl. by rewrite selected_app.
Qed.

(** The reindex loop, whatever its outcome: it issues [REINDEX TABLE]
    for the tables in order up to the first that fails, and nothing
    else. *)
Lemma reindexTables_outcome tables w :
  exists k,
    trace (reindexTables tables w).2
    = trace w ++ ((fun table => EvCmd Pool (reindexTable table))
                    <$> take k tables)
    /\ match (reindexTables tables w).1 with
       | inr _ => k = length tables
       | inl _ => 1 <= k <= length tables
       end.
Proof.
  unfold reindexTables, forEach_, track. revert w.
  induction tables as [|table tables IH]; intros w.
  - exists 0. simpl. by rewrite app_nil_r.
  - cbn [forEach]. rewrite bind_unfold.
    pose proof (exec_trace Pool (reindexTable table) w) as Hexec.
    destruct (exec Pool (reindexTable table) w) as [[e|[]] w1];
      cbn [fst snd] in *.
    + exists 1. split; [by rewrite Hexec | simpl; lia].
    + destruct (IH w1) as (k & Ht & Hk). exists (S k).
      split; [by rewrite Ht, Hexec, <- app_assoc|].
      destruct ((forEach (fun _ table0 => exec Pool (reindexTable table0))
                         () tables w1).1); simpl; lia.
Qed.

End Monad.

(** *** A small concrete instance, for examples *)

(** A database that keeps the commands it was given and never fails. *)
Definition exampleDatabase : @Database unitSchema :=
  {| Store := list (@Cmd unitSchema);
     dbApply := fun _ c s => Some (s ++ [c]) |}.

(** Messages are their own payload; the empty payload does not parse.
    The payload ["reward"] carries one reward, any other none. *)
Definition exampleDecoders : @Decoders unitSchema :=
  {| CoreNodeBurnBlockMessage := string;
     CoreNodeBlockMessage := string;
     CoreNodeAttachmentMessage := string;
     burn_block_hash := fun m => m;
     burn_block_height := fun _ => 1%Z;
     JSON_parse_burnBlock := fun s => if String.eqb s "" then None else Some s;
     JSON_parse_block := fun s => if String.eqb s "" then None else Some s;
     JSON_parse_attachments :=
       fun s => if String.eqb s "" then None else Some [s];
     parseBurnBlockMessage :=
       fun m => Some (@mkBurnBlockData unitSchema
                        (if String.eqb m "reward" then [tt] else []) []);
     parseNewBlockMessage :=
       fun _ _ => Some (@mkNewBlockData unitSchema tt []
                          [Principals.exampleEntry]);
     parseAttachmentMessage :=
       fun _ => Some (@mkAttachmentData unitSchema [] [tt]) |}.

Definition exampleTsv : TsvEntityData :=
  {| indexBlockHashes := []; burnBlockHashes := []; tsvLineCount := 4 |}.

Definition exampleFile : list PreorgRecord :=
  [ {| path := "/new_burn_block"; payload := "reward"; readLineCount := 1 |};
    {| path := "/new_burn_block"; payload := "none"; readLineCount := 2 |};
    {| path := "/attachments/new"; payload := "a"; readLineCount := 3 |};
    {| path := "/new_block"; payload := "b"; readLineCount := 4 |} ].

(** A file whose only burn-block record has a payload that does not
    parse. *)
Definition badFile : list PreorgRecord :=
  [ {| path := "/new_burn_block"; payload := ""; readLineCount := 1 |} ].

Definition exampleWorld : @World unitSchema exampleDatabase :=
  @initialWorld unitSchema exampleDatabase [].

(** A database on which [REINDEX] fails. *)
Definition brittleDatabase : @Database unitSchema :=
  {| Store := list (@Cmd unitSchema);
     dbApply := fun _ c s =>
       match c with
       | reindexTable _ => None
       | _ => Some (s ++ [c])
       end |}.



(** A log of four lines whose two raw records span two lines each. *)
Definition coarseFile : list PreorgRecord :=
  [ {| path := "/new_burn_block"; payload := "none"; readLineCount := 2 |};
    {| path := "/new_block"; payload := "b"; readLineCount := 4 |} ].

(** C7, as the specification states it, fails.  The raw-request phase
    on [coarseFile] processes a record at 50 percent and one at 100
    percent and writes two progress lines, although all five boundaries
    have been reached and four of them exceeded. *)
Lemma phase_progress_counterexample :
  let r := @phaseTransaction unitSchema exampleDatabase exampleDecoders
             RawEvents 1%Z exampleTsv coarseFile exampleWorld in
  r.1 = inr tt
  /\ progressEntries (trace r.2) = Progress.ofZ <$> [50; 100]%Z
  /\ Progress.boundariesReached (Progress.percent 4 4)
     = [20; 40; 60; 80; 100]%Z
  /\ Progress.boundariesExceeded (Progress.percent 4 4)
     = [20; 40; 60; 80]%Z
  /\ length (progressEntries (trace r.2))
     <> length (Progress.boundariesReached (Progress.percent 4 4))
  /\ length (progressEntries (trace r.2))
     <> length (Progress.boundariesExceeded (Progress.percent 4 4)).
Proof.
  intros r.
  assert (E0 : r.1 = inr tt) by (by vm_compute).
  assert (E1 : progressEntries (trace r.2) = Progress.ofZ <$> [50; 100]%Z)
    by (by vm_compute).
  destruct Progress.progressLog_coarse_records as (_ & E2 & E3).
  rewrite E1, E2, E3. repeat split; simpl; lia.
Qed.

(** The new-block phase can report 100 percent twice: the check logs
    the record that ends the log, and the closing line follows. *)
Example new_block_reports_100_twice :
  let r := @phaseTransaction unitSchema exampleDatabase exampleDecoders
             NewBlocks 1%Z exampleTsv exampleFile exampleWorld in
  r.1 = inr tt
  /\ progressEntries (trace r.2) = [Progress.ofZ 100]
  /\ selected closingLines (trace r.2) = [tt].
Proof. repeat split; by vm_compute. Qed.

(** C7 (amended). In every phase, for every stream of records: the
    progress lines written by the check are those of the check run, in
    the double arithmetic of the source, on the records processed (all
    of them when the phase's inserts return).  For a log of fewer than
    2^53 lines and [readLineCount]s from 0 to the number of lines, the
    entries are integers, successive entries are at least 20 points
    apart (the check reports no boundary twice), there are at most four
    of them (a record that crosses several boundaries gives one entry),
    and after each record the progress not yet reported is at most 20
    points.  Besides the check, the new-block
    phase writes the fixed line "Processed '/new_block' events: 100%"
    once when its loop and its flushes have returned, so that it can
    report 100 percent twice; the other phases write no such line. *)
Theorem phase_progress_entries {schema : Schema} {database : Database}
    {decoders : Decoders} (p : Phase) (chainID : ChainID)
    (tsvEntityData : TsvEntityData) (file : list PreorgRecord) (w : World) :
  let r := phaseInserts p chainID tsvEntityData file w in
  exists tr processed,
    trace r.2 = trace w ++ tr
    /\ processed `prefix_of` phaseRecords p file
    /\ (forall a, r.1 = inr a -> processed = phaseRecords p file)
    /\ progressEntries tr
       = Progress.progressLog (tsvLineCount tsvEntityData)
                              (readLineCount <$> processed)
    /\ (forall a, r.1 = inr a ->
        selected closingLines tr
        = match p with NewBlocks => [tt] | _ => [] end)
    /\ ((0 < tsvLineCount tsvEntityData < 2 ^ 53)%Z ->
        Forall (fun event =>
                  (0 <= readLineCount event <= tsvLineCount tsvEntityData)%Z)
               (phaseRecords p file) ->
        (exists ns,
           progressEntries tr = Progress.ofZ <$> ns
           /\ Progress.spaced20 0 ns
           /\ length ns <= 4)
        /\ (forall pre event,
              pre ++ [event] `prefix_of` processed ->
              Progress.gt
                (percentOf tsvEntityData event)
                (Progress.add
                   (Progress.lastStatusUpdatePercent
                      (Progress.progressStatus (tsvLineCount tsvEntityData)
                         (readLineCount <$> pre ++ [event])))
                   (Progress.ofZ 20)) = false)).
Proof.
  cbv zeta.
  destruct (reportsAll_phaseInserts p chainID tsvEntityData file w)
    as (tr & processed & Htr & Hpre & Hlog & Hall).
  exists tr, processed.
  split; [exact Htr|]. split; [exact Hpre|]. split; [exact Hall|].
  split; [exact Hlog|]. split.
  - intros a Hok.
    pose proof (yields_closingLines p chainID tsvEntityData file w) as Hy.
    rewrite Hok, Htr, selected_app in Hy. by apply app_inv_head in Hy.
  - intros Ht Hrs.
    assert (Hle : Forall (fun event =>
                            Progress.atMost100 (percentOf tsvEntityData event))
                         (phaseRecords p file)).
    { eapply Forall_impl; [exact Hrs|].
      intros event Hr. by apply Progress.percent_atMost100. }
    assert (Hproc : Forall (fun event =>
                              Progress.atMost100 (percentOf tsvEntityData event))
                           processed).
    { destruct Hpre as [rest Hrest]. rewrite Hrest in Hle.
      by apply Forall_app in Hle as [Hle _]. }
    split.
    + destruct (Progress.progressStatus_whole (tsvLineCount tsvEntityData)
                  (readLineCount <$> processed))
        as (n & ns & _ & Hns & _ & Hsp & _ & _ & _ & Hlen);
        [by apply Forall_fmap|].
      exists ns. by rewrite Hlog.
    + intros pre event [rest Hrest]. rewrite fmap_app.
      apply (Progress.progressStatus_behind (tsvLineCount tsvEntityData)
               (readLineCount <$> pre) (readLineCount event)).
      rewrite Hrest in Hproc. apply Forall_app in Hproc as [Hproc _].
      change [readLineCount event] with (readLineCount <$> [event]).
      rewrite <- fmap_app. by apply Forall_fmap.
Qed.

Lemma phase_progress_entries_witness :
  let r := @phaseInserts unitSchema exampleDatabase exampleDecoders
             RawEvents 1%Z exampleTsv coarseFile exampleWorld in
  (0 < tsvLineCount exampleTsv < 2 ^ 53)%Z
  /\ Forall (fun event =>
               (0 <= readLineCount event <= tsvLineCount exampleTsv)%Z)
            (@phaseRecords RawEvents coarseFile)
  /\ exists tr ns,
      trace r.2 = trace exampleWorld ++ tr
      /\ progressEntries tr = Progress.ofZ <$> ns
      /\ Progress.spaced20 0 ns
      /\ length ns <= 4.
Proof.
  intros r.
  assert (Ht : (0 < tsvLineCount exampleTsv < 2 ^ 53)%Z) by (simpl; lia).
  assert (Hrs : Forall (fun event =>
                          (0 <= readLineCount event
                           <= tsvLineCount exampleTsv)%Z)
                       (@phaseRecords RawEvents coarseFile))
    by (repeat constructor; simpl; lia).
  split; [exact Ht|]. split; [exact Hrs|].
  destruct (@phase_progress_entries unitSchema exampleDatabase exampleDecoders
              RawEvents 1%Z exampleTsv coarseFile exampleWorld)
    as (tr & processed & Htr & _ & _ & _ & _ & Hsem).
  destruct (Hsem Ht Hrs) as [(ns & Hns & Hsp & Hlen) _].
  by exists tr, ns.
Defined.

(** C6, as the specification states it, fails.  The reindex of a
    phase's tables runs on the pool after the transaction has
    committed: on a database whose [REINDEX] fails the burn-block phase
    fails with the rows of the phase committed. *)
Lemma phase_error_counterexample :
  let w := @initialWorld unitSchema brittleDatabase [] in
  let r := @insertPhase unitSchema brittleDatabase exampleDecoders
             BurnBlocks 1%Z exampleTsv exampleFile w in
  r.1 = inl StorageError
  /\ committed r.2
     = [@toggleTableIndexes unitSchema burnBlockTables false;
        @updateBurnchainRewards unitSchema "reward" 1 [tt];
        @toggleTableIndexes unitSchema burnBlockTables true]
  /\ committed r.2 <> committed w
  /\ EvRollback ∉ trace r.2.
Proof.
  intros w r.
  assert (Hc : committed r.2
               = [@toggleTableIndexes unitSchema burnBlockTables false;
                  @updateBurnchainRewards unitSchema "reward" 1 [tt];
                  @toggleTableIndexes unitSchema burnBlockTables true])
    by (by vm_compute).
  split; [by vm_compute|]. split; [exact Hc|]. split.
  - rewrite Hc. discriminate.
  - intros Hin%list_elem_of_In. vm_compute in Hin.
    repeat (destruct Hin as [Hin|Hin]; [discriminate Hin|]). exact Hin.
Qed.

(** C6 (amended). For every phase: the disabling of the indexes, every
    insert and the re-enabling of the indexes are issued on the handle
    of one transaction, between its begin and its commit or rollback.
    An error raised inside the transaction rolls it back: the committed
    store (rows and index state) is what it was before the phase, the
    phase ends with that error and reindexes nothing; a record whose
    payload does not decode is such an error, it is never skipped.
    After the commit the phase only issues [REINDEX TABLE] on the pool,
    for its tables in order; an error raised there fails the phase with
    the transaction committed. *)
Theorem phase_transaction_atomic {schema : Schema} {database : Database}
    {decoders : Decoders} (p : Phase) (chainID : ChainID)
    (tsvEntityData : TsvEntityData) (file : list PreorgRecord) (w : World) :
  let t := phaseTransaction p chainID tsvEntityData file w in
  let r := insertPhase p chainID tsvEntityData file w in
  pending t.2 = None
  /\ (exists evs,
        Forall (txEvent p) evs
        /\ match t.1 with
           | inr _ =>
               trace t.2
               = trace w ++ EvBegin
                   :: EvCmd Tx (toggleTableIndexes (phaseTables p) false)
                   :: evs ++ [EvCmd Tx (toggleTableIndexes (phaseTables p) true);
                              EvCommit]
           | inl _ =>
               trace t.2
               = trace w ++ EvBegin
                   :: EvCmd Tx (toggleTableIndexes (phaseTables p) false)
                   :: evs ++ [EvRollback]
               /\ committed t.2 = committed w
           end)
  /\ (forall e, t.1 = inl e -> r = t)
  /\ (forall event,
        event ∈ phaseRecords p file -> ~ decodes p chainID event ->
        exists e, r.1 = inl e /\ r = t /\ committed r.2 = committed w)
  /\ (t.1 = inr tt ->
      exists k,
        trace r.2
        = trace t.2 ++ ((fun table => EvCmd Pool (reindexTable table))
                          <$> take k (phaseTables p))
        /\ match r.1 with
           | inr _ => k = length (phaseTables p)
           | inl _ => 1 <= k <= length (phaseTables p)
           end).
Proof.
  cbv zeta. unfold insertPhase, phaseTransaction. rewrite bind_unfold.
  destruct (bulkTransaction_trace p (phaseTables p)
              (phaseInserts p chainID tsvEntityData file) w
              (txOnly_phaseInserts p chainID tsvEntityData file)
              (phaseTables_phase p)) as (Hpend & evs & Hevs & Ht).
  cbv zeta in Hpend, Ht.
  destruct (bulkTransaction (phaseTables p)
              (phaseInserts p chainID tsvEntityData file) w)
    as [[e|[]] w1]; cbn [fst snd] in *.
  - destruct Ht as [Ht Hc]. split; [done|]. split; [by exists evs|].
    split; [done|]. split; [|done].
    intros event _ _. by exists e.
  - destruct Ht as [Ht [w0 Hok]]. split; [done|]. split; [by exists evs|].
    split; [done|]. split.
    + intros event Hin Hbad. exfalso. apply Hbad.
      apply phaseInserts_inr in Hok.
      rewrite Forall_forall in Hok. by apply Hok.
    + intros _. apply reindexTables_outcome.
Qed.

Lemma phase_transaction_atomic_witness :
  let bad := {| path := "/new_burn_block"; payload := ""; readLineCount := 1 |} in
  let r := @insertPhase unitSchema exampleDatabase exampleDecoders
             BurnBlocks 1%Z exampleTsv badFile exampleWorld in
  bad ∈ @phaseRecords BurnBlocks badFile
  /\ ~ @decodes unitSchema exampleDecoders BurnBlocks 1%Z bad
  /\ exists e, r.1 = inl e /\ committed r.2 = committed exampleWorld.
Proof.
  intros bad r.
  assert (Hin : bad ∈ @phaseRecords BurnBlocks badFile) by (by left).
  assert (Hbad : ~ @decodes unitSchema exampleDecoders BurnBlocks 1%Z bad).
  { intros [x Hx]. vm_compute in Hx. discriminate Hx. }
  split; [exact Hin|]. split; [exact Hbad|].
  destruct (proj1 (proj2 (proj2 (proj2
              (@phase_transaction_atomic unitSchema exampleDatabase
                 exampleDecoders BurnBlocks 1%Z exampleTsv badFile
                 exampleWorld)))) bad Hin Hbad) as (e & He & _ & Hc).
  by exists e.
Defined.

(** C8. The import runs the burn-block, attachment, raw-request and
    new-block phases in this order, one after the other: every command
    issued inside a transaction belongs to the phase whose number is the
    number of transactions committed before it, so the transactions of
    all earlier phases have completed (and none was rolled back) before
    any insert of a later phase; a successful import has committed four
    transactions. *)
Theorem phases_run_in_order {schema : Schema} {database : Database}
    {decoders : Decoders} (chainID : ChainID) (tsvEntityData : TsvEntityData)
    (file : list PreorgRecord) (s : Store) :
  let r := insertEventData chainID tsvEntityData file (initialWorld s) in
  (forall pre c post,
     trace r.2 = pre ++ EvCmd Tx c :: post ->
     exists p, cmdPhase c = Some p
               /\ commitCount pre = phaseIndex p
               /\ EvRollback ∉ pre)
  /\ is_Some (monitor (Running 0 false) (trace r.2))
  /\ (r.1 = inr tt ->
      monitor (Running 0 false) (trace r.2) = Some (Running 4 false)).
Proof.
  cbv zeta.
  pose proof (steps_insertEventData chainID tsvEntityData file
                (initialWorld s) eq_refl) as Hsteps.
  assert (Hacc : is_Some (monitor (Running 0 false)
            (trace (insertEventData chainID tsvEntityData file
                      (initialWorld s)).2))).
  { destruct ((insertEventData chainID tsvEntityData file (initialWorld s)).1);
      [done | by eexists]. }
  split; [|split; [exact Hacc|]].
  - intros pre c post Ht. destruct Hacc as [m Hm].
    by eapply monitor_tx_command.
  - intros Hok. by rewrite Hok in Hsteps.
Qed.

Lemma phases_run_in_order_witness :
  let t := trace (@insertEventData unitSchema exampleDatabase exampleDecoders
                    1%Z exampleTsv exampleFile exampleWorld).2 in
  t = take 34 t ++ EvCmd Tx (@updateBlock unitSchema tt) :: drop 35 t
  /\ exists p, @cmdPhase unitSchema (@updateBlock unitSchema tt) = Some p
               /\ commitCount (take 34 t) = phaseIndex p
               /\ EvRollback ∉ take 34 t.
Proof.
  intros t.
  assert (Ht : t = take 34 t ++ EvCmd Tx (@updateBlock unitSchema tt) :: drop 35 t)
    by (by vm_compute).
  split; [exact Ht|].
  exact (proj1 (@phases_run_in_order unitSchema exampleDatabase
                  exampleDecoders 1%Z exampleTsv exampleFile [])
           (take 34 t) (@updateBlock unitSchema tt) (drop 35 t) Ht).
Defined.

(** C10. In the burn-block phase, a record whose parsed message has no
    rewards makes no call to [updateBurnchainRewards], and a record
    whose parsed message has no slot holders makes no call to
    [updateBurnchainRewardSlotHolders]; a record with neither issues no
    command at all and leaves the store as it was. *)
Theorem burn_block_empty_lists {schema : Schema} {database : Database}
    {decoders : Decoders} (tsvEntityData : TsvEntityData)
    (last : Progress.Number)
    (event : PreorgRecord) (w : World) msg data :
  JSON_parse_burnBlock (payload event) = Some msg ->
  parseBurnBlockMessage msg = Some data ->
  let r := burnBlockEvent tsvEntityData last event w in
  exists evs,
    trace r.2 = trace w ++ evs
    /\ (rewards data = [] -> Forall (fun e => isRewardsCmd e = false) evs)
    /\ (slotHolders data = [] ->
        Forall (fun e => isSlotHoldersCmd e = false) evs)
    /\ (rewards data = [] -> slotHolders data = [] ->
        Forall (fun e => isLog e = true) evs
        /\ committed r.2 = committed w
        /\ pending r.2 = pending w
        /\ exists last', r.1 = inr last').
Proof.
  intros Hmsg Hdata. cbv zeta.
  destruct (txOnly_burnBlockEvent tsvEntityData last event w)
    as (_ & _ & evs & Ht & _).
  exists evs. split; [exact Ht|].
  assert (Hsame : forall (P : Event -> Prop),
            emits P (burnBlockEvent tsvEntityData last event) ->
            Forall P evs).
  { intros P HP. destruct (HP w) as (evs' & Ht' & Hevs').
    rewrite Ht in Ht'. by apply app_inv_head in Ht' as ->. }
  assert (Hrun : burnBlockEvent tsvEntityData last event
    = ((if 0 <? length (rewards data) then
          track "updateBurnchainRewards"
            (exec Tx (updateBurnchainRewards (burn_block_hash msg)
                        (burn_block_height msg) (rewards data)))
        else mret tt);;
       (if 0 <? length (slotHolders data) then
          track "updateBurnchainRewardSlotHolders"
            (exec Tx (updateBurnchainRewardSlotHolders (burn_block_hash msg)
                        (burn_block_height msg) (slotHolders data)))
        else mret tt);;
       progressCheck "Processed '/new_burn_block' events" tsvEntityData last
                     event)).
  { unfold burnBlockEvent.
    rewrite Hmsg. cbn [parse]. rewrite ret_bind. cbv beta.
    rewrite Hdata. cbn [parse]. by rewrite ret_bind. }
  split; [|split].
  - intros Hr. apply Hsame. rewrite Hrun, Hr. simpl.
    apply emits_bind; [apply emits_ret | intros _].
    apply emits_bind; [|intros _; by apply emits_progressCheck].
    destruct (0 <? length (slotHolders data));
      [by apply emits_exec | apply emits_ret].
  - intros Hs. apply Hsame. rewrite Hrun, Hs. simpl.
    apply emits_bind; [|intros _].
    { destruct (0 <? length (rewards data));
        [by apply emits_exec | apply emits_ret]. }
    apply emits_bind; [apply emits_ret | intros _].
    by apply emits_progressCheck.
  - intros Hr Hs.
    assert (Heq : burnBlockEvent tsvEntityData last event w
                  = progressCheck "Processed '/new_burn_block' events"
                                  tsvEntityData last event w).
    { rewrite Hrun, Hr, Hs. reflexivity. }
    split.
    + apply Hsame. rewrite Hrun, Hr, Hs. simpl.
      apply emits_bind; [apply emits_ret | intros _].
      apply emits_bind; [apply emits_ret | intros _].
      by apply emits_progressCheck.
    + rewrite Heq.
      destruct (progressCheck_stores "Processed '/new_burn_block' events"
                  tsvEntityData last event w) as [Hc Hp].
      split; [exact Hc|]. split; [exact Hp|].
      unfold progressCheck, Progress.statusUpdate.
      destruct (Progress.gt _ _); by eexists.
Qed.

Lemma burn_block_empty_lists_witness :
  let event := {| path := "/new_burn_block"; payload := "none";
                  readLineCount := 2 |} in
  let r := @burnBlockEvent unitSchema exampleDatabase exampleDecoders
             exampleTsv (Progress.ofZ 25) event exampleWorld in
  @JSON_parse_burnBlock unitSchema exampleDecoders (payload event) = Some "none"
  /\ @parseBurnBlockMessage unitSchema exampleDecoders "none"
     = Some (@mkBurnBlockData unitSchema [] [])
  /\ exists evs,
      trace r.2 = trace exampleWorld ++ evs
      /\ Forall (fun e => isRewardsCmd e = false) evs
      /\ committed r.2 = committed exampleWorld.
Proof.
  intros event r.
  assert (H1 : @JSON_parse_burnBlock unitSchema exampleDecoders (payload event)
               = Some "none") by reflexivity.
  assert (H2 : @parseBurnBlockMessage unitSchema exampleDecoders "none"
               = Some (@mkBurnBlockData unitSchema [] [])) by reflexivity.
  split; [exact H1|]. split; [exact H2|].
  destruct (@burn_block_empty_lists unitSchema exampleDatabase exampleDecoders
              exampleTsv (Progress.ofZ 25) event exampleWorld _ _ H1 H2)
    as (evs & Ht & Hr & _ & Hboth).
  exists evs. split; [exact Ht|]. split; [by apply Hr|].
  by apply Hboth.
Defined.

(** X8. A phase whose transaction commits has issued, besides the
    batched inserts, exactly these commands, in this order: the
    disabling of the indexes of its tables, the commands of each record
    it reads, record after record in the order of the file, and the
    re-enabling of the indexes.  The progress check and the accumulators
    add no command, and no record is skipped or processed twice. *)
Theorem phase_commands {schema : Schema} {database : Database}
    {decoders : Decoders} (p : Phase) (chainID : ChainID)
    (tsvEntityData : TsvEntityData) (file : list PreorgRecord) (w : World) :
  let r := phaseTransaction p chainID tsvEntityData file w in
  r.1 = inr tt ->
  selected plainCmd (trace r.2)
  = selected plainCmd (trace w)
    ++ toggleTableIndexes (phaseTables p) false
       :: flat_map (recordCmds p chainID) (phaseRecords p file)
       ++ [toggleTableIndexes (phaseTables p) true].
Proof.
  cbv zeta. intros Hok.
  pose proof (yields_bulkTransaction plainCmd (phaseTables p) _ _
                eq_refl eq_refl
                (yields_phaseInserts p chainID tsvEntityData file) w) as Hy.
  unfold phaseTransaction in *. by rewrite Hok in Hy.
Qed.

Lemma phase_commands_witness :
  let r := @phaseTransaction unitSchema exampleDatabase exampleDecoders
             BurnBlocks 1%Z exampleTsv exampleFile exampleWorld in
  r.1 = inr tt
  /\ selected plainCmd (trace r.2)
     = [@toggleTableIndexes unitSchema burnBlockTables false;
        @updateBurnchainRewards unitSchema "reward" 1 [tt];
        @toggleTableIndexes unitSchema burnBlockTables true].
Proof.
  intros r.
  assert (Hok : r.1 = inr tt) by (by vm_compute).
  split; [exact Hok|].
  exact (@phase_commands unitSchema exampleDatabase exampleDecoders
           BurnBlocks 1%Z exampleTsv exampleFile exampleWorld Hok).
Defined.

(** X9. When the transaction of the new-block phase commits, the rows
    handed to [updateTxBatch], batch after batch, are the [tx] rows of
    the transactions of all blocks read, each once and in order; and the
    rows handed to [insertPrincipalStxTxsBatched] are the principal rows
    of these transactions, in order.  The two accumulators and the
    final [flush] lose no row and repeat none. *)
Theorem new_block_rows {schema : Schema} {database : Database}
    {decoders : Decoders} (chainID : ChainID)
    (tsvEntityData : TsvEntityData) (file : list PreorgRecord) (w : World) :
  let r := phaseTransaction NewBlocks chainID tsvEntityData file w in
  let blockTxs :=
    flat_map (recordTxs chainID) (phaseRecords NewBlocks file) in
  r.1 = inr tt ->
  selected txRows (trace r.2) = selected txRows (trace w) ++ (tx <$> blockTxs)
  /\ selected principalRows (trace r.2)
     = selected principalRows (trace w)
       ++ flat_map Principals.processStxEvents blockTxs.
Proof.
  cbv zeta. intros Hok.
  pose proof (yields_bulkTransaction txRows (phaseTables NewBlocks) _ _
                eq_refl eq_refl
                (yields_newBlockInserts_tx chainID tsvEntityData file) w)
    as Htx.
  pose proof (yields_bulkTransaction principalRows (phaseTables NewBlocks) _ _
                eq_refl eq_refl
                (yields_newBlockInserts_principal chainID tsvEntityData file) w)
    as Hprincipal.
  unfold phaseTransaction in *. cbn [phaseInserts phaseRecords] in *.
  rewrite Hok in Htx, Hprincipal. cbn [txRows principalRows app] in *.
  rewrite app_nil_r in Htx, Hprincipal.
  rewrite flat_map_singleton in Htx. by split.
Qed.

Lemma new_block_rows_witness :
  let r := @phaseTransaction unitSchema exampleDatabase exampleDecoders
             NewBlocks 1%Z exampleTsv exampleFile exampleWorld in
  r.1 = inr tt
  /\ selected txRows (trace r.2) = [Principals.exampleTx]
  /\ selected principalRows (trace r.2)
     = Principals.processStxEvents Principals.exampleEntry.
Proof.
  intros r.
  assert (Hok : r.1 = inr tt) by (by vm_compute).
  split; [exact Hok|].
  exact (@new_block_rows unitSchema exampleDatabase exampleDecoders
           1%Z exampleTsv exampleFile exampleWorld Hok).
Defined.

(** X10. In every run of the import, whether it succeeds or fails,
    every call of [updateTxBatch] and of [insertPrincipalStxTxsBatched]
    carries at least one row and at most a thousand: the accumulators
    never call [insertFn] with an empty batch, nor with more than
    [batchSize] rows, also not in the final [flush]. *)
Theorem batches_bounded {schema : Schema} {database : Database}
    {decoders : Decoders} (chainID : ChainID)
    (tsvEntityData : TsvEntityData) (file : list PreorgRecord) (w : World) :
  let r := insertEventData chainID tsvEntityData file w in
  exists evs, trace r.2 = trace w ++ evs /\ Forall boundedBatch evs.
Proof.
  cbv zeta. revert w.
  change (emits boundedBatch (insertEventData chainID tsvEntityData file)).
  unfold insertEventData.
  apply emits_bind; [by apply emits_exec | intros _].
  apply emits_bind; [by apply emits_exec | intros _].
  apply emits_bind;
    [apply (bounded_insertPhase BurnBlocks chainID) | intros _].
  apply emits_bind;
    [apply (bounded_insertPhase Attachments chainID) | intros _].
  apply emits_bind;
    [apply (bounded_insertPhase RawEvents chainID) | intros _].
  apply (bounded_insertPhase NewBlocks chainID).
Qed.



(** X12. A rollback ends the import: in a run from a connection with no
    open transaction, nothing follows a rollback, neither a command of a
    later phase nor a reindex nor a log line, and the import has
    failed. *)
Theorem rollback_ends_import {schema : Schema} {database : Database}
    {decoders : Decoders} (chainID : ChainID) (tsvEntityData : TsvEntityData)
    (file : list PreorgRecord) (s : Store) :
  let r := insertEventData chainID tsvEntityData file (initialWorld s) in
  forall pre post,
    trace r.2 = pre ++ EvRollback :: post ->
    post = [] /\ exists e, r.1 = inl e.
Proof.
  cbv zeta. intros pre post Ht.
  pose proof (steps_insertEventData chainID tsvEntityData file
                (initialWorld s) eq_refl) as Hsteps.
  destruct ((insertEventData chainID tsvEntityData file (initialWorld s)).1)
    as [e|[]].
  - destruct Hsteps as [m Hm]. rewrite Ht in Hm.
    split; [by eapply monitor_rollback_last | by exists e].
  - apply monitor_running in Hsteps as [_ Hnr]. destruct Hnr.
    rewrite Ht. apply elem_of_app. right. by left.
Qed.

Lemma rollback_ends_import_witness :
  let r := @insertEventData unitSchema exampleDatabase exampleDecoders
             1%Z exampleTsv badFile exampleWorld in
  trace r.2 = take 4 (trace r.2) ++ EvRollback :: []
  /\ exists e, r.1 = inl e.
Proof.
  intros r.
  assert (Ht : trace r.2 = take 4 (trace r.2) ++ EvRollback :: [])
    by (by vm_compute).
  split; [exact Ht|].
  exact (proj2 (@rollback_ends_import unitSchema exampleDatabase
                  exampleDecoders 1%Z exampleTsv badFile []
                  (take 4 (trace r.2)) [] Ht)).
Defined.

End Loader.

(** ** The derived artifacts ([preOrgTsvImport], before the import)

    The file system is a finite map from paths to contents.  The scan of
    the event log ([getCanonicalEntityList]) and the rewriting of the log
    ([readLines], [createTsvReorgStream] and the write stream, piped)
    belong to [./tsv-pre-org] and [./reverse-line-reader], which are not
    part of the sources at hand: they are parameters, functions of the
    contents of the log. *)

Module Pipeline.

Import Loader.

(** What a run did to obtain its artifacts. *)
Inductive Step :=
| ReadEntityData
| ScannedTsv
| WroteEntityData
| UsedExistingPreorg
| WrotePreorg.

Record Artifacts := mkArtifacts {
  files : gmap string string;
  tsvEntityData : TsvEntityData;
  preorgContents : string;
  steps : list Step
}.

Section Artifacts.
Variable getCanonicalEntityList : string -> TsvEntityData.
Variable reorgTsv : list string -> list string -> string -> string.
(** [JSON.stringify] and [JSON.parse] at the type of the canonical
    index; [None] stands for a thrown [SyntaxError]. *)
Variable JSON_stringify : TsvEntityData -> string.
Variable JSON_parse : string -> option TsvEntityData.

(** [if (fs.existsSync(filePath + '.entitydata')) ... else ...] *)
Definition entityDataStep (filePath : string) (fs : gmap string string)
  : option (TsvEntityData * gmap string string * list Step) :=
  match fs !! (filePath +:+ ".entitydata") with
  | Some cached =>
      d ← JSON_parse cached;
      Some (d, fs, [ReadEntityData])
  | None =>
      log ← fs !! filePath;
      let d := getCanonicalEntityList log in
      Some (d, <[filePath +:+ ".entitydata" := JSON_stringify d]> fs,
            [ScannedTsv; WroteEntityData])
  end.

(** [if (fs.existsSync(preOrgFilePath)) ... else ...] *)
Definition preorgStep (filePath : string) (d : TsvEntityData)
    (fs : gmap string string) : option (gmap string string * list Step) :=
  let preOrgFilePath := filePath +:+ "-preorg" in
  match fs !! preOrgFilePath with
  | Some _ => Some (fs, [UsedExistingPreorg])
  | None =>
      log ← fs !! filePath;
      Some (<[preOrgFilePath :=
                reorgTsv (indexBlockHashes d) (burnBlockHashes d) log]> fs,
            [WrotePreorg])
  end.

(** The artifacts of one run: the file system it leaves, the canonical
    index it goes on with, and the contents of the preorg file that the
    four phases then read.  [None] when a read or a parse throws. *)
Definition preOrgArtifacts (filePath : string) (fs : gmap string string)
  : option Artifacts :=
  '(d, fs1, steps1) ← entityDataStep filePath fs;
  '(fs2, steps2) ← preorgStep filePath d fs1;
  preorg ← fs2 !! (filePath +:+ "-preorg");
  Some {| files := fs2; tsvEntityData := d; preorgContents := preorg;
          steps := steps1 ++ steps2 |}.

Lemma artifact_paths_differ (filePath : string) :
  filePath +:+ ".entitydata" <> filePath +:+ "-preorg".
Proof. by intros ?%(inj (String.app filePath)). Qed.

Lemma entityDataStep_cached filePath fs d fs1 steps1 :
  (forall d, JSON_parse (JSON_stringify d) = Some d) ->
  entityDataStep filePath fs = Some (d, fs1, steps1) ->
  exists cached,
    fs1 !! (filePath +:+ ".entitydata") = Some cached
    /\ JSON_parse cached = Some d.
Proof.
  intros Hjson. unfold entityDataStep.
  destruct (fs !! (filePath +:+ ".entitydata")) as [cached|] eqn:Hc.
  - destruct (JSON_parse cached) as [d'|] eqn:Hp; simpl; [|done].
    intros [= <- <- <-]. by exists cached.
  - destruct (fs !! filePath) as [log|]; simpl; [|done].
    intros [= <- <- <-]. eexists. split; [apply lookup_insert_eq | apply Hjson].
Qed.

Lemma preorgStep_present filePath d fs fs2 steps2 :
  preorgStep filePath d fs = Some (fs2, steps2) ->
  is_Some (fs2 !! (filePath +:+ "-preorg"))
  /\ fs2 !! (filePath +:+ ".entitydata") = fs !! (filePath +:+ ".entitydata").
Proof.
  unfold preorgStep.
  destruct (fs !! (filePath +:+ "-preorg")) as [pre|] eqn:Hp.
  - intros [= <- <-]. split; [by eexists | done].
  - destruct (fs !! filePath) as [log|]; simpl; [|done].
    intros [= <- <-]. split.
    + rewrite lookup_insert_eq. by eexists.
    + apply lookup_insert_ne. intros Heq. by apply (artifact_paths_differ filePath).
Qed.

End Artifacts.

(** [preOrgTsvImport]: the artifacts, then the four phases over the
    records of the preorg file.  The decoding of the preorg file into
    records belongs to [readPreorgTsv]; it is a parameter. *)
Definition preOrgTsvImport {schema : Schema} {database : Database}
    {decoders : Decoders}
    (getCanonicalEntityList : string -> TsvEntityData)
    (reorgTsv : list string -> list string -> string -> string)
    (JSON_stringify : TsvEntityData -> string)
    (JSON_parse : string -> option TsvEntityData)
    (preorgRecords : string -> list PreorgRecord)
    (chainID : ChainID) (filePath : string)
    (fs : gmap string string) (w : World)
  : option (Artifacts * ((Error + unit) * World)) :=
  run ← preOrgArtifacts getCanonicalEntityList reorgTsv JSON_stringify
                        JSON_parse filePath fs;
  Some (run, insertEventData chainID (tsvEntityData run)
                             (preorgRecords (preorgContents run)) w).

(** A reversible encoding of canonical indexes as strings, for the
    examples: the binary digits of the index's code. *)
Fixpoint digits (p : positive) : string :=
  match p with
  | xH => ""
  | xO p' => String "0"%char (digits p')
  | xI p' => String "1"%char (digits p')
  end.

Fixpoint undigits (s : string) : positive :=
  match s with
  | String "1"%char s' => xI (undigits s')
  | String _ s' => xO (undigits s')
  | EmptyString => xH
  end.

Definition exampleStringify (d : TsvEntityData) : string :=
  digits (encode (indexBlockHashes d, burnBlockHashes d, tsvLineCount d)).

Definition exampleParse (s : string) : option TsvEntityData :=
  '(ibh, bbh, n) ← decode (undigits s);
  Some {| indexBlockHashes := ibh; burnBlockHashes := bbh; tsvLineCount := n |}.

Lemma undigits_digits p : undigits (digits p) = p.
Proof. induction p as [p IH|p IH|]; simpl; by rewrite ?IH. Qed.

Lemma exampleParse_stringify d : exampleParse (exampleStringify d) = Some d.
Proof.
  unfold exampleParse, exampleStringify.
  rewrite undigits_digits, decode_encode. simpl. by destruct d.
Qed.

(** A scan that takes the log to be one line, and a rewriting that
    keeps the log as it is. *)
Definition exampleScan (log : string) : TsvEntityData :=
  {| indexBlockHashes := []; burnBlockHashes := []; tsvLineCount := 1 |}.

Definition exampleReorg (_ _ : list string) (log : string) : string := log.

Definition exampleFiles : gmap string string :=
  {[ "events.tsv" := "/new_block\t{}" ]}.

(** C9. When a run of the pipeline has obtained its artifacts, a second
    run on the file system it leaves reads the [.entitydata] file
    instead of scanning the log, finds the [-preorg] file instead of
    writing it, writes nothing, and goes on with the same canonical
    index and the same preorg contents as the first. *)
Theorem second_run_reuses_artifacts
    (getCanonicalEntityList : string -> TsvEntityData)
    (reorgTsv : list string -> list string -> string -> string)
    (JSON_stringify : TsvEntityData -> string)
    (JSON_parse : string -> option TsvEntityData)
    (filePath : string) (fs : gmap string string) (run1 : Artifacts) :
  (forall d, JSON_parse (JSON_stringify d) = Some d) ->
  preOrgArtifacts getCanonicalEntityList reorgTsv JSON_stringify JSON_parse
                  filePath fs = Some run1 ->
  exists run2,
    preOrgArtifacts getCanonicalEntityList reorgTsv JSON_stringify JSON_parse
                    filePath (files run1) = Some run2
    /\ steps run2 = [ReadEntityData; UsedExistingPreorg]
    /\ tsvEntityData run2 = tsvEntityData run1
    /\ preorgContents run2 = preorgContents run1
    /\ files run2 = files run1.
Proof.
  intros Hjson Hrun1. unfold preOrgArtifacts in Hrun1.
  destruct (entityDataStep getCanonicalEntityList JSON_stringify JSON_parse
              filePath fs) as [[[d fs1] steps1]|] eqn:He; simpl in Hrun1; [|done].
  destruct (preorgStep reorgTsv filePath d fs1) as [[fs2 steps2]|] eqn:Hp;
    simpl in Hrun1; [|done].
  destruct (fs2 !! (filePath +:+ "-preorg")) as [preorg|] eqn:Hpre;
    simpl in Hrun1; [|done].
  injection Hrun1 as <-. cbn [files tsvEntityData preorgContents steps].
  destruct (entityDataStep_cached _ _ _ _ _ _ _ _ Hjson He)
    as (cached & Hc & Hparse).
  destruct (preorgStep_present _ _ _ _ _ _ Hp) as [_ Hsame].
  exists {| files := fs2; tsvEntityData := d; preorgContents := preorg;
            steps := [ReadEntityData; UsedExistingPreorg] |}.
  split; [|done].
  unfold preOrgArtifacts, entityDataStep.
  rewrite Hsame, Hc. simpl. rewrite Hparse. simpl.
  unfold preorgStep. rewrite Hpre. simpl. by rewrite Hpre.
Qed.

Lemma second_run_reuses_artifacts_witness :
  exists run1 run2,
    preOrgArtifacts exampleScan exampleReorg exampleStringify exampleParse
                    "events.tsv" exampleFiles = Some run1
    /\ steps run1 = [ScannedTsv; WroteEntityData; WrotePreorg]
    /\ preOrgArtifacts exampleScan exampleReorg exampleStringify exampleParse
                       "events.tsv" (files run1) = Some run2
    /\ steps run2 = [ReadEntityData; UsedExistingPreorg]
    /\ tsvEntityData run2 = tsvEntityData run1.
Proof.
  destruct (preOrgArtifacts exampleScan exampleReorg exampleStringify
              exampleParse "events.tsv" exampleFiles) as [run1|] eqn:Hrun1;
    [|by vm_compute in Hrun1].
  assert (Hsteps : steps run1 = [ScannedTsv; WroteEntityData; WrotePreorg]).
  { unfold preOrgArtifacts in Hrun1. vm_compute in Hrun1.
    by injection Hrun1 as <-. }
  destruct (second_run_reuses_artifacts exampleScan exampleReorg
              exampleStringify exampleParse "events.tsv" exampleFiles run1
              exampleParse_stringify Hrun1)
    as (run2 & Hrun2 & Hsteps2 & Hd & _).
  by exists run1, run2.
Defined.

(** *** What a run leaves alone, and when it fails *)

Lemma path_suffix_differs (filePath suffix : string) :
  suffix <> "" -> filePath <> filePath +:+ suffix.
Proof.
  intros Hs Heq. apply (f_equal String.length) in Heq.
  rewrite Principals.string_length_app in Heq.
  destruct suffix; [done | simpl in Heq; lia].
Qed.

Lemma entityDataStep_frame scan stringify parse filePath fs d fs1 steps1 :
  entityDataStep scan stringify parse filePath fs = Some (d, fs1, steps1) ->
  (forall path, path <> filePath +:+ ".entitydata" -> fs1 !! path = fs !! path)
  /\ (forall c, fs !! (filePath +:+ ".entitydata") = Some c -> fs1 = fs).
Proof.
  unfold entityDataStep.
  destruct (fs !! (filePath +:+ ".entitydata")) as [cached|] eqn:Hc.
  - destruct (parse cached) as [d'|]; simpl; [|done].
    intros [= <- <- <-]. by split.
  - destruct (fs !! filePath) as [log|]; simpl; [|done].
    intros [= <- <- <-]. split; [|done].
    intros path Hne. by rewrite lookup_insert_ne.
Qed.

Lemma preorgStep_frame reorg filePath d fs fs2 steps2 :
  preorgStep reorg filePath d fs = Some (fs2, steps2) ->
  (forall path, path <> filePath +:+ "-preorg" -> fs2 !! path = fs !! path)
  /\ (forall c, fs !! (filePath +:+ "-preorg") = Some c -> fs2 = fs).
Proof.
  unfold preorgStep.
  destruct (fs !! (filePath +:+ "-preorg")) as [pre|] eqn:Hp.
  - intros [= <- <-]. by split.
  - destruct (fs !! filePath) as [log|]; simpl; [|done].
    intros [= <- <-]. split; [|done].
    intros path Hne. by rewrite lookup_insert_ne.
Qed.

(** X1. A run that obtains its artifacts changes no file other than
    [<path>.entitydata] and [<path>-preorg]: the event log itself is
    never modified, and an artifact that already exists is kept as it
    is (and is the one the run goes on with). *)
Theorem artifacts_frame
    (getCanonicalEntityList : string -> TsvEntityData)
    (reorgTsv : list string -> list string -> string -> string)
    (JSON_stringify : TsvEntityData -> string)
    (JSON_parse : string -> option TsvEntityData)
    (filePath : string) (fs : gmap string string) (run : Artifacts) :
  preOrgArtifacts getCanonicalEntityList reorgTsv JSON_stringify JSON_parse
                  filePath fs = Some run ->
  (forall path,
     path <> filePath +:+ ".entitydata" -> path <> filePath +:+ "-preorg" ->
     files run !! path = fs !! path)
  /\ files run !! filePath = fs !! filePath
  /\ (forall c, fs !! (filePath +:+ ".entitydata") = Some c ->
        files run !! (filePath +:+ ".entitydata") = Some c
        /\ JSON_parse c = Some (tsvEntityData run))
  /\ (forall c, fs !! (filePath +:+ "-preorg") = Some c ->
        files run !! (filePath +:+ "-preorg") = Some c
        /\ preorgContents run = c).
Proof.
  intros Hrun. unfold preOrgArtifacts in Hrun.
  destruct (entityDataStep getCanonicalEntityList JSON_stringify JSON_parse
              filePath fs) as [[[d fs1] steps1]|] eqn:He; simpl in Hrun; [|done].
  destruct (preorgStep reorgTsv filePath d fs1) as [[fs2 steps2]|] eqn:Hp;
    simpl in Hrun; [|done].
  destruct (fs2 !! (filePath +:+ "-preorg")) as [preorg|] eqn:Hpre;
    simpl in Hrun; [|done].
  injection Hrun as <-. cbn [files tsvEntityData preorgContents].
  destruct (entityDataStep_frame _ _ _ _ _ _ _ _ He) as [He1 He2].
  destruct (preorgStep_frame _ _ _ _ _ _ Hp) as [Hp1 Hp2].
  assert (Hframe : forall path,
            path <> filePath +:+ ".entitydata" ->
            path <> filePath +:+ "-preorg" -> fs2 !! path = fs !! path).
  { intros path H1 H2. by rewrite Hp1, He1. }
  split; [exact Hframe|]. split; [|split].
  - apply Hframe; by apply path_suffix_differs.
  - intros c Hc. rewrite Hp1, (He2 c Hc), Hc by apply artifact_paths_differ.
    split; [done|].
    unfold entityDataStep in He. rewrite Hc in He.
    destruct (JSON_parse c) as [d'|]; simpl in He; [|done].
    by injection He as <- _ _.
  - intros c Hc.
    assert (Hc1 : fs1 !! (filePath +:+ "-preorg") = Some c).
    { rewrite He1; [done|]. intros Heq. by apply (artifact_paths_differ filePath). }
    rewrite (Hp2 c Hc1) in Hpre. rewrite Hpre in Hc1.
    injection Hc1 as ->. by rewrite (Hp2 c) in * by (by rewrite <- Hpre).
Qed.

Lemma artifacts_frame_witness :
  exists run,
    preOrgArtifacts exampleScan exampleReorg exampleStringify exampleParse
                    "events.tsv" exampleFiles = Some run
    /\ files run !! "events.tsv" = Some "/new_block\t{}".
Proof.
  destruct (preOrgArtifacts exampleScan exampleReorg exampleStringify
              exampleParse "events.tsv" exampleFiles) as [run|] eqn:Hrun;
    [|by vm_compute in Hrun].
  exists run. split; [done|].
  by rewrite (proj1 (proj2 (artifacts_frame _ _ _ _ _ _ _ Hrun))).
Defined.

(** What a run goes on with. *)
Definition outcome (run : Artifacts) : TsvEntityData * string * list Step :=
  (tsvEntityData run, preorgContents run, steps run).

(** X2. An artifact that exists is trusted.  When the [.entitydata]
    file exists the event log is not scanned, whatever the file holds:
    the run is the same for every scan.  When the [-preorg] file exists
    the log is not rewritten: the run is the same for every rewriting.
    With both at hand the log is not read at all: the run ends the same
    way, with the same index, preorg contents and steps, when the log
    is not there. *)
Theorem existing_artifacts_trusted
    (scan scan' : string -> TsvEntityData)
    (reorg reorg' : list string -> list string -> string -> string)
    (JSON_stringify : TsvEntityData -> string)
    (JSON_parse : string -> option TsvEntityData)
    (filePath : string) (fs : gmap string string) :
  (is_Some (fs !! (filePath +:+ ".entitydata")) ->
   preOrgArtifacts scan reorg JSON_stringify JSON_parse filePath fs
   = preOrgArtifacts scan' reorg JSON_stringify JSON_parse filePath fs)
  /\ (is_Some (fs !! (filePath +:+ "-preorg")) ->
      preOrgArtifacts scan reorg JSON_stringify JSON_parse filePath fs
      = preOrgArtifacts scan reorg' JSON_stringify JSON_parse filePath fs)
  /\ (is_Some (fs !! (filePath +:+ ".entitydata")) ->
      is_Some (fs !! (filePath +:+ "-preorg")) ->
      outcome <$> preOrgArtifacts scan reorg JSON_stringify JSON_parse
                                  filePath (delete filePath fs)
      = outcome <$> preOrgArtifacts scan reorg JSON_stringify JSON_parse
                                    filePath fs).
Proof.
  assert (Hne1 : filePath <> filePath +:+ ".entitydata")
    by (by apply path_suffix_differs).
  assert (Hne2 : filePath <> filePath +:+ "-preorg")
    by (by apply path_suffix_differs).
  assert (Hne3 : filePath +:+ "-preorg" <> filePath +:+ ".entitydata")
    by (intros Heq; by apply (artifact_paths_differ filePath)).
  unfold preOrgArtifacts, entityDataStep, preorgStep.
  split; [|split].
  - intros [c Hc]. by rewrite Hc.
  - intros [pre Hpre].
    destruct (fs !! (filePath +:+ ".entitydata")) as [c|] eqn:Hc.
    + destruct (JSON_parse c) as [d|]; simpl; [|done]. by rewrite Hpre.
    + destruct (fs !! filePath) as [log|]; simpl; [|done].
      by rewrite lookup_insert_ne, Hpre by done.
  - intros [c Hc] [pre Hpre].
    rewrite !lookup_delete_ne, Hc by done.
    destruct (JSON_parse c) as [d|]; simpl; [|done].
    rewrite !lookup_delete_ne, Hpre by done. simpl.
    by rewrite !lookup_delete_ne, Hpre by done.
Qed.

Lemma existing_artifacts_trusted_witness :
  let fs : gmap string string :=
    {[ "events.tsv.entitydata" := exampleStringify (exampleScan "");
       "events.tsv-preorg" := "/new_block\t{}" ]} in
  is_Some (fs !! "events.tsv.entitydata")
  /\ is_Some (fs !! "events.tsv-preorg")
  /\ outcome <$> preOrgArtifacts exampleScan exampleReorg exampleStringify
                                 exampleParse "events.tsv"
                                 (delete "events.tsv" fs)
     = outcome <$> preOrgArtifacts exampleScan exampleReorg exampleStringify
                                   exampleParse "events.tsv" fs.
Proof.
  intros fs.
  assert (H1 : is_Some (fs !! "events.tsv.entitydata")) by (by eexists).
  assert (H2 : is_Some (fs !! "events.tsv-preorg")) by (by eexists).
  split; [exact H1|]. split; [exact H2|].
  exact (proj2 (proj2 (existing_artifacts_trusted exampleScan exampleScan
                         exampleReorg exampleReorg exampleStringify
                         exampleParse "events.tsv" fs)) H1 H2).
Defined.

End Pipeline.
